(** * MPL runtime: work-stealing deque, hierarchical-heap forwarding,
      weak fixup and the mutator's "ensure assurances" entry point.

    A shallow embedding of the C sources under [runtime/gc] together with
    the properties established about them.  Machine integers are [Z] with
    their 64-bit wrap-around written out; C structs are records; the heap is
    a collection of finite maps (one per struct field) keyed by address;
    functions that may [DIE] return a [result]. *)

From Stdlib Require Import ZArith Lia Bool.
From stdpp Require Import base option list gmap.

Local Open Scope Z_scope.

(** ** Machine integers *)

Definition U64_MODULUS : Z := 2 ^ 64.

(** Reduction of an integer to a [uint64_t] / [size_t] value. *)
Definition wrap64 (z : Z) : Z := z mod U64_MODULUS.

Definition add64 (a b : Z) : Z := wrap64 (a + b).
Definition sub64 (a b : Z) : Z := wrap64 (a - b).

(** [is_u64 z]: [z] is the value of some [uint64_t]. *)
Definition is_u64 (z : Z) : Prop := 0 <= z < U64_MODULUS.

(** ** Outcomes of runtime functions that can abort the process *)

Inductive fatal :=
| DieSetDepthNonEmpty        (* "Attempt to set depth of non-empty deque" *)
| DieEntanglement            (* "entanglement detected during ..." *)
| DieWeakTag                 (* "... does not support WEAK_TAG objects!" *)
| DieOutOfSpace              (* "Ran out of space for Hierarchical Heap!" *)
| DieLimitBelowFrontier.     (* "s->limitPlusSlop < s->frontier" *)

(** [Ok]: the function returned.  [Die]: the process was aborted by [DIE].
    [Undefined]: the C code dereferenced a pointer that does not point to a
    live cell of the modelled heap.  [Diverge]: a loop did not terminate. *)
Inductive result (A : Type) :=
| Ok (a : A)
| Die (f : fatal)
| Undefined
| Diverge.
Arguments Ok {A} a.
Arguments Die {A} f.
Arguments Undefined {A}.
Arguments Diverge {A}.

#[global] Instance result_ret : MRet result := fun A a => Ok a.
#[global] Instance result_fmap : FMap result := fun A B f m =>
  match m with
  | Ok a => Ok (f a)
  | Die e => Die e
  | Undefined => Undefined
  | Diverge => Diverge
  end.
#[global] Instance result_bind : MBind result := fun A B f m =>
  match m with
  | Ok a => f a
  | Die e => Die e
  | Undefined => Undefined
  | Diverge => Diverge
  end.

(** A load through a pointer: undefined when the cell is not there. *)
Definition deref {A} (o : option A) : result A :=
  match o with
  | Some a => Ok a
  | None => Undefined
  end.

(** [dies_only P r]: when [r] is an abort, its cause satisfies [P]. *)
Definition dies_only {A} (P : fatal -> Prop) (r : result A) : Prop :=
  forall f, r = Die f -> P f.

Definition objptr := Z.
Definition pointer := Z.

(** [NULL], as a [pointer]. *)
Definition NULL : pointer := 0.

(** * chase-lev-deque.c *)

Module ChaseLev.

Definition CAP : Z := 64.

(** The three heap cells the deque functions receive ([top_op], [bot_op],
    [data_op]), dereferenced.  [data] is the ML sequence behind [data_op];
    [getSequenceLength] is its number of elements. *)
Record deque := mkDeque {
  top : Z;
  bot : Z;
  data : list objptr
}.

Definition getSequenceLength (d : deque) : Z := Z.of_nat (length (data d)).

Definition store_top (d : deque) (v : Z) : deque :=
  {| top := v; bot := bot d; data := data d |}.
Definition store_bot (d : deque) (v : Z) : deque :=
  {| top := top d; bot := v; data := data d |}.

(** [data[i] = v]; outside the sequence the C store is undefined and the
    model leaves the sequence as it is. *)
Definition store_data (d : deque) (i : Z) (v : objptr) : deque :=
  {| top := top d; bot := bot d; data := <[Z.to_nat i := v]> (data d) |}.

(** [data[i]]; outside the sequence the C load is undefined and the model
    yields 0. *)
Definition load_data (d : deque) (i : Z) : objptr :=
  default 0 (data d !! Z.to_nat i).

(** [__atomic_compare_exchange_n(top, &expected, desired, ...)]. *)
Definition cas_top (d : deque) (expected desired : Z) : bool * deque :=
  if top d =? expected then (true, store_top d desired) else (false, d).

Definition ChaseLev_pushBot (d : deque) (elem_to_push_op : objptr)
  : bool * deque :=
  let local_bot := bot d in
  let local_top := top d in
  let size := sub64 local_bot local_top in
  if getSequenceLength d <=? size then (false, d)
  else
    let d1 := store_data d (local_bot mod CAP) elem_to_push_op in
    let d2 := store_bot d1 (add64 local_bot 1) in
    (true, d2).

Definition ChaseLev_tryPopBot (d : deque) (fail_value : objptr)
  : objptr * deque :=
  let local_bot := sub64 (bot d) 1 in
  let d1 := store_bot d local_bot in
  let local_top := top d1 in
  if local_top <=? local_bot then
    let elem := load_data d1 (local_bot mod CAP) in
    if local_top =? local_bot then
      let '(swapped, d2) := cas_top d1 local_top (add64 local_top 1) in
      let elem := if swapped then elem else fail_value in
      (elem, store_bot d2 (add64 local_bot 1))
    else (elem, d1)
  else (fail_value, store_bot d1 (add64 local_bot 1)).

Definition ChaseLev_tryPopTop (d : deque) (fail_value : objptr)
  : objptr * deque :=
  let local_top := top d in
  let local_bot := bot d in
  if local_top <? local_bot then
    let elem := load_data d (local_top mod CAP) in
    let '(swapped, d1) := cas_top d local_top (add64 local_top 1) in
    if swapped then (elem, d1) else (fail_value, d1)
  else (fail_value, d).

(** [ChaseLev_setDepth] performs at most two sequentially consistent
    stores.  The function is split into the list of stores it issues, so
    that the states other threads can observe in between are explicit. *)
Inductive store :=
| StoreTop (v : Z)
| StoreBot (v : Z).

Definition apply_store (d : deque) (st : store) : deque :=
  match st with
  | StoreTop v => store_top d v
  | StoreBot v => store_bot d v
  end.

Definition ChaseLev_setDepth_stores (d : deque) (desired_depth : Z)
  : result (list store) :=
  let local_top := top d in
  let local_bot := bot d in
  if negb (local_top =? local_bot) then Die DieSetDepthNonEmpty
  else if desired_depth =? local_bot then Ok []
  else if desired_depth <? local_bot then
    Ok [StoreBot desired_depth; StoreTop desired_depth]
  else
    Ok [StoreTop desired_depth; StoreBot desired_depth].

(** The cells of the deque once the owner has made the first [n] of the
    stores [sts] (all of them when [n] is larger). *)
Definition memory_after (d : deque) (sts : list store) (n : nat) : deque :=
  foldl apply_store d (take n sts).

(** A thief's [ChaseLev_tryPopTop] that runs while the owner makes the
    stores [sts] on the deque [d].  Each access of the thief to the cells is
    atomic, but the owner's stores can fall between them: the thief loads
    [top] when [i] of the stores are made, loads [bot] when [j] of them
    are made and, if it goes on, loads the element when [k] are made and
    makes its compare-and-swap when [m] are made; the owner makes the
    stores that are left after that.  The result is what the thief returns
    and the cells at the end. *)
Definition tryPopTop_during (d : deque) (sts : list store)
    (i j k m : nat) (fail_value : objptr) : objptr * deque :=
  let local_top := top (memory_after d sts i) in
  let local_bot := bot (memory_after d sts j) in
  if local_top <? local_bot then
    let elem := load_data (memory_after d sts k) (local_top mod CAP) in
    let '(swapped, d1) :=
      cas_top (memory_after d sts m) local_top (add64 local_top 1) in
    (if swapped then elem else fail_value,
     foldl apply_store d1 (drop m sts))
  else (fail_value, foldl apply_store d sts).

Definition ChaseLev_setDepth (d : deque) (desired_depth : Z) : result deque :=
  sts ← ChaseLev_setDepth_stores d desired_depth;
  Ok (foldl apply_store d sts).

(** The deque invariant of the data model: [top <= bot <= top + CAP], both
    indices are [uint64_t] values and the buffer has [CAP] slots. *)
Definition deque_inv (d : deque) : Prop :=
  0 <= top d /\ top d <= bot d /\ bot d < U64_MODULUS /\
  bot d <= top d + CAP /\ getSequenceLength d = CAP.

(** The owner pushes the elements of [vs] one after the other. *)
Definition push_all (d : deque) (vs : list objptr) : deque :=
  foldl (λ d v, snd (ChaseLev_pushBot d v)) d vs.

End ChaseLev.

(** * hierarchical-heap-collection.c: the forwarding engine *)

Module HHC.

Inductive GC_objectTypeTag :=
| NORMAL_TAG
| SEQUENCE_TAG
| STACK_TAG
| WEAK_TAG.

#[global] Instance GC_objectTypeTag_eq_dec : EqDecision GC_objectTypeTag.
Proof. solve_decision. Defined.

(** The two fields of [struct GC_stack] the collector touches. *)
Record GC_stack := mkStack {
  reserved : Z;
  used : Z
}.

(** What the collector reads and writes of a heap object, by field: the
    header word, the forwarding-pointer slot behind [getFwdPtrp] ([None]
    when [hasFwdPtr] is false), the sequence length and, for a stack, its
    [struct GC_stack]. *)
Record object := mkObject {
  header : Z;
  fwdPtr : option objptr;
  sequenceLength : Z;
  stack : GC_stack
}.

(** Modelled from the spec: the fields of a chunk that the forwarding
    engine uses; [levelHead] is the chunk list that owns the chunk. *)
Record HM_chunk := mkChunk {
  frontier : pointer;
  limit : pointer;
  mightContainMultipleObjects : bool;
  levelHead : option pointer
}.

(** Modelled from the spec: a chunk list (a level), with its chunks from
    [firstChunk] to [lastChunk]. *)
Record HM_chunkList := mkChunkList {
  chunkIds : list pointer;        (* firstChunk ... lastChunk *)
  level : Z;
  isInToSpace : bool;
  containingHH : Z
}.

(** Constants and helpers of the runtime that the functions below use and
    whose definitions live in other files (object model, platform). *)
Class Runtime := {
  GC_NORMAL_METADATA_SIZE : Z;
  GC_SEQUENCE_METADATA_SIZE : Z;
  GC_STACK_METADATA_SIZE : Z;
  OBJPTR_SIZE : Z;
  sizeof_GC_stack : Z;                 (* sizeof (struct GC_stack) *)
  sizeof_HM_chunk : Z;                 (* sizeof (struct HM_chunk) *)
  HM_BLOCK_SIZE : Z;
  GC_HEAP_LIMIT_SLOP : Z;
  COPY_OBJECT_HH_VALUE : Z;
  HM_HH_INVALID_LEVEL : Z;
  isObjptr : objptr -> bool;
  isObjptrInRootHeap : objptr -> bool;
  HM_getChunkOf : pointer -> pointer;
  (* tag, bytesNonObjptrs, numObjptrs *)
  splitHeader : Z -> GC_objectTypeTag * Z * Z;
  sizeofSequenceNoMetaData : Z -> Z -> Z -> Z;
  sizeofStackShrinkReserved : GC_stack -> bool -> Z;
  GC_memcpy : gmap pointer object -> pointer -> pointer -> Z ->
              gmap pointer object
}.

(** The part of [GC_state] and of the heap the forwarding engine works on.
    [freeChunks] is what the chunk allocator can still hand out: the
    address of each chunk and how many bytes it holds beyond a request. *)
Record GC_state := mkState {
  objects : gmap pointer object;
  chunks : gmap pointer HM_chunk;
  chunkLists : gmap pointer HM_chunkList;
  freeChunks : list (pointer * N);
  stackCurrent : pointer
}.

Record ForwardHHObjptrArgs := mkArgs {
  minLevel : Z;
  maxLevel : Z;
  toLevel : Z;
  toSpace : gmap Z pointer;       (* absent = NULL *)
  bytesCopied : Z;
  objectsCopied : Z;
  stacksCopied : Z;
  bytesMoved : Z;
  objectsMoved : Z
}.

Definition set_objects (s : GC_state) (o : gmap pointer object) : GC_state :=
  {| objects := o; chunks := chunks s; chunkLists := chunkLists s;
     freeChunks := freeChunks s; stackCurrent := stackCurrent s |}.
Definition set_chunks (s : GC_state) (c : gmap pointer HM_chunk) : GC_state :=
  {| objects := objects s; chunks := c; chunkLists := chunkLists s;
     freeChunks := freeChunks s; stackCurrent := stackCurrent s |}.
Definition set_chunkLists (s : GC_state) (l : gmap pointer HM_chunkList)
  : GC_state :=
  {| objects := objects s; chunks := chunks s; chunkLists := l;
     freeChunks := freeChunks s; stackCurrent := stackCurrent s |}.
Definition set_freeChunks (s : GC_state) (f : list (pointer * N)) : GC_state :=
  {| objects := objects s; chunks := chunks s; chunkLists := chunkLists s;
     freeChunks := f; stackCurrent := stackCurrent s |}.

(** [stack->reserved = r] on the stack object [o]. *)
Definition set_reserved (o : object) (r : Z) : object :=
  {| header := header o; fwdPtr := fwdPtr o;
     sequenceLength := sequenceLength o;
     stack := {| reserved := r; used := used (stack o) |} |}.
(** [*(getFwdPtrp(p)) = fwd] on the object [o]. *)
Definition set_fwdPtr (o : object) (fwd : objptr) : object :=
  {| header := header o; fwdPtr := Some fwd;
     sequenceLength := sequenceLength o; stack := stack o |}.

Definition set_levelHead (c : HM_chunk) (l : option pointer) : HM_chunk :=
  {| frontier := frontier c; limit := limit c;
     mightContainMultipleObjects := mightContainMultipleObjects c;
     levelHead := l |}.
Definition set_frontier (c : HM_chunk) (f : pointer) : HM_chunk :=
  {| frontier := f; limit := limit c;
     mightContainMultipleObjects := mightContainMultipleObjects c;
     levelHead := levelHead c |}.
Definition set_chunkIds (l : HM_chunkList) (ids : list pointer)
  : HM_chunkList :=
  {| chunkIds := ids; level := level l; isInToSpace := isInToSpace l;
     containingHH := containingHH l |}.
Definition set_isInToSpace (l : HM_chunkList) (b : bool) : HM_chunkList :=
  {| chunkIds := chunkIds l; level := level l; isInToSpace := b;
     containingHH := containingHH l |}.

(** ** Chunks and chunk lists

    The chunk allocator is a collaborator whose code is in other files.
    A chunk is owned by at most one chunk list (its level-list back
    reference) and chunks migrate between lists by unlink and append. *)

(** Modelled from the spec: [HM_getLevelHead], the chunk list that owns
    the chunk of [p] (with its address). *)
Definition HM_getLevelHead `{Runtime} (s : GC_state) (p : pointer)
  : result (pointer * HM_chunkList) :=
  c ← deref (chunks s !! HM_getChunkOf p);
  lh ← deref (levelHead c);
  l ← deref (chunkLists s !! lh);
  Ok (lh, l).

(** Modelled from the spec: [HM_getObjptrLevel] (and the level that
    [HM_getObjptrInfo] reports), the level of the list that owns the chunk
    of the object. *)
Definition HM_getObjptrLevel `{Runtime} (s : GC_state) (op : objptr)
  : result Z :=
  '(_, l) ← HM_getLevelHead s op; Ok (level l).

(** Modelled from the spec: [HM_isObjptrInToSpace], the [isInToSpace]
    flag of the list that owns the chunk of the object. *)
Definition HM_isObjptrInToSpace `{Runtime} (s : GC_state) (op : objptr)
  : result bool :=
  '(_, l) ← HM_getLevelHead s op; Ok (isInToSpace l).

(** Modelled from the spec: [HM_unlinkChunk] takes the chunk out of the
    list that owns it. *)
Definition HM_unlinkChunk (s : GC_state) (chunk : pointer) : result GC_state :=
  c ← deref (chunks s !! chunk);
  lh ← deref (levelHead c);
  l ← deref (chunkLists s !! lh);
  let l' := set_chunkIds l (filter (λ x, x ≠ chunk) (chunkIds l)) in
  Ok (set_chunks (set_chunkLists s (<[lh := l']> (chunkLists s)))
                 (<[chunk := set_levelHead c None]> (chunks s))).

(** Modelled from the spec: [HM_appendChunk] makes the chunk the last of
    the list, which now owns it. *)
Definition HM_appendChunk (s : GC_state) (list chunk : pointer)
  : result GC_state :=
  l ← deref (chunkLists s !! list);
  c ← deref (chunks s !! chunk);
  let l' := set_chunkIds l (chunkIds l ++ [chunk]) in
  Ok (set_chunks (set_chunkLists s (<[list := l']> (chunkLists s)))
                 (<[chunk := set_levelHead c (Some list)]> (chunks s))).

(** Modelled from the spec: [HM_allocateChunk (list, bytesRequested)]
    appends to the list a fresh chunk with room for at least
    [bytesRequested] bytes, in which several objects may be allocated; it
    yields NULL ([None]) when the allocator has no chunk left. *)
Definition HM_allocateChunk `{Runtime} (s : GC_state) (list : pointer)
    (bytesRequested : Z) : result (GC_state * option pointer) :=
  match freeChunks s with
  | [] => Ok (s, None)
  | (chunk, extra) :: rest =>
      l ← deref (chunkLists s !! list);
      let start := chunk + sizeof_HM_chunk in
      let c := {| frontier := start;
                  limit := start + bytesRequested + Z.of_N extra;
                  mightContainMultipleObjects := true;
                  levelHead := Some list |} in
      let l' := set_chunkIds l (chunkIds l ++ [chunk]) in
      Ok (set_freeChunks
            (set_chunks (set_chunkLists s (<[list := l']> (chunkLists s)))
                        (<[chunk := c]> (chunks s)))
            rest,
          Some chunk)
  end.

(** Modelled from the spec: [HM_newChunkList (hh, level)] creates an
    empty chunk list of that level, not in the to-space, at an address
    that is neither NULL nor that of a list of the heap. *)
Definition HM_newChunkList (s : GC_state) (hh : Z) (lvl : Z)
  : GC_state * pointer :=
  let list := fresh ({[NULL]} ∪ dom (chunkLists s)) in
  let l := {| chunkIds := []; level := lvl; isInToSpace := false;
              containingHH := hh |} in
  (set_chunkLists s (<[list := l]> (chunkLists s)), list).

(** Modelled from the spec: [HM_updateChunkValues (chunk, frontier)]
    records the new frontier of the chunk. *)
Definition HM_updateChunkValues (s : GC_state) (chunk : pointer)
    (newFrontier : pointer) : result GC_state :=
  c ← deref (chunks s !! chunk);
  Ok (set_chunks s (<[chunk := set_frontier c newFrontier]> (chunks s))).

(** ** computeObjectCopyParameters

    The three out-parameters are returned after the tag, in the order
    [objectSize], [copySize], [metaDataSize]. *)
Definition computeObjectCopyParameters `{Runtime} (s : GC_state) (p : pointer)
  : result (GC_state * (GC_objectTypeTag * Z * Z * Z)) :=
  o ← deref (objects s !! p);
  let '(tag, bytesNonObjptrs, numObjptrs) := splitHeader (header o) in
  '(s, metaDataSize, objectSize, copySize) ←
    (if bool_decide (tag = NORMAL_TAG) || bool_decide (tag = WEAK_TAG) then
       if bool_decide (tag = WEAK_TAG) then Die DieWeakTag
       else
         let metaDataSize := GC_NORMAL_METADATA_SIZE in
         let objectSize :=
           add64 bytesNonObjptrs (wrap64 (numObjptrs * OBJPTR_SIZE)) in
         let copySize := objectSize in
         Ok (s, metaDataSize, objectSize, copySize)
     else if bool_decide (tag = SEQUENCE_TAG) then
       let metaDataSize := GC_SEQUENCE_METADATA_SIZE in
       let objectSize :=
         sizeofSequenceNoMetaData (sequenceLength o) bytesNonObjptrs
                                  numObjptrs in
       let copySize := objectSize in
       Ok (s, metaDataSize, objectSize, copySize)
     else
       let metaDataSize := GC_STACK_METADATA_SIZE in
       let current := bool_decide (stackCurrent s = p) in
       let reservedNew := sizeofStackShrinkReserved (stack o) current in
       let s :=
         if reservedNew <? reserved (stack o)
         then set_objects s
                (<[p := set_reserved o reservedNew]> (objects s))
         else s in
       stk ← stack <$> deref (objects s !! p);
       let objectSize := add64 sizeof_GC_stack (reserved stk) in
       let copySize := add64 sizeof_GC_stack (used stk) in
       Ok (s, metaDataSize, objectSize, copySize));
  Ok (s, (tag, add64 objectSize metaDataSize, add64 copySize metaDataSize,
          metaDataSize)).

(** ** copyObject *)
Definition copyObject `{Runtime} (s : GC_state) (p : pointer)
    (objectSize copySize : Z) (tgtChunkList : pointer)
  : result (GC_state * pointer) :=
  l ← deref (chunkLists s !! tgtChunkList);
  (* get the chunk to allocate in *)
  chunk ← deref (last (chunkIds l));
  c ← deref (chunks s !! chunk);
  let frontier0 := frontier c in
  let limit0 := limit c in
  let mustExtend :=
    (wrap64 (limit0 - frontier0) <? objectSize) ||
    (chunk + HM_BLOCK_SIZE <=? frontier0) in
  '(s, chunk, frontier1) ←
    (if mustExtend then
       (* need to allocate a new chunk *)
       '(s', r) ← HM_allocateChunk s tgtChunkList objectSize;
       match r with
       | None => Die DieOutOfSpace
       | Some chunk' =>
           c' ← deref (chunks s' !! chunk');
           Ok (s', chunk', frontier c')
       end
     else Ok (s, chunk, frontier0));
  let s := set_objects s (GC_memcpy (objects s) p frontier1 copySize) in
  let newFrontier := frontier1 + objectSize in
  s ← HM_updateChunkValues s chunk newFrontier;
  s ← (if chunk + HM_BLOCK_SIZE <=? newFrontier then
         (* size is arbitrary; just need a new chunk *)
         '(s', r) ← HM_allocateChunk s tgtChunkList GC_HEAP_LIMIT_SLOP;
         match r with
         | None => Die DieOutOfSpace
         | Some _ => Ok s'
         end
       else Ok s);
  Ok (s, frontier1).

(** ** forwardHHObjptr *)

(** [while (hasFwdPtr(p)) { op = getFwdPtr(p); p = objptrToPointer(op); }].
    The loop runs at most [fuel] times around; a chain longer than that
    revisits an object and the C loop does not end. *)
Fixpoint chaseFwdPtr (fuel : nat) (s : GC_state) (op : objptr)
  : result objptr :=
  o ← deref (objects s !! op);
  match fwdPtr o with
  | None => Ok op
  | Some op' =>
      match fuel with
      | O => Diverge
      | S fuel' => chaseFwdPtr fuel' s op'
      end
  end.

Definition incr_stacksCopied (a : ForwardHHObjptrArgs) : ForwardHHObjptrArgs :=
  {| minLevel := minLevel a; maxLevel := maxLevel a; toLevel := toLevel a;
     toSpace := toSpace a; bytesCopied := bytesCopied a;
     objectsCopied := objectsCopied a;
     stacksCopied := add64 (stacksCopied a) 1;
     bytesMoved := bytesMoved a; objectsMoved := objectsMoved a |}.
Definition set_toSpace (a : ForwardHHObjptrArgs) (lvl : Z) (l : pointer)
  : ForwardHHObjptrArgs :=
  {| minLevel := minLevel a; maxLevel := maxLevel a; toLevel := toLevel a;
     toSpace := <[lvl := l]> (toSpace a); bytesCopied := bytesCopied a;
     objectsCopied := objectsCopied a; stacksCopied := stacksCopied a;
     bytesMoved := bytesMoved a; objectsMoved := objectsMoved a |}.
(** [args->bytesMoved += copyBytes; args->objectsMoved++]. *)
Definition account_moved (a : ForwardHHObjptrArgs) (copyBytes : Z)
  : ForwardHHObjptrArgs :=
  {| minLevel := minLevel a; maxLevel := maxLevel a; toLevel := toLevel a;
     toSpace := toSpace a; bytesCopied := bytesCopied a;
     objectsCopied := objectsCopied a; stacksCopied := stacksCopied a;
     bytesMoved := add64 (bytesMoved a) copyBytes;
     objectsMoved := add64 (objectsMoved a) 1 |}.
(** [args->bytesCopied += copyBytes; args->objectsCopied++]. *)
Definition account_copied (a : ForwardHHObjptrArgs) (copyBytes : Z)
  : ForwardHHObjptrArgs :=
  {| minLevel := minLevel a; maxLevel := maxLevel a; toLevel := toLevel a;
     toSpace := toSpace a; bytesCopied := add64 (bytesCopied a) copyBytes;
     objectsCopied := add64 (objectsCopied a) 1;
     stacksCopied := stacksCopied a;
     bytesMoved := bytesMoved a; objectsMoved := objectsMoved a |}.

(** The slot [opp] is an in-out parameter: the function receives [*opp] as
    [op] and the last component of its result is [*opp] on return. *)
Definition forwardHHObjptr `{Runtime} (s : GC_state)
    (args : ForwardHHObjptrArgs) (op : objptr)
  : result (GC_state * ForwardHHObjptrArgs * objptr) :=
  let opp := op in
  if negb (isObjptr op) || isObjptrInRootHeap op then
    (* does not point to an HH objptr, so not in scope for collection *)
    Ok (s, args, opp)
  else
    opInfo_level ← HM_getObjptrLevel s op;
    if maxLevel args <? opInfo_level then Die DieEntanglement
    else if (maxLevel args <? opInfo_level) ||
            (opInfo_level <? minLevel args) then
      Ok (s, args, opp)
    else
      op ← chaseFwdPtr (size (objects s)) s op;
      let p := op in
      lvl ← HM_getObjptrLevel s op;
      if lvl <? minLevel args then Ok (s, args, op)
      else
        inToSpace ← HM_isObjptrInToSpace s op;
        if (inToSpace : bool) then Ok (s, args, op)
        else
          (* forward the object *)
          '(s, (tag, objectBytes, copyBytes, metaDataBytes)) ←
            computeObjectCopyParameters s p;
          args ← match tag with
                 | STACK_TAG => Ok (incr_stacksCopied args)
                 | WEAK_TAG => Die DieWeakTag
                 | _ => Ok args
                 end;
          '(s, args, tgtChunkList) ←
            match toSpace args !! opInfo_level with
            | Some tgtChunkList => Ok (s, args, tgtChunkList)
            | None =>
                (* Level does not exist, so create it *)
                let '(s, tgtChunkList) :=
                  HM_newChunkList s COPY_OBJECT_HH_VALUE opInfo_level in
                '(s, r) ← HM_allocateChunk s tgtChunkList objectBytes;
                match r with
                | None => Die DieOutOfSpace
                | Some _ =>
                    l ← deref (chunkLists s !! tgtChunkList);
                    let s := set_chunkLists s
                               (<[tgtChunkList := set_isInToSpace l true]>
                                  (chunkLists s)) in
                    Ok (s, set_toSpace args opInfo_level tgtChunkList,
                        tgtChunkList)
                end
            end;
          c ← deref (chunks s !! HM_getChunkOf p);
          if negb (mightContainMultipleObjects c) then
            (* This chunk contains *only* this object, so no need to copy.
               Instead, just move the chunk. *)
            let chunk := HM_getChunkOf p in
            s ← HM_unlinkChunk s chunk;
            s ← HM_appendChunk s tgtChunkList chunk;
            '(s, r) ← HM_allocateChunk s tgtChunkList GC_HEAP_LIMIT_SLOP;
            match r with
            | None => Die DieOutOfSpace
            | Some _ => Ok (s, account_moved args copyBytes, opp)
            end
          else
            '(s, copyPointer) ←
              copyObject s (p - metaDataBytes) objectBytes copyBytes
                         tgtChunkList;
            let args := account_copied args copyBytes in
            (* Store the forwarding pointer in the old object metadata. *)
            o ← deref (objects s !! p);
            let s := set_objects s
                       (<[p := set_fwdPtr o (copyPointer + metaDataBytes)]>
                          (objects s)) in
            (* use the forwarding pointer *)
            fwd ← deref (objects s !! p ≫= fwdPtr);
            Ok (s, args, fwd).

(** ** relocateObject *)
Definition relocateObject `{Runtime} (s : GC_state) (op : objptr)
    (tgtChunkList : pointer) (args : ForwardHHObjptrArgs)
  : result (GC_state * ForwardHHObjptrArgs * objptr) :=
  let p := op in
  (* compute object size and bytes to be copied *)
  '(s, (_, objectBytes, copyBytes, metaDataBytes)) ←
    computeObjectCopyParameters s p;
  c ← deref (chunks s !! HM_getChunkOf p);
  if negb (mightContainMultipleObjects c) then
    (* This chunk contains *only* this object, so no need to copy.
       Instead, just move the chunk. *)
    let chunk := HM_getChunkOf p in
    s ← HM_unlinkChunk s chunk;
    s ← HM_appendChunk s tgtChunkList chunk;
    '(s, r) ← HM_allocateChunk s tgtChunkList GC_HEAP_LIMIT_SLOP;
    match r with
    | None => Die DieOutOfSpace
    | Some _ => Ok (s, account_moved args copyBytes, op)
    end
  else
    '(s, copyPointer) ←
      copyObject s (p - metaDataBytes) objectBytes copyBytes tgtChunkList;
    (* Store the forwarding pointer in the old object metadata. *)
    o ← deref (objects s !! p);
    let s := set_objects s
               (<[p := set_fwdPtr o (copyPointer + metaDataBytes)]>
                  (objects s)) in
    let args := account_copied args copyBytes in
    (* use the forwarding pointer *)
    fwd ← deref (objects s !! p ≫= fwdPtr);
    Ok (s, args, fwd).

(** ** Stacks seen by computeObjectCopyParameters *)

(** The sizes involved are [size_t] values: none is negative. *)
Definition stack_sizes_nonneg `{Runtime} (stk : GC_stack) (current : bool)
  : Prop :=
  0 <= GC_STACK_METADATA_SIZE /\ 0 <= sizeof_GC_stack /\
  0 <= used stk /\ 0 <= reserved stk /\
  0 <= sizeofStackShrinkReserved stk current.

(** The stack object, with its metadata, [struct GC_stack] and [reserved]
    bytes, lies within the address space. *)
Definition stack_fits `{Runtime} (stk : GC_stack) : Prop :=
  GC_STACK_METADATA_SIZE + sizeof_GC_stack + reserved stk < U64_MODULUS /\
  GC_STACK_METADATA_SIZE + sizeof_GC_stack + used stk < U64_MODULUS.

(** What [computeObjectCopyParameters] leaves in [stack->reserved]. *)
Definition shrunk_reserved `{Runtime} (stk : GC_stack) (current : bool) : Z :=
  if sizeofStackShrinkReserved stk current <? reserved stk
  then sizeofStackShrinkReserved stk current
  else reserved stk.

(** The state after [computeObjectCopyParameters] on the stack [o] at
    [p]: only [stack->reserved] of that object may have changed. *)
Definition shrink_stack_at `{Runtime} (s : GC_state) (p : pointer)
    (o : object) : GC_state :=
  let current := bool_decide (stackCurrent s = p) in
  if sizeofStackShrinkReserved (stack o) current <? reserved (stack o)
  then set_objects s
         (<[p := set_reserved o
                   (sizeofStackShrinkReserved (stack o) current)]>
            (objects s))
  else s.

(** ** What the single-object-chunk path of forwardHHObjptr needs

    [target_ready s args lvl chunk]: either [args->toSpace[lvl]] is a chunk
    list of the to-space and the allocator has a chunk left, or there is no
    such list yet and the allocator has two chunks left (one for the new
    list, one to trail the moved chunk).  The chunks the allocator hands
    out are not [chunk], which is in use. *)
Definition target_ready (s : GC_state) (args : ForwardHHObjptrArgs)
    (lvl : Z) (chunk : pointer) : Prop :=
  match toSpace args !! lvl with
  | Some tgt =>
      (exists lt, chunkLists s !! tgt = Some lt /\ isInToSpace lt = true) /\
      exists a e rest, freeChunks s = (a, e) :: rest /\ a <> chunk
  | None =>
      exists a0 e0 a1 e1 rest,
        freeChunks s = (a0, e0) :: (a1, e1) :: rest /\
        a0 <> chunk /\ a1 <> chunk
  end.

End HHC.

(** * cheney-copy.c: weak fixup *)

Module Cheney.

(** [struct GC_weak]. *)
Record GC_weak := mkWeak {
  w_objptr : objptr;      (* w->objptr *)
  w_link : pointer        (* w->link *)
}.

(** Constants and helpers of the object model defined in other files. *)
Class ObjectModel := {
  GC_FORWARDED : Z;
  GC_WEAK_GONE_HEADER : Z;
  BOGUS_OBJPTR : objptr;
  offsetofWeak : Z;
  objptrToPointer : objptr -> pointer -> pointer
}.

(** The heap by field: [headers !! p] is the header word of the object at
    [p] ([getHeader (p)], written through [getHeaderp (p)]); [words !! p] is
    the first word of its body ([*(objptr* )p]); [weakStructs !! w] is the
    [struct GC_weak] at address [w]. *)
Record GC_state := mkState {
  headers : gmap pointer Z;
  words : gmap pointer objptr;
  weakStructs : gmap pointer GC_weak;
  heap_start : pointer;           (* s->heap->start *)
  weaks : pointer                 (* s->weaks *)
}.

Definition set_headers (s : GC_state) (h : gmap pointer Z) : GC_state :=
  {| headers := h; words := words s; weakStructs := weakStructs s;
     heap_start := heap_start s; weaks := weaks s |}.
Definition set_weakStructs (s : GC_state) (ws : gmap pointer GC_weak)
  : GC_state :=
  {| headers := headers s; words := words s; weakStructs := ws;
     heap_start := heap_start s; weaks := weaks s |}.
Definition set_weaks (s : GC_state) (w : pointer) : GC_state :=
  {| headers := headers s; words := words s; weakStructs := weakStructs s;
     heap_start := heap_start s; weaks := w |}.

(** [w->objptr = o]. *)
Definition store_w_objptr (s : GC_state) (w : pointer) (o : objptr)
  : result GC_state :=
  wk ← deref (weakStructs s !! w);
  Ok (set_weakStructs s
        (<[w := {| w_objptr := o; w_link := w_link wk |}]> (weakStructs s))).

(** The body of [for (w = s->weaks; w != NULL; w = w->link)], at most
    [fuel] times around. *)
Fixpoint updateWeaks_loop `{ObjectModel} (fuel : nat) (s : GC_state)
    (w : pointer) : result GC_state :=
  if bool_decide (w = NULL) then Ok s
  else
    match fuel with
    | O => Diverge
    | S fuel' =>
        wk ← deref (weakStructs s !! w);
        let p := objptrToPointer (w_objptr wk) (heap_start s) in
        hdr ← deref (headers s !! p);
        s ← (if bool_decide (GC_FORWARDED = hdr) then
               fwd ← deref (words s !! p);
               store_w_objptr s w fwd
             else
               let s := set_headers s
                          (<[w - offsetofWeak := GC_WEAK_GONE_HEADER]>
                             (headers s)) in
               store_w_objptr s w BOGUS_OBJPTR);
        next ← w_link <$> deref (weakStructs s !! w);
        updateWeaks_loop fuel' s next
    end.

(** A chain that is not cyclic has at most one node per [struct GC_weak]
    of the heap, so that many iterations are enough for the loop to end;
    with a cyclic chain the C loop does not end. *)
Definition updateWeaksForCheneyCopy `{ObjectModel} (s : GC_state)
  : result GC_state :=
  s ← updateWeaks_loop (size (weakStructs s)) s (weaks s);
  Ok (set_weaks s NULL).

(** [weak_chain s w ws]: following [link] from [w] visits exactly the
    weaks [ws], in this order, and then reaches [NULL]. *)
Inductive weak_chain (s : GC_state) : pointer -> list pointer -> Prop :=
| weak_chain_nil : weak_chain s NULL []
| weak_chain_cons w wk ws :
    w <> NULL ->
    weakStructs s !! w = Some wk ->
    weak_chain s (w_link wk) ws ->
    weak_chain s w (w :: ws).

(** The object a weak refers to: [objptrToPointer (w->objptr,
    s->heap->start)]. *)
Definition referent `{ObjectModel} (s : GC_state) (wk : GC_weak) : pointer :=
  objptrToPointer (w_objptr wk) (heap_start s).

(** The header of the referent of every weak in [ws] can be read, and so
    can the forwarding pointer of a forwarded referent. *)
Definition referents_readable `{ObjectModel} (s : GC_state)
    (ws : list pointer) : Prop :=
  forall w wk, w ∈ ws -> weakStructs s !! w = Some wk ->
    exists hdr, headers s !! referent s wk = Some hdr /\
                (hdr = GC_FORWARDED -> is_Some (words s !! referent s wk)).

(** No weak object of [ws] is itself a forwarded object. *)
Definition weaks_not_forwarded `{ObjectModel} (s : GC_state)
    (ws : list pointer) : Prop :=
  forall w, w ∈ ws -> headers s !! (w - offsetofWeak) <> Some GC_FORWARDED.

(** What the loop has done to the weak [w], whose [struct GC_weak] was
    [wk] in the state [t], once it has reached the state [t']. *)
Definition weak_fixed `{ObjectModel} (t t' : GC_state) (w : pointer) (wk : GC_weak) : Prop :=
  exists wk',
    weakStructs t' !! w = Some wk' /\
    (headers t !! referent t wk = Some GC_FORWARDED ->
       Some (w_objptr wk') = words t !! referent t wk) /\
    (headers t !! referent t wk <> Some GC_FORWARDED ->
       w_objptr wk' = BOGUS_OBJPTR /\
       headers t' !! (w - offsetofWeak) = Some GC_WEAK_GONE_HEADER).

(** The state after the loop body has run on the weak [w]: [w->objptr]
    is [v], and the header of the weak object is either untouched or
    [GC_WEAK_GONE_HEADER]. *)
Definition after_body `{ObjectModel} (t t1 : GC_state) (w : pointer) (wk : GC_weak)
    (v : objptr) : Prop :=
  weakStructs t1 =
    <[w := {| w_objptr := v; w_link := w_link wk |}]> (weakStructs t) /\
  words t1 = words t /\ heap_start t1 = heap_start t /\ weaks t1 = weaks t /\
  (headers t1 = headers t \/
   headers t1 = <[w - offsetofWeak := GC_WEAK_GONE_HEADER]> (headers t)).

End Cheney.

(** * local-heap.c: HM_ensureHierarchicalHeapAssurances *)

Module LocalHeap.

Record HM_HierarchicalHeap := mkHH {
  level : Z;
  lastAllocatedChunk : pointer;               (* NULL when there is none *)
  bytesAllocatedSinceLastCollection : Z
}.

(** The fields of [GC_state] the function reads and writes itself, the
    current hierarchical heap ([HM_HH_getCurrent (s)]) and, in [rest], all
    the state behind the functions it calls. *)
Record GC_state {world : Type} := mkState {
  frontier : pointer;
  limitPlusSlop : pointer;
  limit : pointer;
  hh : HM_HierarchicalHeap;
  rest : world
}.
Arguments GC_state : clear implicits.
Arguments mkState {world}.

(** A call of [HM_HHC_collectLocal] with its actual arguments.  The
    function is defined with the parameters [(uint32_t desiredScope, bool
    force)]; [force := None] records a call that supplies no second
    argument. *)
Inductive call :=
| Call_HM_HHC_collectLocal (desiredScope : Z) (force : option bool).

(** The functions and constants of other files used by
    [HM_ensureHierarchicalHeapAssurances], as operations on the state. *)
Class Collaborators := {
  world : Type;
  GC_HEAP_LIMIT_SLOP : Z;
  HM_BLOCK_SIZE : Z;
  invariantForMutatorStack : GC_state world -> bool;
  getStackCurrent : GC_state world -> pointer;
  sizeofStackGrowReserved : GC_state world -> pointer -> Z;
  sizeofStackWithMetaData : GC_state world -> Z -> Z;
  HM_HH_updateValues : GC_state world -> pointer -> GC_state world;
  HM_HH_desiredCollectionScope : GC_state world -> Z;
  (* the effect of the collector on the state, given its arguments *)
  HM_HHC_collectLocal :
    Z -> option bool -> GC_state world -> result (GC_state world);
  HM_getChunkFrontier : GC_state world -> pointer -> pointer;
  HM_getChunkLimit : GC_state world -> pointer -> pointer;
  setGCStateCurrentThreadAndStack : GC_state world -> GC_state world;
  (* HM_getChunkListLevel (HM_getLevelHead (chunk)) *)
  levelOfChunk : GC_state world -> pointer -> Z;
  HM_HH_extend : GC_state world -> Z -> GC_state world * bool;
  HM_HH_getFrontier : GC_state world -> pointer;
  HM_HH_getLimit : GC_state world -> pointer;
  growStackCurrent : GC_state world -> result (GC_state world)
}.

Section Ensure.
Context `{Collaborators}.

Definition set_hh (s : GC_state world) (h : HM_HierarchicalHeap)
  : GC_state world :=
  {| frontier := frontier s; limitPlusSlop := limitPlusSlop s;
     limit := limit s; hh := h; rest := rest s |}.

(** [s->frontier = f; s->limitPlusSlop = lps;
     s->limit = s->limitPlusSlop - GC_HEAP_LIMIT_SLOP]. *)
Definition publish (s : GC_state world) (f lps : pointer) : GC_state world :=
  {| frontier := f; limitPlusSlop := lps; limit := lps - GC_HEAP_LIMIT_SLOP;
     hh := hh s; rest := rest s |}.

(** [s->frontier = NULL; s->limitPlusSlop = NULL; s->limit = NULL]. *)
Definition publish_null (s : GC_state world) : GC_state world :=
  {| frontier := NULL; limitPlusSlop := NULL; limit := NULL;
     hh := hh s; rest := rest s |}.

(** The condition shared by the two "must the heap be extended" tests. *)
Definition mustExtend (s : GC_state world) (ensureCurrentLevel : bool)
    (bytes : Z) : bool :=
  bool_decide (NULL = lastAllocatedChunk (hh s)) ||
  (ensureCurrentLevel &&
     negb (levelOfChunk s (lastAllocatedChunk (hh s)) =? level (hh s))) ||
  (lastAllocatedChunk (hh s) + HM_BLOCK_SIZE <=?
     HM_getChunkFrontier s (lastAllocatedChunk (hh s))) ||
  (sub64 (limitPlusSlop s) (frontier s) <? bytes).

Definition extend_and_publish (s : GC_state world) (bytes : Z)
  : result (GC_state world) :=
  let '(s, ok) := HM_HH_extend s bytes in
  if negb ok then Die DieOutOfSpace
  else Ok (publish s (HM_HH_getFrontier s) (HM_HH_getLimit s)).

(** Lines 80-123: the collection, when it is decided. *)
Definition collect (s : GC_state world) (desiredScope : Z)
  : result (GC_state world) :=
  (* too much allocated, so let's collect *)
  s ← HM_HHC_collectLocal desiredScope None s;
  let s := set_hh s {| level := level (hh s);
                       lastAllocatedChunk := lastAllocatedChunk (hh s);
                       bytesAllocatedSinceLastCollection := 0 |} in
  let s :=
    if bool_decide (NULL = lastAllocatedChunk (hh s)) then
      (* collected everything! *)
      publish_null s
    else
      publish s (HM_getChunkFrontier s (lastAllocatedChunk (hh s)))
                (HM_getChunkLimit s (lastAllocatedChunk (hh s))) in
  (* Thread/stack may have been copied during GC, so need to update *)
  Ok (setGCStateCurrentThreadAndStack s).

(** Lines 125-170: stack growth and heap extension. *)
Definition grow_and_extend (s : GC_state world) (growStack : bool)
    (stackBytes bytesRequested : Z) (ensureCurrentLevel : bool)
  : result (GC_state world) :=
  s ← (if growStack then
         s ← (if mustExtend s ensureCurrentLevel stackBytes
              then extend_and_publish s stackBytes
              else Ok s);
         s ← growStackCurrent s;
         let s := HM_HH_updateValues s (frontier s) in
         Ok (setGCStateCurrentThreadAndStack s)
       else Ok s);
  if mustExtend s ensureCurrentLevel bytesRequested
  then extend_and_publish s bytesRequested
  else Ok s.

(** The result pairs the calls of the local collector the function made
    with the outcome of the function. *)
Definition HM_ensureHierarchicalHeapAssurances (s : GC_state world)
    (forceGC : bool) (bytesRequested : Z) (ensureCurrentLevel : bool)
  : list call * result (GC_state world) :=
  let '(growStack, stackBytes) :=
    if negb (invariantForMutatorStack s) then
      (* need to grow stack *)
      (true,
       sizeofStackWithMetaData s
         (sizeofStackGrowReserved s (getStackCurrent s)))
    else (false, 0) in
  (* update hh before modification *)
  let s := HM_HH_updateValues s (frontier s) in
  if limitPlusSlop s <? frontier s then ([], Die DieLimitBelowFrontier)
  else
    let desiredScope := HM_HH_desiredCollectionScope s in
    if forceGC || (desiredScope <=? level (hh s)) then
      ([Call_HM_HHC_collectLocal desiredScope None],
       s ← collect s desiredScope;
       grow_and_extend s growStack stackBytes bytesRequested
                       ensureCurrentLevel)
    else
      ([],
       grow_and_extend s growStack stackBytes bytesRequested
                       ensureCurrentLevel).

End Ensure.

End LocalHeap.

(** * The deque as a sequence *)

Module DequeContents.
Import ChaseLev.

(** The elements the deque holds, from the top (the thieves' end) to the
    bottom (the owner's end): the slots [i mod CAP] for [top <= i < bot]. *)
Definition contents (d : deque) : list objptr :=
  (λ i, load_data d (i mod CAP)) <$> seqZ (top d) (bot d - top d).

End DequeContents.

(** * local-scope.c *)

Module LocalScope.
Import ChaseLev.

(** [BOGUS_OBJPTR], defined in another file, is a parameter. *)
Definition tryClaimLocalScope (BOGUS_OBJPTR : objptr) (d : deque)
  : bool * deque :=
  let '(result, d) := ChaseLev_tryPopBot d BOGUS_OBJPTR in
  (negb (result =? BOGUS_OBJPTR), d).

Definition releaseLocalScope (d : deque) (originalBot : Z) : deque :=
  store_bot d originalBot.

Definition pollCurrentLocalScope (d : deque) : Z := bot d.

End LocalScope.

(** * hierarchical-heap-collection.c: the frame of HM_HHC_collectLocal *)

Module CollectLocal.
Import ChaseLev LocalScope.

Definition U32_MODULUS : Z := 2 ^ 32.

(** Conversion to [uint32_t]. *)
Definition wrap32 (z : Z) : Z := z mod U32_MODULUS.

Inductive HHCollectionLevel := NONE | LOCAL | SUPERLOCAL.

#[global] Instance HHCollectionLevel_eq_dec : EqDecision HHCollectionLevel.
Proof. solve_decision. Defined.

(** What [HM_HHC_collectLocal] reads of [GC_state] and of the current
    thread before and after the collection proper; [world] is the rest of
    the state, on which the collection proper works. *)
Record GC_state {world : Type} := mkState {
  hhCollectionLevel : HHCollectionLevel;   (* s->controls->hhCollectionLevel *)
  minLocalLevel : Z;               (* s->controls->hhConfig.minLocalLevel *)
  wsQueueTop : objptr;
  wsQueueBot : objptr;
  wsQueue : deque;                 (* the cells behind the three objptrs *)
  currentDepth : Z;                (* thread->currentDepth *)
  rest : world
}.
Arguments GC_state : clear implicits.
Arguments mkState {world}.

Definition set_wsQueue {world} (s : GC_state world) (q : deque)
  : GC_state world :=
  {| hhCollectionLevel := hhCollectionLevel s;
     minLocalLevel := minLocalLevel s;
     wsQueueTop := wsQueueTop s; wsQueueBot := wsQueueBot s;
     wsQueue := q; currentDepth := currentDepth s; rest := rest s |}.

(** Lines 111-115: claim as many levels as we can, but only as far as
    desired.  The loop goes around at most [fuel] times. *)
Fixpoint claimLevels (BOGUS_OBJPTR : objptr) (fuel : nat)
    (minLevel desiredScope minLocal : Z) (q : deque) : result (Z * deque) :=
  if (desiredScope <? minLevel) && (minLocal <? minLevel) then
    match fuel with
    | O => Diverge
    | S fuel' =>
        let '(claimed, q) := tryClaimLocalScope BOGUS_OBJPTR q in
        if claimed
        then claimLevels BOGUS_OBJPTR fuel' (wrap32 (minLevel - 1))
                         desiredScope minLocal q
        else Ok (minLevel, q)
    end
  else Ok (minLevel, q).

(** [HM_HHC_collectLocal].  The collection proper (lines 130-489, from
    "START" to "END", less the adjustment of [minLevel] for SUPERLOCAL),
    whose collaborators are in other files, is the parameter
    [collection]; it receives [forwardHHObjptrArgs.minLevel] and
    [forwardHHObjptrArgs.maxLevel].  The first component of the result
    lists the level ranges [collection] was run on. *)
Definition HM_HHC_collectLocal {world}
    (collection : Z -> Z -> GC_state world -> result (GC_state world))
    (BOGUS_OBJPTR : objptr)
    (s : GC_state world) (desiredScope : Z) (force : bool)
  : list (Z * Z) * result (GC_state world) :=
  if bool_decide (NONE = hhCollectionLevel s) then
    (* collection disabled *)
    ([], Ok s)
  else if bool_decide (wsQueueTop s = BOGUS_OBJPTR) ||
          bool_decide (wsQueueBot s = BOGUS_OBJPTR) then
    (* deque not registered yet *)
    ([], Ok s)
  else if negb force && (currentDepth s <=? 1) then
    (* sequential section *)
    ([], Ok s)
  else
    let originalLocalScope := wrap32 (pollCurrentLocalScope (wsQueue s)) in
    match claimLevels BOGUS_OBJPTR (Z.to_nat originalLocalScope)
                      originalLocalScope desiredScope (minLocalLevel s)
                      (wsQueue s) with
    | Ok (minLevel, q) =>
        let s := set_wsQueue s q in
        let unlock_local_scope_and_return (s : GC_state world) :=
          set_wsQueue s (releaseLocalScope (wsQueue s) originalLocalScope) in
        if minLevel =? 0 then
          (* collection that includes root heap *)
          ([], Ok (unlock_local_scope_and_return s))
        else if currentDepth s <? minLevel then
          ([], Ok (unlock_local_scope_and_return s))
        else
          let args_minLevel :=
            if bool_decide (SUPERLOCAL = hhCollectionLevel s)
            then currentDepth s else minLevel in
          let args_maxLevel := currentDepth s in
          ([(args_minLevel, args_maxLevel)],
           s ← collection args_minLevel args_maxLevel s;
           Ok (unlock_local_scope_and_return s))
    | Die f => ([], Die f)
    | Undefined => ([], Undefined)
    | Diverge => ([], Diverge)
    end.

End CollectLocal.

(** * hierarchical-heap-collection.c: the scan of the to-space

    Lines 316-330 of [HM_HHC_collectLocal].  The to-space array, the chunk
    lists and [HM_forwardHHObjptrsInChunkList], which scans the objects of
    a list from its first chunk on with [forwardHHObjptr], are those of the
    state [world] of the collection. *)

Module CollectScan.
Import CollectLocal.

Section Scan.
Context {world : Type}.
(* toSpace[depth]; None is NULL *)
Context (toSpace : world -> Z -> option pointer).
(* toSpaceLevel->firstChunk; None is NULL *)
Context (firstChunk : world -> pointer -> option pointer).
Context (HM_forwardHHObjptrsInChunkList : pointer -> world -> result world).

(** The body of the loop once [depth] is decremented. *)
Definition scanLevel (depth : Z) (w : world) : result world :=
  match toSpace w depth with
  | Some toSpaceLevel =>
      match firstChunk w toSpaceLevel with
      | Some chunk => HM_forwardHHObjptrsInChunkList chunk w
      | None => Ok w
      end
  | None => Ok w
  end.

(** [while (depth > forwardHHObjptrArgs.minLevel) { depth--; ... }], with
    [depth] a [uint32_t]. *)
Fixpoint scanLoop (fuel : nat) (depth minLevel : Z) (w : world)
  : result world :=
  if minLevel <? depth then
    match fuel with
    | O => Diverge
    | S fuel' =>
        let depth := wrap32 (depth - 1) in
        w ← scanLevel depth w;
        scanLoop fuel' depth minLevel w
    end
  else Ok w.

(** The loop from [uint32_t depth = thread->currentDepth+1]; it goes
    around at most [depth] times. *)
Definition scanToSpace (currentDepth minLevel : Z) (w : world)
  : result world :=
  (* off-by-one to prevent underflow *)
  let depth := wrap32 (currentDepth + 1) in
  scanLoop (Z.to_nat depth) depth minLevel w.

(** Scanning the given levels one after the other, up to the first one
    whose scan aborts. *)
Fixpoint visitLevels (levels : list Z) (w : world) : result world :=
  match levels with
  | [] => Ok w
  | depth :: levels => w ← scanLevel depth w; visitLevels levels w
  end.

End Scan.

End CollectScan.

(** * init-world.c *)

Module InitWorld.

(** The ways the functions of this file end: they return, or abort the
    process, or store outside the array of globals. *)
Inductive abort :=
| RanOutOfSpace          (* "Ran out of space for Hierarchical Heap!" *)
| UnknownElementSize (elementSize : Z).
                         (* "unknown element size in vectorInit: ..." *)

Inductive outcome (A : Type) :=
| Returns (a : A)
| Aborts (cause : abort)
| OutOfBounds.
Arguments Returns {A} a.
Arguments Aborts {A} cause.
Arguments OutOfBounds {A}.

#[global] Instance outcome_ret : MRet outcome := λ A a, Returns a.
#[global] Instance outcome_bind : MBind outcome := λ A B f m,
  match m with
  | Returns a => f a
  | Aborts cause => Aborts cause
  | OutOfBounds => OutOfBounds
  end.

(** [struct GC_vectorInit]; [words] is the address of the initial
    contents.  The sizes are read as [size_t] values. *)
Record GC_vectorInit := mkVectorInit {
  elementSize : Z;
  length : Z;
  globalIndex : Z;
  words : pointer
}.

(** The stores into the heap that [initVectors] makes. *)
Inductive heapStore :=
| StoreSequenceCounter (p : pointer) (v : Z)
    (* *((GC_sequenceCounter* )(p)) = v *)
| StoreSequenceLength (p : pointer) (v : Z)
    (* *((GC_sequenceLength* )(p)) = v *)
| StoreHeader (p : pointer) (v : Z)
    (* *((GC_header* )(p)) = v *)
| StoreBytes (dst src : pointer) (n : Z).
    (* memcpy (dst, src, n) *)

#[global] Instance heapStore_eq_dec : EqDecision heapStore.
Proof. solve_decision. Defined.

(** The fields of [GC_state] the functions of the file use themselves;
    [stores] is the list of the stores made into the heap, oldest first;
    [rest] is the state behind the functions of other files, among them the
    hierarchical heap [hh]. *)
Record GC_state {world : Type} := mkState {
  frontier : pointer;
  limitPlusSlop : pointer;
  limit : pointer;
  alignment : Z;
  (* s->globals[0 .. globalsLength - 1] *)
  globals : list objptr;
  (* s->vectorInits[0 .. vectorInitsLength - 1] *)
  vectorInits : list GC_vectorInit;
  stores : list heapStore;
  rest : world
}.
Arguments GC_state : clear implicits.
Arguments mkState {world}.

(** Constants and functions of other files. *)
Class Collaborators := {
  world : Type;
  GC_SEQUENCE_METADATA_SIZE : Z;
  GC_SEQUENCE_COUNTER_SIZE : Z;
  GC_SEQUENCE_LENGTH_SIZE : Z;
  GC_HEADER_SIZE : Z;
  GC_HEAP_LIMIT_SLOP : Z;
  WORD8_VECTOR_TYPE_INDEX : Z;
  WORD16_VECTOR_TYPE_INDEX : Z;
  WORD32_VECTOR_TYPE_INDEX : Z;
  WORD64_VECTOR_TYPE_INDEX : Z;
  align : Z -> Z -> Z;
  buildHeaderFromTypeIndex : Z -> Z;
  pointerToObjptr : pointer -> pointer -> objptr;
  HM_getChunkOf : pointer -> pointer;
  inFirstBlockOfChunk : pointer -> pointer -> bool;
  HM_HH_updateValues : world -> pointer -> world;
  HM_HH_extend : world -> Z -> world * bool;
  HM_HH_getFrontier : world -> pointer;
  HM_HH_getLimit : world -> pointer
}.

Section Init.
Context `{Collaborators}.

Definition sizeofInitialBytesLive (s : GC_state world) : Z :=
  foldl (λ total v,
           let dataBytes := wrap64 (elementSize v * length v) in
           add64 total
                 (align (add64 GC_SEQUENCE_METADATA_SIZE dataBytes)
                        (alignment s)))
        0 (vectorInits s).

Definition set_rest (s : GC_state world) (w : world) : GC_state world :=
  {| frontier := frontier s; limitPlusSlop := limitPlusSlop s;
     limit := limit s; alignment := alignment s; globals := globals s;
     vectorInits := vectorInits s;
     stores := stores s; rest := w |}.

Definition set_frontier (s : GC_state world) (f : pointer) : GC_state world :=
  {| frontier := f; limitPlusSlop := limitPlusSlop s;
     limit := limit s; alignment := alignment s; globals := globals s;
     vectorInits := vectorInits s;
     stores := stores s; rest := rest s |}.

Definition set_globals (s : GC_state world) (g : list objptr)
  : GC_state world :=
  {| frontier := frontier s; limitPlusSlop := limitPlusSlop s;
     limit := limit s; alignment := alignment s; globals := g;
     vectorInits := vectorInits s;
     stores := stores s; rest := rest s |}.

(** One more store into the heap. *)
Definition store (s : GC_state world) (st : heapStore) : GC_state world :=
  {| frontier := frontier s; limitPlusSlop := limitPlusSlop s;
     limit := limit s; alignment := alignment s; globals := globals s;
     vectorInits := vectorInits s;
     stores := stores s ++ [st]; rest := rest s |}.

(** [HM_HH_updateValues (hh, frontier); if (!HM_HH_extend (hh, bytes)) DIE;
     s->frontier = HM_HH_getFrontier (hh);
     s->limitPlusSlop = HM_HH_getLimit (hh);
     s->limit = s->limitPlusSlop - GC_HEAP_LIMIT_SLOP]. *)
Definition extend (s : GC_state world) (frontier0 : pointer) (bytes : Z)
  : outcome (GC_state world) :=
  let w := HM_HH_updateValues (rest s) frontier0 in
  let '(w, ok) := HM_HH_extend w bytes in
  if negb ok then Aborts RanOutOfSpace
  else
    Returns
       {| frontier := HM_HH_getFrontier w;
          limitPlusSlop := HM_HH_getLimit w;
          limit := HM_HH_getLimit w - GC_HEAP_LIMIT_SLOP;
          alignment := alignment s; globals := globals s;
          vectorInits := vectorInits s;
          stores := stores s; rest := w |}.

(** [s->globals[i] = v]; the array has [globalsLength] elements. *)
Definition store_global (s : GC_state world) (i : Z) (v : objptr)
  : outcome (GC_state world) :=
  if (0 <=? i) && (i <? Z.of_nat (List.length (globals s))) then
    Returns (set_globals s (<[Z.to_nat i := v]> (globals s)))
  else OutOfBounds.

(** The local variables of [initVectors] that live across the loop. *)
Record locals := mkLocals {
  l_frontier : pointer;
  l_limit : pointer;
  l_currentChunk : pointer
}.

(** The body of the loop of [initVectors] for the vector [v]. *)
Definition initVector (v : GC_vectorInit) (s : GC_state world) (l : locals)
  : outcome (GC_state world * locals) :=
  let elementSize := elementSize v in
  let dataBytes := wrap64 (elementSize * length v) in
  let objectSize :=
    align (add64 GC_SEQUENCE_METADATA_SIZE dataBytes) (alignment s) in
  (* Extend with a new chunk, if there is not enough free space or if we
     have crossed a block boundary. *)
  '(s, l) ←
    (if (wrap64 (l_limit l - l_frontier l) <? objectSize) ||
        negb (inFirstBlockOfChunk (l_currentChunk l) (l_frontier l))
     then
       s ← extend s (l_frontier l) objectSize;
       Returns (s, {| l_frontier := frontier s; l_limit := limitPlusSlop s;
                      l_currentChunk := HM_getChunkOf (frontier s) |})
     else Returns (s, l));
  let frontier := l_frontier l in
  let s := store s (StoreSequenceCounter frontier 0) in
  let frontier := frontier + GC_SEQUENCE_COUNTER_SIZE in
  let s := store s (StoreSequenceLength frontier (length v)) in
  let frontier := frontier + GC_SEQUENCE_LENGTH_SIZE in
  typeIndex ←
    (if elementSize =? 1 then Returns WORD8_VECTOR_TYPE_INDEX
     else if elementSize =? 2 then Returns WORD16_VECTOR_TYPE_INDEX
     else if elementSize =? 4 then Returns WORD32_VECTOR_TYPE_INDEX
     else if elementSize =? 8 then Returns WORD64_VECTOR_TYPE_INDEX
     else Aborts (UnknownElementSize elementSize));
  let s :=
    store s (StoreHeader frontier (buildHeaderFromTypeIndex typeIndex)) in
  let frontier := frontier + GC_HEADER_SIZE in
  s ← store_global s (globalIndex v) (pointerToObjptr frontier NULL);
  let s := store s (StoreBytes frontier (words v) dataBytes) in
  let frontier := frontier + sub64 objectSize GC_SEQUENCE_METADATA_SIZE in
  Returns (s, {| l_frontier := frontier; l_limit := l_limit l;
                 l_currentChunk := l_currentChunk l |}).

(** [for (i = 0; i < s->vectorInitsLength; i++)]. *)
Fixpoint initVectors_loop (inits : list GC_vectorInit) (s : GC_state world)
    (l : locals) : outcome (GC_state world * locals) :=
  match inits with
  | [] => Returns (s, l)
  | v :: inits =>
      '(s, l) ← initVector v s l;
      initVectors_loop inits s l
  end.

Definition initVectors (s : GC_state world) : outcome (GC_state world) :=
  let l := {| l_frontier := frontier s; l_limit := limitPlusSlop s;
              l_currentChunk := HM_getChunkOf (frontier s) |} in
  '(s, l) ← initVectors_loop (vectorInits s) s l;
  let s := set_frontier s (l_frontier l) in
  (* If the last allocation passed a block boundary, we need to extend to
     have a valid frontier. Extending with GC_HEAP_LIMIT_SLOP is
     arbitrary. *)
  if negb (inFirstBlockOfChunk (l_currentChunk l) (l_frontier l)) then
    extend s (l_frontier l) GC_HEAP_LIMIT_SLOP
  else Returns s.

(** The stores that lay out the vector [v] from the address [f] on. *)
Definition vectorStores (v : GC_vectorInit) (f : pointer) : list heapStore :=
  [ StoreSequenceCounter f 0;
    StoreSequenceLength (f + GC_SEQUENCE_COUNTER_SIZE) (length v);
    StoreHeader (f + GC_SEQUENCE_COUNTER_SIZE + GC_SEQUENCE_LENGTH_SIZE)
      (buildHeaderFromTypeIndex
         (if elementSize v =? 1 then WORD8_VECTOR_TYPE_INDEX
          else if elementSize v =? 2 then WORD16_VECTOR_TYPE_INDEX
          else if elementSize v =? 4 then WORD32_VECTOR_TYPE_INDEX
          else WORD64_VECTOR_TYPE_INDEX));
    StoreBytes (f + GC_SEQUENCE_METADATA_SIZE) (words v)
               (elementSize v * length v) ].

(** The stores that lay out the vectors [inits] back to back from [f]
    on, and the globals after each vector has been stored in its own. *)
Fixpoint laidOut (a : Z) (inits : list GC_vectorInit) (f : pointer)
  : list heapStore :=
  match inits with
  | [] => []
  | v :: inits =>
      vectorStores v f ++
      laidOut a inits
        (f + align (GC_SEQUENCE_METADATA_SIZE + elementSize v * length v) a)
  end.

Fixpoint globalsSet (a : Z) (inits : list GC_vectorInit) (f : pointer)
    (g : list objptr) : list objptr :=
  match inits with
  | [] => g
  | v :: inits =>
      globalsSet a inits
        (f + align (GC_SEQUENCE_METADATA_SIZE + elementSize v * length v) a)
        (<[Z.to_nat (globalIndex v) :=
             pointerToObjptr (f + GC_SEQUENCE_METADATA_SIZE) NULL]> g)
  end.

(** What the vectors [inits] take when they are laid out back to back,
    without the wrap-around of [size_t]. *)
Definition bytesOf (a : Z) (inits : list GC_vectorInit) : Z :=
  foldr (λ v total,
           align (GC_SEQUENCE_METADATA_SIZE + elementSize v * length v) a
           + total)
        0 inits.

(** The vectors can be laid out from [f] on in the chunk of [f], whose
    limit is [lim]: sizes are sound, every vector has a known element
    size and a global to be stored in, and none reaches the limit or leaves
    the first block of the chunk. *)
Fixpoint fit (a : Z) (chunk lim : pointer) (inits : list GC_vectorInit)
    (nglobals : nat) (f : pointer) : Prop :=
  match inits with
  | [] => True
  | v :: inits =>
      let objectSize :=
        align (GC_SEQUENCE_METADATA_SIZE + elementSize v * length v) a in
      (elementSize v = 1 \/ elementSize v = 2 \/ elementSize v = 4 \/
       elementSize v = 8) /\
      0 <= length v /\
      GC_SEQUENCE_METADATA_SIZE + elementSize v * length v < U64_MODULUS /\
      GC_SEQUENCE_METADATA_SIZE <= objectSize < U64_MODULUS /\
      0 <= globalIndex v < Z.of_nat nglobals /\
      f + objectSize <= lim /\
      inFirstBlockOfChunk chunk f = true /\
      fit a chunk lim inits nglobals (f + objectSize)
  end.

End Init.

End InitWorld.

(** * Concrete instances

    A 64-bit configuration of the runtime and small heaps, on which the
    functions above can be run. *)

Module Example.

(** Headers carry the tag in their two low bits, then the number of
    bytes of non-pointer data and the number of pointers, 16 bits each.
    Chunks are aligned on blocks of 4096 bytes.  A stack is shrunk to half
    of what it reserves, but not below what it uses. *)
Definition runtime64 : HHC.Runtime := {|
  HHC.GC_NORMAL_METADATA_SIZE := 8;
  HHC.GC_SEQUENCE_METADATA_SIZE := 24;
  HHC.GC_STACK_METADATA_SIZE := 8;
  HHC.OBJPTR_SIZE := 8;
  HHC.sizeof_GC_stack := 24;
  HHC.sizeof_HM_chunk := 64;
  HHC.HM_BLOCK_SIZE := 4096;
  HHC.GC_HEAP_LIMIT_SLOP := 512;
  HHC.COPY_OBJECT_HH_VALUE := 2;
  HHC.HM_HH_INVALID_LEVEL := 2 ^ 32 - 1;
  HHC.isObjptr := fun op => op mod 4 =? 0;
  HHC.isObjptrInRootHeap := fun op => op <? 4096;
  HHC.HM_getChunkOf := fun p => p - p mod 4096;
  HHC.splitHeader := fun h =>
    (match h mod 4 with
     | 0 => HHC.NORMAL_TAG
     | 1 => HHC.SEQUENCE_TAG
     | 2 => HHC.STACK_TAG
     | _ => HHC.WEAK_TAG
     end,
     (h / 4) mod 2 ^ 16, (h / 2 ^ 18) mod 2 ^ 16);
  HHC.sizeofSequenceNoMetaData := fun len bnp np =>
    wrap64 (len * (bnp + np * 8));
  HHC.sizeofStackShrinkReserved := fun stk current =>
    Z.max (HHC.used stk) (HHC.reserved stk / 2);
  HHC.GC_memcpy := fun objs src dst n =>
    match objs !! (src + 8) with
    | Some o => <[dst + 8 := o]> objs
    | None => objs
    end
|}.

(** A heap with one object at [8264], alone in the chunk at [8192],
    which is the only chunk of the list [100] at level 2; the allocator has
    two chunks left. *)
Definition heap_with (o : HHC.object) : HHC.GC_state :=
  {| HHC.objects := {[ 8264 := o ]};
     HHC.chunks :=
       {[ 8192 := {| HHC.frontier := 8396; HHC.limit := 12288;
                     HHC.mightContainMultipleObjects := false;
                     HHC.levelHead := Some 100 |} ]};
     HHC.chunkLists :=
       {[ 100 := {| HHC.chunkIds := [8192]; HHC.level := 2;
                    HHC.isInToSpace := false; HHC.containingHH := 1 |} ]};
     HHC.freeChunks := [(16384, 0%N); (20480, 0%N)];
     HHC.stackCurrent := 0 |}.

(** A stack that uses 40 of its 100 reserved bytes. *)
Definition a_stack : HHC.object :=
  {| HHC.header := 2; HHC.fwdPtr := None; HHC.sequenceLength := 0;
     HHC.stack := {| HHC.reserved := 100; HHC.used := 40 |} |}.


(** A weak object. *)
Definition a_weak : HHC.object :=
  {| HHC.header := 3; HHC.fwdPtr := None; HHC.sequenceLength := 0;
     HHC.stack := {| HHC.reserved := 0; HHC.used := 0 |} |}.

(** The arguments of a collection of the levels 1 to 3 that has not
    forwarded anything yet. *)
Definition fresh_args : HHC.ForwardHHObjptrArgs :=
  {| HHC.minLevel := 1; HHC.maxLevel := 3;
     HHC.toLevel := 2 ^ 32 - 1; HHC.toSpace := ∅;
     HHC.bytesCopied := 0; HHC.objectsCopied := 0; HHC.stacksCopied := 0;
     HHC.bytesMoved := 0; HHC.objectsMoved := 0 |}.

(** The arguments of a collection that stops at level 1. *)
Definition shallow_args : HHC.ForwardHHObjptrArgs :=
  {| HHC.minLevel := 1; HHC.maxLevel := 1;
     HHC.toLevel := 2 ^ 32 - 1; HHC.toSpace := ∅;
     HHC.bytesCopied := 0; HHC.objectsCopied := 0; HHC.stacksCopied := 0;
     HHC.bytesMoved := 0; HHC.objectsMoved := 0 |}.

Definition objectModel64 : Cheney.ObjectModel := {|
  Cheney.GC_FORWARDED := 2 ^ 64 - 1;
  Cheney.GC_WEAK_GONE_HEADER := 7;
  Cheney.BOGUS_OBJPTR := 1;
  Cheney.offsetofWeak := 8;
  Cheney.objptrToPointer := fun o base => o
|}.

(** Two weaks, at [1000] and [2000]: the referent of the first has been
    forwarded to [7000], the referent of the second has not. *)
Definition two_weaks : Cheney.GC_state :=
  {| Cheney.headers :=
       {[ 5000 := 2 ^ 64 - 1; 6000 := 21; 992 := 13; 1992 := 13 ]};
     Cheney.words := {[ 5000 := 7000 ]};
     Cheney.weakStructs :=
       {[ 1000 := {| Cheney.w_objptr := 5000; Cheney.w_link := 2000 |};
          2000 := {| Cheney.w_objptr := 6000; Cheney.w_link := 0 |} ]};
     Cheney.heap_start := 4096;
     Cheney.weaks := 1000 |}.

End Example.

(** A worker at depth 3 whose deque holds, above the local scope 3,
    nothing, and below it the two elements of the indices 1 and 2; the
    collection proper is replaced by a function that does nothing. *)
Module ExampleScope.

Definition worker (level : CollectLocal.HHCollectionLevel)
  : CollectLocal.GC_state unit :=
  {| CollectLocal.hhCollectionLevel := level;
     CollectLocal.minLocalLevel := 1;
     CollectLocal.wsQueueTop := 4096;
     CollectLocal.wsQueueBot := 4104;
     CollectLocal.wsQueue := ChaseLev.mkDeque 1 3 (replicate 64 7);
     CollectLocal.currentDepth := 3;
     CollectLocal.rest := () |}.

Definition no_collection (lo hi : Z) (s : CollectLocal.GC_state unit)
  : result (CollectLocal.GC_state unit) := Ok s.

End ExampleScope.

(** A collection under way at level 2: the list [100] is the from-space
    with the chunk at [8192], the list [200] is the to-space with the chunk
    at [12288].  The object at [8264] has been copied to [12360]; the one at
    [8400] has not been forwarded yet. *)
Module ExampleForward.

(** A normal object with 16 bytes of data and no pointer. *)
Definition a_normal : HHC.object :=
  {| HHC.header := 64; HHC.fwdPtr := None; HHC.sequenceLength := 0;
     HHC.stack := {| HHC.reserved := 0; HHC.used := 0 |} |}.

Definition forwarded_to (q : objptr) : HHC.object :=
  {| HHC.header := 64; HHC.fwdPtr := Some q; HHC.sequenceLength := 0;
     HHC.stack := {| HHC.reserved := 0; HHC.used := 0 |} |}.

Definition to_space_chunk : HHC.HM_chunk :=
  {| HHC.frontier := 12376; HHC.limit := 16384;
     HHC.mightContainMultipleObjects := true;
     HHC.levelHead := Some 200 |}.

Definition to_space_list : HHC.HM_chunkList :=
  {| HHC.chunkIds := [12288]; HHC.level := 2;
     HHC.isInToSpace := true; HHC.containingHH := 2 |}.

Definition evacuating : HHC.GC_state :=
  {| HHC.objects :=
       {[ 8264 := forwarded_to 12360; 8400 := a_normal;
          12360 := a_normal ]};
     HHC.chunks :=
       {[ 8192 := {| HHC.frontier := 8416; HHC.limit := 12288;
                     HHC.mightContainMultipleObjects := true;
                     HHC.levelHead := Some 100 |};
          12288 := to_space_chunk ]};
     HHC.chunkLists :=
       {[ 100 := {| HHC.chunkIds := [8192]; HHC.level := 2;
                    HHC.isInToSpace := false; HHC.containingHH := 1 |};
          200 := to_space_list ]};
     HHC.freeChunks := [(16384, 0%N); (20480, 0%N)];
     HHC.stackCurrent := 0 |}.

Definition collecting_args : HHC.ForwardHHObjptrArgs :=
  {| HHC.minLevel := 1; HHC.maxLevel := 3;
     HHC.toLevel := 2 ^ 32 - 1; HHC.toSpace := {[ 2 := 200 ]};
     HHC.bytesCopied := 24; HHC.objectsCopied := 1; HHC.stacksCopied := 0;
     HHC.bytesMoved := 0; HHC.objectsMoved := 0 |}.

(** The same collection when the from-space chunk at [8192] holds one
    object only, a stack at [8264]; the allocator has one chunk left. *)
Definition lone_chunk : HHC.HM_chunk :=
  {| HHC.frontier := 8396; HHC.limit := 12288;
     HHC.mightContainMultipleObjects := false;
     HHC.levelHead := Some 100 |}.

Definition from_space_list : HHC.HM_chunkList :=
  {| HHC.chunkIds := [8192]; HHC.level := 2;
     HHC.isInToSpace := false; HHC.containingHH := 1 |}.

Definition evacuating_stack : HHC.GC_state :=
  {| HHC.objects := {[ 8264 := Example.a_stack ]};
     HHC.chunks := {[ 8192 := lone_chunk; 12288 := to_space_chunk ]};
     HHC.chunkLists := {[ 100 := from_space_list; 200 := to_space_list ]};
     HHC.freeChunks := [(16384, 0%N)];
     HHC.stackCurrent := 0 |}.

(** The heap of [Example.heap_with] with a stack in its chunk, once the
    allocator has no chunk left. *)
Definition exhausted : HHC.GC_state :=
  HHC.set_freeChunks (Example.heap_with Example.a_stack) [].

(** The heap after [copyObject] has put the object at [8400] behind the
    one that the to-space chunk holds. *)
Definition after_copy : HHC.GC_state :=
  HHC.set_chunks
    (HHC.set_objects evacuating
       (<[12384 := a_normal]> (HHC.objects evacuating)))
    (<[12288 := HHC.set_frontier to_space_chunk 12400]>
       (HHC.chunks evacuating)).

End ExampleForward.

(** What the weak fixup may change between two states: [w->objptr] of
    the weaks there are, and headers of weak objects, which become
    [GC_WEAK_GONE_HEADER]. *)
Module WeakFrame.
Import Cheney.

Definition only_weaks_touched `{ObjectModel} (t t' : GC_state) : Prop :=
  words t' = words t /\
  heap_start t' = heap_start t /\
  (forall w wk, weakStructs t !! w = Some wk ->
     exists wk', weakStructs t' !! w = Some wk' /\ w_link wk' = w_link wk) /\
  (forall w, weakStructs t !! w = None -> weakStructs t' !! w = None) /\
  (forall q, headers t' !! q = headers t !! q \/
             headers t' !! q = Some GC_WEAK_GONE_HEADER /\
             exists w, is_Some (weakStructs t !! w) /\ q = w - offsetofWeak).

(** The state that [updateWeaksForCheneyCopy] reaches from
    [Example.two_weaks]. *)
Definition two_weaks_fixed : GC_state :=
  {| headers :=
       {[ 5000 := 2 ^ 64 - 1; 6000 := 21; 992 := 13; 1992 := 7 ]};
     words := {[ 5000 := 7000 ]};
     weakStructs :=
       {[ 1000 := {| w_objptr := 7000; w_link := 2000 |};
          2000 := {| w_objptr := 1; w_link := 0 |} ]};
     heap_start := 4096;
     weaks := 0 |}.

End WeakFrame.

(** A mutator whose current chunk, at [8192], has 1000 bytes left; the
    allocator has nothing to give, the stack needs no growth and no
    collection is due. *)
Module ExampleLocalHeap.
Import LocalHeap.

Definition quiet_collaborators : Collaborators := {|
  world := unit;
  GC_HEAP_LIMIT_SLOP := 512;
  HM_BLOCK_SIZE := 4096;
  invariantForMutatorStack := fun _ => true;
  getStackCurrent := fun _ => 0;
  sizeofStackGrowReserved := fun _ _ => 0;
  sizeofStackWithMetaData := fun _ n => n;
  HM_HH_updateValues := fun s _ => s;
  HM_HH_desiredCollectionScope := fun s => level (hh s) + 1;
  HM_HHC_collectLocal := fun _ _ s => Ok s;
  HM_getChunkFrontier := fun s _ => frontier s;
  HM_getChunkLimit := fun s _ => limitPlusSlop s;
  setGCStateCurrentThreadAndStack := fun s => s;
  levelOfChunk := fun s _ => level (hh s);
  HM_HH_extend := fun s _ => (s, false);
  HM_HH_getFrontier := fun s => frontier s;
  HM_HH_getLimit := fun s => limitPlusSlop s;
  growStackCurrent := fun s => Ok s
|}.

Definition mutator : GC_state unit :=
  {| frontier := 9000; limitPlusSlop := 10000; limit := 9488;
     hh := {| level := 2; lastAllocatedChunk := 8192;
              bytesAllocatedSinceLastCollection := 0 |};
     rest := () |}.

End ExampleLocalHeap.

(** A collection state that only records which chunk lists were
    scanned: the to-space list of level [d] is at address [100 * d] and its
    first chunk at the address after it. *)
Module ExampleScan.

Definition toSpace (w : list pointer) (depth : Z) : option pointer :=
  Some (100 * depth).
Definition firstChunk (w : list pointer) (l : pointer) : option pointer :=
  Some (l + 1).
Definition scan (chunk : pointer) (w : list pointer)
  : result (list pointer) := Ok (w ++ [chunk]).

End ExampleScan.

(** Two initial vectors, of three 32-bit words and of five bytes, for a
    world with four globals whose frontier is at [8256] in the chunk at
    [8192]; sizes are aligned on 8 bytes and the heap cannot be extended. *)
Module ExampleInit.
Import InitWorld.

Definition layout64 : Collaborators := {|
  world := unit;
  GC_SEQUENCE_METADATA_SIZE := 24;
  GC_SEQUENCE_COUNTER_SIZE := 8;
  GC_SEQUENCE_LENGTH_SIZE := 8;
  GC_HEADER_SIZE := 8;
  GC_HEAP_LIMIT_SLOP := 512;
  WORD8_VECTOR_TYPE_INDEX := 10;
  WORD16_VECTOR_TYPE_INDEX := 11;
  WORD32_VECTOR_TYPE_INDEX := 12;
  WORD64_VECTOR_TYPE_INDEX := 13;
  align := fun n a => (n + a - 1) / a * a;
  buildHeaderFromTypeIndex := fun i => 2 * i + 1;
  pointerToObjptr := fun p base => p - base;
  HM_getChunkOf := fun p => p - p mod 4096;
  inFirstBlockOfChunk := fun chunk p => (chunk <=? p) && (p <? chunk + 4096);
  HM_HH_updateValues := fun w _ => w;
  HM_HH_extend := fun w _ => (w, false);
  HM_HH_getFrontier := fun _ => 0;
  HM_HH_getLimit := fun _ => 0
|}.

Definition two_vectors : list GC_vectorInit :=
  [ {| elementSize := 4; length := 3; globalIndex := 2; words := 500 |};
    {| elementSize := 1; length := 5; globalIndex := 0; words := 600 |} ].

Definition fresh_world (inits : list GC_vectorInit) : GC_state unit :=
  {| frontier := 8256; limitPlusSlop := 12288; limit := 11776;
     alignment := 8; globals := [1; 1; 1; 1]; vectorInits := inits;
     stores := []; rest := () |}.

(** A vector of 3-byte elements. *)
Definition odd_vector : GC_vectorInit :=
  {| elementSize := 3; length := 2; globalIndex := 1; words := 700 |}.

End ExampleInit.

(** * Properties *)

(** ** Machine arithmetic *)

Lemma wrap64_small z : is_u64 z -> wrap64 z = z.
Proof. unfold is_u64, wrap64. intros Hz. by apply Z.mod_small. Qed.

Lemma wrap64_range z : is_u64 (wrap64 z).
Proof. unfold is_u64, wrap64, U64_MODULUS. apply Z.mod_pos_bound. lia. Qed.

Lemma sub64_exact a b : 0 <= b -> b <= a -> a < U64_MODULUS -> sub64 a b = a - b.
Proof. intros. apply wrap64_small. unfold is_u64. lia. Qed.

Lemma sub64_add64_one b : is_u64 b -> sub64 (add64 b 1) 1 = b.
Proof.
  unfold is_u64, sub64, add64, wrap64, U64_MODULUS. intros Hb.
  destruct (decide (b = 2 ^ 64 - 1)) as [->|Hne]; [reflexivity|].
  rewrite (Z.mod_small (b + 1)) by lia.
  replace (b + 1 - 1) with b by lia. apply Z.mod_small. lia.
Qed.

Lemma add64_sub64_one b : is_u64 b -> add64 (sub64 b 1) 1 = b.
Proof.
  unfold is_u64, sub64, add64, wrap64, U64_MODULUS. intros Hb.
  destruct (decide (b = 0)) as [->|Hne]; [reflexivity|].
  rewrite (Z.mod_small (b - 1)) by lia.
  replace (b - 1 + 1) with b by lia. apply Z.mod_small. lia.
Qed.

(** ** The deque *)

Section DequeProperties.
Import ChaseLev.

Lemma slot_in_range (d : deque) (i : Z) :
  getSequenceLength d = CAP ->
  (Z.to_nat (i mod CAP) < length (data d))%nat.
Proof.
  unfold getSequenceLength, CAP. intros Hlen.
  pose proof (Z.mod_pos_bound i 64 ltac:(lia)). lia.
Qed.

Lemma load_store_data (d : deque) (i : Z) (v : objptr) :
  getSequenceLength d = CAP ->
  load_data (store_data d (i mod CAP) v) (i mod CAP) = v.
Proof.
  intros Hlen. unfold load_data, store_data. simpl.
  rewrite list_lookup_insert_eq; [done|]. by apply slot_in_range.
Qed.

(** Popping the bottom of an empty deque whose indices are not 0 fails
    and restores [bot]. *)
Lemma tryPopBot_empty_pos (k : Z) (dat : list objptr) (fail_value : objptr) :
  0 < k < U64_MODULUS ->
  ChaseLev_tryPopBot (mkDeque k k dat) fail_value =
    (fail_value, mkDeque k k dat).
Proof.
  intros Hk. unfold ChaseLev_tryPopBot, store_bot. simpl.
  rewrite (sub64_exact k 1) by lia.
  destruct (Z.leb_spec k (k - 1)); [lia|].
  f_equal. f_equal. unfold add64. replace (k - 1 + 1) with k by lia.
  apply wrap64_small. unfold is_u64. lia.
Qed.

(** C1, at [top = bot = 0]: [bot - 1] wraps around to [2^64 - 1], the
    test [local_top <= local_bot] succeeds, and the pop returns the content
    of slot [(2^64 - 1) mod CAP = 63] instead of the fail value and leaves
    [bot = 2^64 - 1]. *)
Theorem tryPopBot_new_deque_underflow (dat : list objptr) (fail_value : objptr) :
  ChaseLev_tryPopBot (mkDeque 0 0 dat) fail_value =
    (default 0 (dat !! 63%nat), mkDeque 0 (2 ^ 64 - 1) dat).
Proof. reflexivity. Qed.

(** A push on a full deque, and on one with room. *)
Lemma pushBot_full (d : deque) (v : objptr) :
  getSequenceLength d = CAP ->
  CAP <= sub64 (bot d) (top d) ->
  ChaseLev_pushBot d v = (false, d).
Proof.
  intros Hlen Hfull. unfold ChaseLev_pushBot. rewrite Hlen.
  destruct (Z.leb_spec CAP (sub64 (bot d) (top d))); [done|lia].
Qed.

Lemma pushBot_room (d : deque) (v : objptr) :
  getSequenceLength d = CAP ->
  sub64 (bot d) (top d) < CAP ->
  ChaseLev_pushBot d v =
    (true, {| top := top d;
              bot := add64 (bot d) 1;
              data := <[Z.to_nat (bot d mod CAP) := v]> (data d) |}).
Proof.
  intros Hlen Hroom. unfold ChaseLev_pushBot. rewrite Hlen.
  destruct (Z.leb_spec CAP (sub64 (bot d) (top d))); [lia|done].
Qed.

(** C2: on a deque whose buffer has [CAP = 64] slots, [ChaseLev_pushBot]
    returns false and changes nothing when [bot - top >= CAP] (the
    subtraction is the [uint64_t] one of the code; it is [bot - top] when
    [top <= bot], see [sub64_exact]); otherwise it writes the element at
    [bot mod CAP], increments [bot] by one (as [uint64_t]), leaves [top]
    alone and returns true. *)
Theorem pushBot_spec (d : deque) (v : objptr) :
  getSequenceLength d = CAP ->
  (CAP <= sub64 (bot d) (top d) -> ChaseLev_pushBot d v = (false, d)) /\
  (sub64 (bot d) (top d) < CAP ->
     ChaseLev_pushBot d v =
       (true, {| top := top d;
                 bot := add64 (bot d) 1;
                 data := <[Z.to_nat (bot d mod CAP) := v]> (data d) |}) /\
     <[Z.to_nat (bot d mod CAP) := v]> (data d) !! Z.to_nat (bot d mod CAP)
       = Some v).
Proof.
  intros Hlen. split.
  - by apply pushBot_full.
  - intros Hroom. split; [by apply pushBot_room|].
    apply list_lookup_insert_eq. by apply slot_in_range.
Qed.

Lemma pushBot_spec_witness :
  ChaseLev_pushBot (mkDeque 3 5 (replicate 64 0)) 9 =
    (true, mkDeque 3 6 (<[5%nat := 9]> (replicate 64 0))).
Proof.
  exact (proj1 (proj2 (pushBot_spec (mkDeque 3 5 (replicate 64 0)) 9
                         eq_refl) ltac:(vm_compute; reflexivity))).
Defined.

(** C9: on a deque that satisfies the deque invariant and is not full,
    [ChaseLev_pushBot v] succeeds and a [ChaseLev_tryPopBot] run right
    after it, with no other operation in between, returns [v]. *)
Theorem pushBot_tryPopBot (d : deque) (v fail_value : objptr) :
  deque_inv d ->
  bot d - top d < CAP ->
  fst (ChaseLev_pushBot d v) = true /\
  fst (ChaseLev_tryPopBot (snd (ChaseLev_pushBot d v)) fail_value) = v.
Proof.
  intros (Htop & Hle & Hbot & _ & Hlen) Hroom.
  rewrite (pushBot_room d v Hlen) by (rewrite sub64_exact by lia; lia).
  simpl. split; [done|].
  unfold ChaseLev_tryPopBot. cbn [bot top store_bot].
  rewrite sub64_add64_one by (unfold is_u64; lia).
  destruct (Z.leb_spec (top d) (bot d)); [|lia].
  unfold cas_top. cbn [top bot store_bot store_top].
  rewrite Z.eqb_refl.
  assert (Hload : forall t b,
    load_data {| top := t; bot := b;
                 data := <[Z.to_nat (bot d mod CAP) := v]> (data d) |}
              (bot d mod CAP) = v).
  { intros t b. unfold load_data. cbn [data].
    rewrite list_lookup_insert_eq; [done|]. by apply slot_in_range. }
  destruct (Z.eqb_spec (top d) (bot d)); simpl; apply Hload.
Qed.

Lemma pushBot_tryPopBot_witness :
  fst (ChaseLev_pushBot (mkDeque 3 5 (replicate 64 0)) 9) = true /\
  fst (ChaseLev_tryPopBot
         (snd (ChaseLev_pushBot (mkDeque 3 5 (replicate 64 0)) 9)) 1) = 9.
Proof.
  apply (pushBot_tryPopBot (mkDeque 3 5 (replicate 64 0)) 9 1).
  - unfold deque_inv, getSequenceLength, CAP, U64_MODULUS. simpl. lia.
  - unfold CAP. simpl. lia.
Defined.

(** Push [11], [12], [13] on an empty deque at depth 1: the owner pops
    [13], a thief steals [11], the owner pops [12] and then finds the deque
    empty. *)
Example push_three_then_pop :
  let d0 := mkDeque 1 1 (replicate 64 0) in
  let d3 := push_all d0 [11; 12; 13] in
  let '(r1, d4) := ChaseLev_tryPopBot d3 1 in
  let '(r2, d5) := ChaseLev_tryPopTop d4 1 in
  let '(r3, d6) := ChaseLev_tryPopBot d5 1 in
  let '(r4, d7) := ChaseLev_tryPopBot d6 1 in
  [r1; r2; r3; r4] = [13; 11; 12; 1] /\ top d7 = 3 /\ bot d7 = 3.
Proof. vm_compute. done. Qed.

(** A deque holding 64 elements refuses the next push; after a steal the
    push succeeds. *)
Example push_until_full :
  let d := push_all (mkDeque 1 1 (replicate 64 0)) (replicate 64 5) in
  fst (ChaseLev_pushBot d 6) = false /\
  fst (ChaseLev_pushBot (snd (ChaseLev_tryPopTop d 1)) 6) = true.
Proof. vm_compute. done. Qed.

(** A thief that runs [ChaseLev_tryPopTop] on a deque with
    [bot <= top] gets the fail value and changes nothing. *)
Lemma tryPopTop_empty (d : deque) (fail_value : objptr) :
  bot d <= top d -> ChaseLev_tryPopTop d fail_value = (fail_value, d).
Proof.
  intros Hle. unfold ChaseLev_tryPopTop.
  destruct (Z.ltb_spec (top d) (bot d)); [lia|done].
Qed.

(** With no store of the owner in between, the thief of
    [tryPopTop_during] is [ChaseLev_tryPopTop]. *)
Lemma tryPopTop_during_alone (d : deque) (i j k m : nat) (fail_value : objptr) :
  tryPopTop_during d [] i j k m fail_value = ChaseLev_tryPopTop d fail_value.
Proof.
  unfold tryPopTop_during, ChaseLev_tryPopTop, memory_after.
  rewrite !take_nil, drop_nil. cbn [foldl].
  destruct (top d <? bot d); [|done]. by destruct (cas_top _ _ _) as [[] ?].
Qed.

(** The cells while two stores are made. *)
Lemma memory_after_two (d : deque) (st1 st2 : store) (n : nat) :
  memory_after d [st1; st2] n =
    match n with
    | O => d
    | S O => apply_store d st1
    | _ => apply_store (apply_store d st1) st2
    end.
Proof.
  unfold memory_after. destruct n as [|[|n]]; cbn [take foldl]; try done.
  by rewrite take_nil.
Qed.

Lemma drop_two {A} (x y : A) (n : nat) :
  drop n [x; y] =
    match n with
    | O => [x; y]
    | S O => [y]
    | _ => []
    end.
Proof. destruct n as [|[|n]]; cbn [drop]; try done. by rewrite drop_nil. Qed.

(** C3, as amended: from a deque with [top = bot = k],
    [ChaseLev_setDepth] to [d <> k] makes the two stores [top = d] and
    [bot = d], [bot] first when [d < k] and [top] first otherwise, and
    ends with [top = bot = d]; the cells have [bot <= top] before, between
    and after the stores.  A thief's [ChaseLev_tryPopTop] loads [top] and
    then [bot]: when [k < d] it can load [top = k] before the stores and
    [bot = d] after them, and so see [top < bot].  However its loads and
    its compare-and-swap fall between the stores, it returns the fail
    value and changes no cell. *)
Theorem setDepth_thief_steals_nothing
    (d : deque) (desired_depth : Z) (fail_value : objptr) :
  top d = bot d ->
  exists sts,
    ChaseLev_setDepth_stores d desired_depth = Ok sts /\
    sts =
      (if desired_depth =? bot d then []
       else if desired_depth <? bot d
            then [StoreBot desired_depth; StoreTop desired_depth]
            else [StoreTop desired_depth; StoreBot desired_depth]) /\
    ChaseLev_setDepth d desired_depth =
      Ok (mkDeque desired_depth desired_depth (data d)) /\
    (forall n : nat,
       bot (memory_after d sts n) <= top (memory_after d sts n)) /\
    (forall i j k m : nat, (i <= j)%nat -> (j <= k)%nat -> (k <= m)%nat ->
       tryPopTop_during d sts i j k m fail_value =
         (fail_value, mkDeque desired_depth desired_depth (data d))) /\
    (bot d < desired_depth ->
       top (memory_after d sts 0) = bot d /\
       bot (memory_after d sts 2) = desired_depth).
Proof.
  intros Htop. unfold ChaseLev_setDepth, ChaseLev_setDepth_stores.
  rewrite Htop, Z.eqb_refl. cbn [negb].
  destruct (Z.eqb_spec desired_depth (bot d)) as [->|Hne].
  - exists []. cbn [mbind result_bind foldl].
    assert (d = mkDeque (bot d) (bot d) (data d)) as Hd
      by (destruct d; cbn in *; by subst).
    split; [done|]. split; [done|]. split; [by rewrite <- Hd|].
    split; [|split].
    + intros n. unfold memory_after. rewrite take_nil. cbn [foldl]. lia.
    + intros i j k m _ _ _. rewrite tryPopTop_during_alone.
      rewrite tryPopTop_empty by lia. by rewrite <- Hd.
    + lia.
  - destruct (Z.ltb_spec desired_depth (bot d)) as [Hlt|Hge].
    + eexists. split; [reflexivity|]. split; [reflexivity|].
      split; [reflexivity|]. split; [|split].
      * intros n. rewrite memory_after_two.
        destruct n as [|[|n]]; cbn [apply_store store_top store_bot top bot];
          lia.
      * intros i j k m Hij Hjk Hkm. unfold tryPopTop_during.
        rewrite !memory_after_two.
        destruct i as [|[|i]], j as [|[|j]]; try lia;
          cbn [apply_store store_top store_bot top bot];
          (match goal with
           | |- context [?a <? ?b] => destruct (Z.ltb_spec a b)
           end; [lia|done]).
      * lia.
    + eexists. split; [reflexivity|]. split; [reflexivity|].
      split; [reflexivity|]. split; [|split].
      * intros n. rewrite memory_after_two.
        destruct n as [|[|n]]; cbn [apply_store store_top store_bot top bot];
          lia.
      * intros i j k m Hij Hjk Hkm. unfold tryPopTop_during.
        rewrite !memory_after_two.
        destruct i as [|[|i]], j as [|[|j]]; try lia;
          cbn [apply_store store_top store_bot top bot];
          try (match goal with
               | |- context [?a <? ?b] => destruct (Z.ltb_spec a b)
               end; [lia|done]).
        (* the thief has loaded the old [top] and the new [bot] *)
        destruct (Z.ltb_spec (top d) desired_depth); [|lia].
        destruct k as [|[|k]], m as [|[|m]]; try lia.
        unfold cas_top. cbn [apply_store store_top store_bot top bot].
        destruct (Z.eqb_spec desired_depth (top d)); [lia|].
        rewrite drop_two. reflexivity.
      * intros _. rewrite !memory_after_two.
        by cbn [apply_store store_top store_bot top bot].
Qed.

(** C3 as stated fails for a thief that loads [top] and [bot] one after
    the other, as [ChaseLev_tryPopTop] does: while the owner sets the depth
    of a deque with [top = bot = 3] to 5, the thief loads [top = 3] before
    the stores and [bot = 5] after them, and sees two elements. *)
Lemma setDepth_thief_samples_nonempty :
  exists sts (i j : nat),
    ChaseLev_setDepth_stores (mkDeque 3 3 (replicate 64 0)) 5 = Ok sts /\
    (i <= j)%nat /\
    top (memory_after (mkDeque 3 3 (replicate 64 0)) sts i) = 3 /\
    bot (memory_after (mkDeque 3 3 (replicate 64 0)) sts j) = 5 /\
    ~ (bot (memory_after (mkDeque 3 3 (replicate 64 0)) sts j) <=
       top (memory_after (mkDeque 3 3 (replicate 64 0)) sts i)).
Proof.
  exists [StoreTop 5; StoreBot 5], 0%nat, 2%nat.
  split; [reflexivity|]. split; [lia|]. split; [reflexivity|].
  split; [reflexivity|]. cbn. lia.
Qed.

Lemma setDepth_thief_steals_nothing_witness :
  exists sts,
    ChaseLev_setDepth_stores (mkDeque 3 3 (replicate 64 0)) 5 = Ok sts /\
    sts = [StoreTop 5; StoreBot 5] /\
    ChaseLev_setDepth (mkDeque 3 3 (replicate 64 0)) 5 =
      Ok (mkDeque 5 5 (replicate 64 0)) /\
    (forall n : nat,
       bot (memory_after (mkDeque 3 3 (replicate 64 0)) sts n) <=
       top (memory_after (mkDeque 3 3 (replicate 64 0)) sts n)) /\
    (forall i j k m : nat, (i <= j)%nat -> (j <= k)%nat -> (k <= m)%nat ->
       tryPopTop_during (mkDeque 3 3 (replicate 64 0)) sts i j k m 1 =
         (1, mkDeque 5 5 (replicate 64 0))) /\
    (3 < 5 ->
       top (memory_after (mkDeque 3 3 (replicate 64 0)) sts 0) = 3 /\
       bot (memory_after (mkDeque 3 3 (replicate 64 0)) sts 2) = 5).
Proof.
  exact (setDepth_thief_steals_nothing (mkDeque 3 3 (replicate 64 0)) 5 1
           eq_refl).
Defined.

End DequeProperties.

(** ** Object sizes *)

Section CopyParameters.
Import HHC.
Context `{Runtime}.

Lemma shrunk_reserved_le stk current :
  shrunk_reserved stk current <= reserved stk.
Proof.
  unfold shrunk_reserved.
  destruct (Z.ltb_spec (sizeofStackShrinkReserved stk current) (reserved stk));
    lia.
Qed.

Lemma shrink_stack_at_lookup s p o :
  objects s !! p = Some o ->
  exists o',
    objects (shrink_stack_at s p o) !! p = Some o' /\
    header o' = header o /\ fwdPtr o' = fwdPtr o /\
    sequenceLength o' = sequenceLength o /\
    used (stack o') = used (stack o) /\
    reserved (stack o') =
      shrunk_reserved (stack o) (bool_decide (stackCurrent s = p)).
Proof.
  intros Ho. unfold shrink_stack_at, shrunk_reserved.
  destruct (_ <? _).
  - eexists. simpl. rewrite lookup_insert_eq. by repeat split.
  - exists o. by repeat split.
Qed.

Lemma shrink_stack_at_frame s p o :
  chunks (shrink_stack_at s p o) = chunks s /\
  chunkLists (shrink_stack_at s p o) = chunkLists s /\
  freeChunks (shrink_stack_at s p o) = freeChunks s /\
  stackCurrent (shrink_stack_at s p o) = stackCurrent s /\
  forall q, q <> p ->
    objects (shrink_stack_at s p o) !! q = objects s !! q.
Proof.
  unfold shrink_stack_at. destruct (_ <? _); simpl; repeat split; try done.
  intros q Hq. by rewrite lookup_insert_ne.
Qed.

(** [computeObjectCopyParameters] on a stack, as an equation. *)
Lemma computeObjectCopyParameters_stack_eq s p o bnp np :
  objects s !! p = Some o ->
  splitHeader (header o) = (STACK_TAG, bnp, np) ->
  computeObjectCopyParameters s p =
    Ok (shrink_stack_at s p o,
        (STACK_TAG,
         add64 (add64 sizeof_GC_stack
                  (shrunk_reserved (stack o)
                     (bool_decide (stackCurrent s = p))))
               GC_STACK_METADATA_SIZE,
         add64 (add64 sizeof_GC_stack (used (stack o)))
               GC_STACK_METADATA_SIZE,
         GC_STACK_METADATA_SIZE)).
Proof.
  intros Ho Hsplit. unfold computeObjectCopyParameters.
  rewrite Ho. simpl. rewrite Hsplit. simpl.
  destruct (shrink_stack_at_lookup s p o Ho)
    as (o' & Ho' & _ & _ & _ & Hused & Hres).
  unfold shrink_stack_at in *.
  destruct (_ <? _) eqn:Hlt; rewrite Ho'; simpl; rewrite Hused, Hres; done.
Qed.

(** [computeObjectCopyParameters] on a normal object and on a sequence. *)
Lemma computeObjectCopyParameters_normal_eq s p o bnp np :
  objects s !! p = Some o ->
  splitHeader (header o) = (NORMAL_TAG, bnp, np) ->
  computeObjectCopyParameters s p =
    Ok (s, (NORMAL_TAG,
            add64 (add64 bnp (wrap64 (np * OBJPTR_SIZE)))
                  GC_NORMAL_METADATA_SIZE,
            add64 (add64 bnp (wrap64 (np * OBJPTR_SIZE)))
                  GC_NORMAL_METADATA_SIZE,
            GC_NORMAL_METADATA_SIZE)).
Proof.
  intros Ho Hsplit. unfold computeObjectCopyParameters.
  rewrite Ho. simpl. by rewrite Hsplit.
Qed.

Lemma computeObjectCopyParameters_sequence_eq s p o bnp np :
  objects s !! p = Some o ->
  splitHeader (header o) = (SEQUENCE_TAG, bnp, np) ->
  computeObjectCopyParameters s p =
    Ok (s, (SEQUENCE_TAG,
            add64 (sizeofSequenceNoMetaData (sequenceLength o) bnp np)
                  GC_SEQUENCE_METADATA_SIZE,
            add64 (sizeofSequenceNoMetaData (sequenceLength o) bnp np)
                  GC_SEQUENCE_METADATA_SIZE,
            GC_SEQUENCE_METADATA_SIZE)).
Proof.
  intros Ho Hsplit. unfold computeObjectCopyParameters.
  rewrite Ho. simpl. by rewrite Hsplit.
Qed.

Lemma computeObjectCopyParameters_weak_eq s p o bnp np :
  objects s !! p = Some o ->
  splitHeader (header o) = (WEAK_TAG, bnp, np) ->
  computeObjectCopyParameters s p = Die DieWeakTag.
Proof.
  intros Ho Hsplit. unfold computeObjectCopyParameters.
  rewrite Ho. simpl. by rewrite Hsplit.
Qed.

(** The sizes [computeObjectCopyParameters] returns for a stack, without
    the wrap-around. *)
Lemma stack_sizes_exact stk current :
  stack_sizes_nonneg stk current ->
  stack_fits stk ->
  add64 (add64 sizeof_GC_stack (shrunk_reserved stk current))
        GC_STACK_METADATA_SIZE =
    GC_STACK_METADATA_SIZE + sizeof_GC_stack + shrunk_reserved stk current /\
  add64 (add64 sizeof_GC_stack (used stk)) GC_STACK_METADATA_SIZE =
    GC_STACK_METADATA_SIZE + sizeof_GC_stack + used stk.
Proof.
  intros (Hmeta & Hsz & Hused & Hres & Hshrink) (Hfit1 & Hfit2).
  pose proof (shrunk_reserved_le stk current) as Hle.
  assert (0 <= shrunk_reserved stk current) as Hge.
  { unfold shrunk_reserved. destruct (_ <? _); lia. }
  unfold add64. split.
  - rewrite (wrap64_small (_ + shrunk_reserved _ _)) by (unfold is_u64; lia).
    rewrite wrap64_small by (unfold is_u64; lia). lia.
  - rewrite (wrap64_small (_ + used _)) by (unfold is_u64; lia).
    rewrite wrap64_small by (unfold is_u64; lia). lia.
Qed.

(** C6: on a stack object that lies within the address space,
    [computeObjectCopyParameters] returns; afterwards [stack->reserved] is
    at most what it was (it is what [sizeofStackShrinkReserved] returned
    when that was smaller, and untouched otherwise), [stack->used] is
    unchanged, and the sizes returned are
    [metaDataSize + sizeof (struct GC_stack) + reserved] and
    [metaDataSize + sizeof (struct GC_stack) + used]. *)
Theorem computeObjectCopyParameters_stack_shrinks s p o bnp np :
  objects s !! p = Some o ->
  splitHeader (header o) = (STACK_TAG, bnp, np) ->
  stack_sizes_nonneg (stack o) (bool_decide (stackCurrent s = p)) ->
  stack_fits (stack o) ->
  exists s' o' objectSize copySize,
    computeObjectCopyParameters s p =
      Ok (s', (STACK_TAG, objectSize, copySize, GC_STACK_METADATA_SIZE)) /\
    objects s' !! p = Some o' /\
    reserved (stack o') <= reserved (stack o) /\
    reserved (stack o') =
      (if sizeofStackShrinkReserved (stack o)
            (bool_decide (stackCurrent s = p)) <? reserved (stack o)
       then sizeofStackShrinkReserved (stack o)
              (bool_decide (stackCurrent s = p))
       else reserved (stack o)) /\
    used (stack o') = used (stack o) /\
    objectSize =
      GC_STACK_METADATA_SIZE + sizeof_GC_stack + reserved (stack o') /\
    copySize = GC_STACK_METADATA_SIZE + sizeof_GC_stack + used (stack o').
Proof.
  intros Ho Hsplit Hnn Hfit.
  destruct (shrink_stack_at_lookup s p o Ho)
    as (o' & Ho' & _ & _ & _ & Hu' & Hr').
  pose proof (shrunk_reserved_le (stack o) (bool_decide (stackCurrent s = p)))
    as Hle.
  destruct (stack_sizes_exact _ _ Hnn Hfit) as [Hos Hcs].
  eexists _, o', _, _. split.
  { exact (computeObjectCopyParameters_stack_eq s p o bnp np Ho Hsplit). }
  split; [done|]. rewrite Hr', Hu', Hos, Hcs. by repeat split.
Qed.

End CopyParameters.

(** ** The forwarding engine *)

Lemma dies_only_Ok {A} P (a : A) : dies_only P (Ok a).
Proof. intros f Hf. discriminate. Qed.

Lemma dies_only_Die {A} (P : fatal -> Prop) f : P f -> dies_only P (@Die A f).
Proof. intros HP f' Hf'. by injection Hf' as <-. Qed.

Lemma dies_only_deref {A} P (o : option A) : dies_only P (deref o).
Proof. intros f Hf. by destruct o. Qed.

Lemma dies_only_bind {A B} P (m : result A) (k : A -> result B) :
  dies_only P m ->
  (forall a, m = Ok a -> dies_only P (k a)) ->
  dies_only P (m ≫= k).
Proof.
  intros Hm Hk f Hf.
  destruct m as [a|f'| |]; cbv [mbind result_bind] in Hf; try discriminate.
  - exact (Hk a eq_refl f Hf).
  - injection Hf as ->. exact (Hm f eq_refl).
Qed.

Lemma dies_only_fmap {A B} P (m : result A) (g : A -> B) :
  dies_only P m -> dies_only P (g <$> m).
Proof.
  intros Hm f Hf.
  destruct m as [a|f'| |]; cbv [fmap result_fmap] in Hf; try discriminate.
  injection Hf as ->. exact (Hm f eq_refl).
Qed.

Create HintDb dies discriminated.

(** One step through the structure of a function: binds, pattern
    matches and conditionals; calls are closed with the [dies] hints. *)
Ltac dies_only_step :=
  first
    [ apply dies_only_Ok
    | apply dies_only_deref
    | apply dies_only_Die; done
    | solve [auto with dies]
    | apply dies_only_fmap
    | apply dies_only_bind; [|intros ? ?]
    | match goal with
      | |- dies_only _ (match ?x with _ => _ end) => destruct x
      end ].

Section ForwardingAborts.
Import HHC.
Context `{Runtime}.

Lemma dies_only_getLevelHead P s p : dies_only P (HM_getLevelHead s p).
Proof. unfold HM_getLevelHead. repeat dies_only_step. Qed.
Hint Resolve dies_only_getLevelHead : dies.

Lemma dies_only_getObjptrLevel P s op : dies_only P (HM_getObjptrLevel s op).
Proof. unfold HM_getObjptrLevel. repeat dies_only_step. Qed.

Lemma dies_only_isObjptrInToSpace P s op :
  dies_only P (HM_isObjptrInToSpace s op).
Proof. unfold HM_isObjptrInToSpace. repeat dies_only_step. Qed.

Lemma dies_only_chaseFwdPtr P fuel s op : dies_only P (chaseFwdPtr fuel s op).
Proof.
  revert op. induction fuel as [|fuel IH]; intros op; simpl.
  - repeat dies_only_step. intros f Hf. discriminate.
  - repeat dies_only_step.
Qed.

Lemma dies_only_unlinkChunk P s c : dies_only P (HM_unlinkChunk s c).
Proof. unfold HM_unlinkChunk. repeat dies_only_step. Qed.

Lemma dies_only_appendChunk P s l c : dies_only P (HM_appendChunk s l c).
Proof. unfold HM_appendChunk. repeat dies_only_step. Qed.

Lemma dies_only_updateChunkValues P s c f :
  dies_only P (HM_updateChunkValues s c f).
Proof. unfold HM_updateChunkValues. repeat dies_only_step. Qed.

Lemma dies_only_allocateChunk P s l n : dies_only P (HM_allocateChunk s l n).
Proof. unfold HM_allocateChunk. repeat dies_only_step. Qed.
Hint Resolve dies_only_getObjptrLevel dies_only_isObjptrInToSpace
  dies_only_chaseFwdPtr dies_only_unlinkChunk dies_only_appendChunk
  dies_only_updateChunkValues dies_only_allocateChunk : dies.

Lemma dies_only_computeObjectCopyParameters s p :
  dies_only (fun f => f = DieWeakTag) (computeObjectCopyParameters s p).
Proof. unfold computeObjectCopyParameters. repeat dies_only_step. Qed.

Lemma dies_only_copyObject s p os cs tgt :
  dies_only (fun f => f = DieOutOfSpace) (copyObject s p os cs tgt).
Proof. unfold copyObject. repeat dies_only_step. Qed.

Lemma dies_only_impl {A} (P Q : fatal -> Prop) (r : result A) :
  (forall f, P f -> Q f) -> dies_only P r -> dies_only Q r.
Proof. intros HPQ Hr f Hf. apply HPQ, Hr, Hf. Qed.

Lemma not_entanglement_computeObjectCopyParameters s p :
  dies_only (fun f => f <> DieEntanglement) (computeObjectCopyParameters s p).
Proof.
  eapply dies_only_impl; [|apply dies_only_computeObjectCopyParameters].
  by intros f ->.
Qed.

Lemma not_entanglement_copyObject s p os cs tgt :
  dies_only (fun f => f <> DieEntanglement) (copyObject s p os cs tgt).
Proof.
  eapply dies_only_impl; [|apply dies_only_copyObject]. by intros f ->.
Qed.
Hint Resolve not_entanglement_computeObjectCopyParameters
  not_entanglement_copyObject : dies.

(** C5: on a slot that holds a pointer to an object of the hierarchical
    heap, [forwardHHObjptr] aborts with "entanglement detected" when the
    level of the object is above [args->maxLevel], and does not abort for
    that reason when the level is at most [args->maxLevel]. *)
Theorem forwardHHObjptr_entanglement s args op lvl :
  isObjptr op = true ->
  isObjptrInRootHeap op = false ->
  HM_getObjptrLevel s op = Ok lvl ->
  (maxLevel args < lvl -> forwardHHObjptr s args op = Die DieEntanglement) /\
  (lvl <= maxLevel args -> forwardHHObjptr s args op <> Die DieEntanglement).
Proof.
  intros Hptr Hroot Hlvl. unfold forwardHHObjptr.
  rewrite Hptr, Hroot, Hlvl. cbn [negb orb mbind result_bind]. split.
  - intros Habove. destruct (Z.ltb_spec (maxLevel args) lvl); [done|lia].
  - intros Hwithin Hdie.
    destruct (Z.ltb_spec (maxLevel args) lvl); [lia|].
    cbn [orb] in Hdie. revert Hdie.
    match goal with
    | |- ?r = _ -> _ =>
        assert (dies_only (fun f => f <> DieEntanglement) r) as Hnot
    end.
    { repeat dies_only_step. }
    intros Hdie. by apply (Hnot _ Hdie).
Qed.

End ForwardingAborts.

(** Reduce the binds of the [result] monad, and nothing else. *)
Tactic Notation "rsimpl" :=
  cbn [mbind result_bind fmap result_fmap deref negb orb andb fst snd].
Tactic Notation "rsimpl" "in" hyp(Hyp) :=
  cbn [mbind result_bind fmap result_fmap deref negb orb andb fst snd]
    in Hyp.

Section SingleObjectChunk.
Import HHC.
Context `{Runtime}.

Lemma chaseFwdPtr_not_forwarded fuel s op o :
  objects s !! op = Some o -> fwdPtr o = None ->
  chaseFwdPtr fuel s op = Ok op.
Proof.
  intros Ho Hfwd. destruct fuel; simpl; rewrite Ho; simpl; by rewrite Hfwd.
Qed.

Lemma getLevelHead_eq s p c src l :
  chunks s !! HM_getChunkOf p = Some c ->
  levelHead c = Some src ->
  chunkLists s !! src = Some l ->
  HM_getLevelHead s p = Ok (src, l).
Proof.
  intros Hc Hlh Hl. unfold HM_getLevelHead.
  rewrite Hc. simpl. rewrite Hlh. simpl. by rewrite Hl.
Qed.

(** [computeObjectCopyParameters] on an object that is not a weak: it
    returns, and touches nothing but [stack->reserved] of that object. *)
Lemma computeObjectCopyParameters_frame s p o tag bnp np :
  objects s !! p = Some o ->
  splitHeader (header o) = (tag, bnp, np) ->
  tag <> WEAK_TAG ->
  exists s1 objectBytes copyBytes metaDataBytes o1,
    computeObjectCopyParameters s p =
      Ok (s1, (tag, objectBytes, copyBytes, metaDataBytes)) /\
    chunks s1 = chunks s /\ chunkLists s1 = chunkLists s /\
    freeChunks s1 = freeChunks s /\
    objects s1 !! p = Some o1 /\
    fwdPtr o1 = fwdPtr o /\ header o1 = header o.
Proof.
  intros Ho Hsplit Hweak. destruct tag; [| | |done].
  - eexists s, _, _, _, o. split.
    { exact (computeObjectCopyParameters_normal_eq s p o bnp np Ho Hsplit). }
    by repeat split.
  - eexists s, _, _, _, o. split.
    { exact (computeObjectCopyParameters_sequence_eq s p o bnp np Ho Hsplit). }
    by repeat split.
  - destruct (shrink_stack_at_lookup s p o Ho)
      as (o1 & Ho1 & Hhdr & Hfwd & _).
    destruct (shrink_stack_at_frame s p o) as (Hc & Hl & Hf & _).
    eexists _, _, _, _, o1. split.
    { exact (computeObjectCopyParameters_stack_eq s p o bnp np Ho Hsplit). }
    by repeat split.
Qed.

Lemma allocateChunk_eq s list n a e rest l :
  freeChunks s = (a, e) :: rest ->
  chunkLists s !! list = Some l ->
  HM_allocateChunk s list n =
    Ok (set_freeChunks
          (set_chunks
             (set_chunkLists s
                (<[list := set_chunkIds l (chunkIds l ++ [a])]>
                   (chunkLists s)))
             (<[a := {| frontier := a + sizeof_HM_chunk;
                        limit := a + sizeof_HM_chunk + n + Z.of_N e;
                        mightContainMultipleObjects := true;
                        levelHead := Some list |}]> (chunks s)))
          rest,
        Some a).
Proof.
  intros Hfree Hl. unfold HM_allocateChunk. rewrite Hfree, Hl. done.
Qed.

(** The three calls of the single-object-chunk path: unlink the chunk
    from its list, append it to the target list, allocate a chunk behind
    it. *)
Lemma move_chunk_and_trail s chunk c src l tgt lt a e rest n :
  chunks s !! chunk = Some c ->
  levelHead c = Some src ->
  chunkLists s !! src = Some l ->
  chunkLists s !! tgt = Some lt ->
  tgt <> src ->
  freeChunks s = (a, e) :: rest ->
  a <> chunk ->
  exists s' lsrc c' cf,
    HM_unlinkChunk s chunk ≫=
      (λ s1, HM_appendChunk s1 tgt chunk ≫=
         (λ s2, HM_allocateChunk s2 tgt n)) = Ok (s', Some a) /\
    objects s' = objects s /\
    chunkLists s' !! tgt =
      Some (set_chunkIds lt (chunkIds lt ++ [chunk; a])) /\
    chunkLists s' !! src = Some lsrc /\ (chunk ∉ chunkIds lsrc) /\
    chunks s' !! chunk = Some c' /\ levelHead c' = Some tgt /\
    mightContainMultipleObjects c' = mightContainMultipleObjects c /\
    chunks s' !! a = Some cf /\ levelHead cf = Some tgt /\
    n <= limit cf - frontier cf.
Proof.
  intros Hc Hlh Hsrc Htgt Hne Hfree Ha.
  unfold HM_unlinkChunk. rewrite Hc. simpl. rewrite Hlh. simpl.
  rewrite Hsrc. simpl.
  unfold HM_appendChunk. simpl.
  rewrite (lookup_insert_ne (chunkLists s) src tgt) by congruence.
  rewrite Htgt. simpl.
  rewrite (lookup_insert_eq (chunks s) chunk). simpl.
  unfold HM_allocateChunk. simpl. rewrite Hfree.
  rewrite lookup_insert_eq. simpl.
  eexists _, _, _, _. split; [reflexivity|]. simpl.
  split; [done|].
  split.
  { rewrite lookup_insert_eq. by rewrite <- app_assoc. }
  split.
  { rewrite lookup_insert_ne by congruence.
    rewrite lookup_insert_ne by congruence.
    by rewrite lookup_insert_eq. }
  split.
  { simpl. intros Hin. apply list_elem_of_filter in Hin as [Hin _]. done. }
  split.
  { rewrite lookup_insert_ne by congruence. by rewrite lookup_insert_eq. }
  split; [done|]. split; [done|].
  split; [by rewrite lookup_insert_eq|].
  split; [done|]. simpl. lia.
Qed.

(** C4, as amended: for an object of the hierarchical heap that is not a
    weak, has no forwarding pointer, lies in a chunk with
    [mightContainMultipleObjects = false], at a level within
    [[minLevel, maxLevel]] and not in the to-space, and as long as the chunk
    allocator does not run out of chunks, [forwardHHObjptr] returns; it has
    unlinked the chunk from its list, appended it to the to-space list of
    that level and allocated a chunk of [GC_HEAP_LIMIT_SLOP] bytes behind
    it; the object has no forwarding pointer, [*opp] is unchanged,
    [objectsMoved] went up by one and [bytesMoved] by [copyBytes], and
    [objectsCopied] and [bytesCopied] are unchanged. *)
Theorem forwardHHObjptr_moves_single_object_chunk
    s args op o tag bnp np c src l :
  isObjptr op = true ->
  isObjptrInRootHeap op = false ->
  objects s !! op = Some o ->
  fwdPtr o = None ->
  splitHeader (header o) = (tag, bnp, np) ->
  tag <> WEAK_TAG ->
  chunks s !! HM_getChunkOf op = Some c ->
  mightContainMultipleObjects c = false ->
  levelHead c = Some src ->
  chunkLists s !! src = Some l ->
  isInToSpace l = false ->
  minLevel args <= level l <= maxLevel args ->
  target_ready s args (level l) (HM_getChunkOf op) ->
  exists s' args' s1 objectBytes copyBytes metaDataBytes
         tgt lt pre trailing lsrc c' ct o',
    forwardHHObjptr s args op = Ok (s', args', op) /\
    computeObjectCopyParameters s op =
      Ok (s1, (tag, objectBytes, copyBytes, metaDataBytes)) /\
    (* the chunk has left its list and is the last but one of the target *)
    chunkLists s' !! src = Some lsrc /\
    (HM_getChunkOf op ∉ chunkIds lsrc) /\
    toSpace args' !! level l = Some tgt /\
    chunkLists s' !! tgt = Some lt /\
    isInToSpace lt = true /\
    chunkIds lt = pre ++ [HM_getChunkOf op; trailing] /\
    chunks s' !! HM_getChunkOf op = Some c' /\
    levelHead c' = Some tgt /\
    mightContainMultipleObjects c' = false /\
    (* the trailing chunk is new and holds GC_HEAP_LIMIT_SLOP bytes *)
    chunks s' !! trailing = Some ct /\
    levelHead ct = Some tgt /\
    GC_HEAP_LIMIT_SLOP <= limit ct - frontier ct /\
    (* the object is where it was, with no forwarding pointer *)
    objects s' !! op = Some o' /\
    fwdPtr o' = None /\
    header o' = header o /\
    (* the counters *)
    objectsMoved args' = add64 (objectsMoved args) 1 /\
    bytesMoved args' = add64 (bytesMoved args) copyBytes /\
    objectsCopied args' = objectsCopied args /\
    bytesCopied args' = bytesCopied args.
Proof.
  intros Hptr Hroot Ho Hfwd Hsplit Hweak Hc Hsingle Hlh Hsrc Hfrom
         [Hmin Hmax] Hready.
  destruct (computeObjectCopyParameters_frame s op o tag bnp np
              Ho Hsplit Hweak)
    as (s1 & objectBytes & copyBytes & metaDataBytes & o1 &
        Hcompute & Hchunks1 & Hlists1 & Hfree1 & Ho1 & Hfwd1 & Hhdr1).
  unfold forwardHHObjptr.
  rewrite Hptr, Hroot. cbn [negb orb].
  unfold HM_getObjptrLevel, HM_isObjptrInToSpace.
  rewrite (getLevelHead_eq s op c src l Hc Hlh Hsrc). rsimpl.
  destruct (Z.ltb_spec (maxLevel args) (level l)); [lia|].
  destruct (Z.ltb_spec (level l) (minLevel args)); [lia|]. rsimpl.
  rewrite (chaseFwdPtr_not_forwarded _ s op o Ho Hfwd). rsimpl.
  rewrite (getLevelHead_eq s op c src l Hc Hlh Hsrc). rsimpl.
  destruct (Z.ltb_spec (level l) (minLevel args)); [lia|].
  rewrite Hfrom. rewrite Hcompute. rsimpl.
  assert (exists args1,
            match tag with
            | STACK_TAG => Ok (incr_stacksCopied args)
            | WEAK_TAG => Die DieWeakTag
            | _ => Ok args
            end = Ok args1 /\
            toSpace args1 = toSpace args /\
            objectsMoved args1 = objectsMoved args /\
            bytesMoved args1 = bytesMoved args /\
            objectsCopied args1 = objectsCopied args /\
            bytesCopied args1 = bytesCopied args)
    as (args1 & -> & HtoSpace1 & Hom1 & Hbm1 & Hoc1 & Hbc1).
  { destruct tag; [by eexists|by eexists|by eexists|done]. }
  rsimpl. rewrite HtoSpace1. unfold target_ready in Hready.
  destruct (toSpace args !! level l) as [tgt|] eqn:Htgt.
  - destruct Hready as [(lt & Hlt & Hto) (a & e & rest & Hfree & Ha)].
    rsimpl. rewrite Hchunks1, Hc. rsimpl. rewrite Hsingle. rsimpl.
    assert (tgt <> src) as Hne by (intros ->; congruence).
    destruct (move_chunk_and_trail s1 (HM_getChunkOf op) c src l tgt lt
                a e rest GC_HEAP_LIMIT_SLOP)
      as (s' & lsrc & c' & ct & Hmove & Hobjs & Hlt' & Hlsrc & Hgone &
          Hc' & Hlh' & Hflag' & Hct & Hlhct & Hslop);
      try congruence.
    destruct (HM_unlinkChunk s1 (HM_getChunkOf op)) as [s3| | |];
      rsimpl in Hmove; try discriminate; rsimpl.
    destruct (HM_appendChunk s3 tgt (HM_getChunkOf op)) as [s4| | |];
      rsimpl in Hmove; try discriminate; rsimpl.
    rewrite Hmove. rsimpl.
    eexists s', _, s1, _, _, _, tgt, _, (chunkIds lt), a, lsrc, c', ct, o1.
    split; [reflexivity|]. split; [reflexivity|].
    rewrite Hobjs. simpl. rewrite HtoSpace1, Hom1, Hbm1, Hoc1, Hbc1.
    repeat split; try done; congruence.
  - destruct Hready as (a0 & e0 & a1 & e1 & rest & Hfree & Ha0 & Ha1).
    unfold HM_newChunkList.
    set (tgt := fresh ({[NULL]} ∪ dom (chunkLists s1))).
    assert (tgt ∉ ({[NULL]} ∪ dom (chunkLists s1) : gset Z)) as Hfresh
      by apply is_fresh.
    assert (tgt <> src) as Hne.
    { intros ->. apply Hfresh, elem_of_union_r, elem_of_dom.
      rewrite Hlists1, Hsrc. eauto. }
    cbv beta iota.
    erewrite (allocateChunk_eq _ tgt objectBytes a0 e0);
      [|cbn [freeChunks set_chunkLists]; by rewrite Hfree1, Hfree
       |cbn [chunkLists set_chunkLists]; by rewrite lookup_insert_eq].
    rsimpl.
    cbn [freeChunks chunkLists chunks set_chunkLists set_chunks
         set_freeChunks].
    rewrite lookup_insert_eq. rsimpl.
    cbn [freeChunks chunkLists chunks set_chunkLists set_chunks
         set_freeChunks].
    rewrite lookup_insert_ne by congruence. rewrite Hchunks1, Hc. rsimpl.
    rewrite Hsingle. rsimpl.
    match goal with
    | |- context [HM_unlinkChunk ?st _] => set (s4 := st)
    end.
    destruct (move_chunk_and_trail s4 (HM_getChunkOf op) c src l tgt
                {| chunkIds := [a0]; level := level l; isInToSpace := true;
                   containingHH := COPY_OBJECT_HH_VALUE |}
                a1 e1 rest GC_HEAP_LIMIT_SLOP)
      as (s' & lsrc & c' & ct & Hmove & Hobjs & Hlt' & Hlsrc & Hgone &
          Hc' & Hlh' & Hflag' & Hct & Hlhct & Hslop).
    { subst s4. cbn [chunks set_chunkLists set_chunks set_freeChunks].
      by rewrite lookup_insert_ne by congruence. }
    { done. }
    { subst s4. cbn [chunkLists set_chunkLists set_chunks set_freeChunks].
      rewrite !lookup_insert_ne by congruence. by rewrite Hlists1. }
    { subst s4. cbn [chunkLists set_chunkLists set_chunks set_freeChunks].
      by rewrite lookup_insert_eq. }
    { done. }
    { done. }
    { done. }
    destruct (HM_unlinkChunk s4 (HM_getChunkOf op)) as [s5| | |];
      rsimpl in Hmove; try discriminate; rsimpl.
    destruct (HM_appendChunk s5 tgt (HM_getChunkOf op)) as [s6| | |];
      rsimpl in Hmove; try discriminate; rsimpl.
    rewrite Hmove. rsimpl.
    eexists s', _, s1, _, _, _, tgt, _, [a0], a1, lsrc, c', ct, o1.
    split; [reflexivity|]. split; [reflexivity|].
    rewrite Hobjs. subst s4.
    cbn [objects set_objects set_chunkLists set_chunks set_freeChunks
         toSpace account_moved set_toSpace objectsMoved bytesMoved
         objectsCopied bytesCopied].
    rewrite lookup_insert_eq, Hom1, Hbm1, Hoc1, Hbc1.
    repeat split; try done; congruence.
Qed.

End SingleObjectChunk.

(** ** The sizes handed to copyObject *)

Section CopySizes.
Import HHC.
Context `{Runtime}.



End CopySizes.

(** ** Weak fixup *)

Section WeakFixup.
Import Cheney.
Context `{ObjectModel}.

Lemma weak_chain_functional s w ws1 ws2 :
  weak_chain s w ws1 -> weak_chain s w ws2 -> ws1 = ws2.
Proof.
  intros Hc1. revert ws2. induction Hc1 as [|w wk ws Hw Hwk Hc IH]; intros ws2 Hc2.
  - inversion Hc2; [done|]. congruence.
  - inversion Hc2 as [|w' wk' ws' Hw' Hwk' Hc']; subst; [done|].
    f_equal. apply IH. congruence.
Qed.

Lemma weak_chain_from_member s w ws w' :
  weak_chain s w ws -> w' ∈ ws ->
  exists ws', weak_chain s w' ws' /\ (length ws' <= length ws)%nat.
Proof.
  induction 1 as [|w wk ws Hw Hwk Hc IH]; intros Hin.
  - by apply elem_of_nil in Hin.
  - apply elem_of_cons in Hin as [->|Hin].
    + exists (w :: ws). split; [by econstructor|done].
    + destruct (IH Hin) as (ws' & Hc' & Hlen). exists ws'. split; [done|].
      simpl. lia.
Qed.

(** A chain that reaches [NULL] visits no weak twice. *)
Lemma weak_chain_NoDup s w ws : weak_chain s w ws -> NoDup ws.
Proof.
  induction 1 as [|w wk ws Hw Hwk Hc IH]; constructor; [|done].
  intros Hin.
  destruct (weak_chain_from_member _ _ _ _ Hc Hin) as (ws' & Hc' & Hlen).
  assert (weak_chain s w (w :: ws)) as Hfull by (by econstructor).
  pose proof (weak_chain_functional _ _ _ _ Hc' Hfull) as ->.
  simpl in Hlen. lia.
Qed.

Lemma weak_chain_in_heap s w ws w' :
  weak_chain s w ws -> w' ∈ ws -> is_Some (weakStructs s !! w').
Proof.
  induction 1 as [|w wk ws Hw Hwk Hc IH]; intros Hin.
  - by apply elem_of_nil in Hin.
  - apply elem_of_cons in Hin as [->|Hin]; [eauto|by apply IH].
Qed.

Lemma weak_chain_length s w ws :
  weak_chain s w ws -> (length ws <= size (weakStructs s))%nat.
Proof.
  intros Hc. pose proof (weak_chain_NoDup _ _ _ Hc) as Hnd.
  rewrite <- size_dom.
  rewrite <- (size_list_to_set (C := gset Z) ws Hnd).
  apply subseteq_size. intros x Hx. apply elem_of_list_to_set in Hx.
  apply elem_of_dom. by eapply weak_chain_in_heap.
Qed.

(** The chain only depends on the [link] fields of its own weaks. *)
Lemma weak_chain_agree s t w ws :
  weak_chain s w ws ->
  (forall w' wk, w' ∈ ws -> weakStructs s !! w' = Some wk ->
     exists wk', weakStructs t !! w' = Some wk' /\ w_link wk' = w_link wk) ->
  weak_chain t w ws.
Proof.
  induction 1 as [|w wk ws Hw Hwk Hc IH]; intros Hagree; [constructor|].
  destruct (Hagree w wk) as (wk' & Hwk' & Hlink); [by left|done|].
  econstructor; [done|exact Hwk'|]. rewrite Hlink. apply IH.
  intros w' wk0 Hin Hwk0. apply Hagree; [by right|done].
Qed.

Lemma after_body_headers t t1 w wk v q :
  GC_WEAK_GONE_HEADER <> GC_FORWARDED ->
  headers t !! (w - offsetofWeak) <> Some GC_FORWARDED ->
  after_body t t1 w wk v ->
  (headers t1 !! q = Some GC_FORWARDED <-> headers t !! q = Some GC_FORWARDED)
  /\ (is_Some (headers t !! q) -> is_Some (headers t1 !! q))
  /\ (headers t !! q = Some GC_WEAK_GONE_HEADER ->
      headers t1 !! q = Some GC_WEAK_GONE_HEADER).
Proof.
  intros Hgone Hown (_ & _ & _ & _ & [-> | ->]); [done|].
  destruct (decide (q = w - offsetofWeak)) as [->|Hq].
  - rewrite lookup_insert_eq. repeat split; try done; try congruence.
  - by rewrite lookup_insert_ne by congruence.
Qed.

(** The loop, from any of its states [t] with the weaks [ws] still to
    visit. *)
Lemma updateWeaks_loop_spec ws : forall fuel t w,
  GC_WEAK_GONE_HEADER <> GC_FORWARDED ->
  weak_chain t w ws ->
  (length ws <= fuel)%nat ->
  referents_readable t ws ->
  weaks_not_forwarded t ws ->
  exists t',
    updateWeaks_loop fuel t w = Ok t' /\
    weaks t' = weaks t /\
    (forall w', w' ∉ ws -> weakStructs t' !! w' = weakStructs t !! w') /\
    (forall q, headers t !! q = Some GC_WEAK_GONE_HEADER ->
               headers t' !! q = Some GC_WEAK_GONE_HEADER) /\
    (forall w0 wk, w0 ∈ ws -> weakStructs t !! w0 = Some wk ->
                   weak_fixed t t' w0 wk).
Proof.
  induction ws as [|w0 ws IH]; intros fuel t w Hgone Hchain Hfuel Hread Hown.
  - inversion Hchain; subst. exists t. split.
    { by destruct fuel. }
    repeat split; try done. intros ? ? Hin. by apply elem_of_nil in Hin.
  - inversion Hchain as [|w' wk ws' Hnull Hwk Hrest]; subst.
    destruct fuel as [|fuel]; [simpl in Hfuel; lia|].
    pose proof (weak_chain_NoDup _ _ _ Hchain) as Hnd.
    apply NoDup_cons in Hnd as [Hnotin Hnd].
    assert (forall w', w' ∈ ws -> w' <> w0) as Hother
      by (intros w' Hin ->; done).
    assert (Hcont : forall t1 v,
      after_body t t1 w0 wk v ->
      (headers t !! referent t wk = Some GC_FORWARDED ->
         Some v = words t !! referent t wk) ->
      (headers t !! referent t wk <> Some GC_FORWARDED ->
         v = BOGUS_OBJPTR /\
         headers t1 !! (w0 - offsetofWeak) = Some GC_WEAK_GONE_HEADER) ->
      exists t',
        (w_link <$> deref (weakStructs t1 !! w0)) ≫=
          (λ next, updateWeaks_loop fuel t1 next) = Ok t' /\
        weaks t' = weaks t /\
        (forall w', w' ∉ w0 :: ws ->
           weakStructs t' !! w' = weakStructs t !! w') /\
        (forall q, headers t !! q = Some GC_WEAK_GONE_HEADER ->
                   headers t' !! q = Some GC_WEAK_GONE_HEADER) /\
        (forall w1 wk1, w1 ∈ w0 :: ws -> weakStructs t !! w1 = Some wk1 ->
                        weak_fixed t t' w1 wk1)).
    { intros t1 v Hab Hf Hnf.
      pose proof (fun q => after_body_headers t t1 w0 wk v q Hgone
                             (Hown w0 ltac:(by left)) Hab) as Hhdrs.
      destruct Hab as (Hws1 & Hwords1 & Hstart1 & Hweaks1 & _).
      rewrite Hws1, lookup_insert_eq. rsimpl. cbn [w_link].
      destruct (IH fuel t1 (w_link wk))
        as (t' & Hloop & Hweaks' & Hframe & Hgone' & Hfixed).
      - done.
      - eapply weak_chain_agree; [exact Hrest|].
        intros w' wk' Hin Hwk'. exists wk'. split; [|done].
        rewrite Hws1, lookup_insert_ne; [done|]. intros <-. by apply Hnotin.
      - simpl in Hfuel. lia.
      - intros w' wk' Hin Hwk'.
        rewrite Hws1, lookup_insert_ne in Hwk'
          by (intros <-; by apply Hnotin).
        destruct (Hread w' wk') as (hdr & Hhdr & Hw); [by right|done|].
        unfold referent in *. rewrite Hstart1, Hwords1.
        destruct (Hhdrs (objptrToPointer (w_objptr wk') (heap_start t)))
          as (Hiff & Hsome & _).
        destruct Hsome as [hdr1 Hhdr1]; [eauto|].
        exists hdr1. split; [done|]. intros ->.
        apply Hw. apply Hiff in Hhdr1. congruence.
      - intros w' Hin Habs. apply (Hown w'); [by right|].
        by apply (Hhdrs (w' - offsetofWeak)).
      - exists t'. split; [done|]. split; [congruence|]. split.
        { intros w' Hnotin'. rewrite Hframe.
          - rewrite Hws1, lookup_insert_ne; [done|].
            intros <-. apply Hnotin'. by left.
          - intros Hin. apply Hnotin'. by right. }
        split.
        { intros q Hq. apply Hgone'. by apply Hhdrs. }
        intros w1 wk1 Hin Hwk1. apply elem_of_cons in Hin as [->|Hin].
        + assert (wk1 = wk) as -> by congruence.
          exists {| w_objptr := v; w_link := w_link wk |}. split.
          { rewrite Hframe by done. by rewrite Hws1, lookup_insert_eq. }
          split; [exact Hf|]. intros Hn. destruct (Hnf Hn) as [-> Hg].
          split; [done|]. by apply Hgone'.
        + destruct (Hfixed w1 wk1 Hin) as (wk1' & Hwk1' & Hfw & Hnfw).
          { rewrite Hws1, lookup_insert_ne; [done|].
            intros <-. by apply Hnotin. }
          exists wk1'. unfold referent in *.
          rewrite Hstart1, Hwords1 in *. split; [done|]. split.
          * intros Hq. apply Hfw. by apply Hhdrs.
          * intros Hq. apply Hnfw. intros Habs. apply Hq. by apply Hhdrs. }
    cbn [updateWeaks_loop]. rewrite bool_decide_false by done.
    rewrite Hwk. rsimpl.
    destruct (Hread w0 wk) as (hdr & Hhdr & Hw); [by left|done|].
    fold (referent t wk). rewrite Hhdr. rsimpl.
    case_bool_decide as Hfw.
    + subst hdr. destruct (Hw eq_refl) as [fwd Hfwd]. rewrite Hfwd. rsimpl.
      unfold store_w_objptr. rewrite Hwk. rsimpl.
      apply (Hcont _ fwd).
      * repeat split. by left.
      * intros _. by rewrite Hfwd.
      * intros Hn. congruence.
    + unfold store_w_objptr. cbn [weakStructs set_headers]. rewrite Hwk.
      rsimpl. apply (Hcont _ BOGUS_OBJPTR).
      * repeat split. by right.
      * intros Habs. rewrite Hhdr in Habs. congruence.
      * intros _. split; [done|]. cbn. by rewrite lookup_insert_eq.
Qed.

(** C7: let [ws] be the weaks of the chain [s->weaks] when
    [updateWeaksForCheneyCopy] starts.  The function returns.  For every
    [w] in [ws]: if the header of its referent was [GC_FORWARDED] then
    [w->objptr] is now the forwarding pointer read from the referent;
    otherwise the header of the weak object is [GC_WEAK_GONE_HEADER] and
    [w->objptr] is [BOGUS_OBJPTR].  At the end [s->weaks] is [NULL]. *)
Theorem updateWeaksForCheneyCopy_spec s ws :
  GC_WEAK_GONE_HEADER <> GC_FORWARDED ->
  weak_chain s (weaks s) ws ->
  referents_readable s ws ->
  weaks_not_forwarded s ws ->
  exists s',
    updateWeaksForCheneyCopy s = Ok s' /\
    weaks s' = NULL /\
    forall w wk, w ∈ ws -> weakStructs s !! w = Some wk ->
      exists wk',
        weakStructs s' !! w = Some wk' /\
        (headers s !! referent s wk = Some GC_FORWARDED ->
           Some (w_objptr wk') = words s !! referent s wk) /\
        (headers s !! referent s wk <> Some GC_FORWARDED ->
           w_objptr wk' = BOGUS_OBJPTR /\
           headers s' !! (w - offsetofWeak) = Some GC_WEAK_GONE_HEADER).
Proof.
  intros Hgone Hchain Hread Hown.
  destruct (updateWeaks_loop_spec ws (size (weakStructs s)) s (weaks s)
              Hgone Hchain (weak_chain_length _ _ _ Hchain) Hread Hown)
    as (t' & Hloop & _ & _ & _ & Hfixed).
  exists (set_weaks t' NULL). split.
  { unfold updateWeaksForCheneyCopy. by rewrite Hloop. }
  split; [done|]. intros w wk Hin Hwk. exact (Hfixed w wk Hin Hwk).
Qed.

End WeakFixup.

(** ** Witnesses on the concrete instances *)

Section Instances.
Import HHC Example.

(** C4, as stated, fails on a weak object: the object is alone in its
    chunk, at level 2 of a collection of the levels 1 to 3 and not in the
    to-space, and [forwardHHObjptr] aborts ("does not support WEAK_TAG
    objects") instead of moving the chunk. *)
Lemma forwardHHObjptr_weak_single_object_chunk_aborts :
  (exists c l,
     chunks (heap_with a_weak) !! @HM_getChunkOf runtime64 8264 = Some c /\
     mightContainMultipleObjects c = false /\
     @HM_getLevelHead runtime64 (heap_with a_weak) 8264 = Ok (100, l) /\
     isInToSpace l = false /\
     minLevel fresh_args <= level l <= maxLevel fresh_args) /\
  @isObjptr runtime64 8264 = true /\
  @isObjptrInRootHeap runtime64 8264 = false /\
  @forwardHHObjptr runtime64 (heap_with a_weak) fresh_args 8264 =
    Die DieWeakTag.
Proof.
  split.
  { eexists _, _. split; [reflexivity|]. split; [reflexivity|].
    split; [reflexivity|]. split; [reflexivity|]. simpl. lia. }
  split; [reflexivity|]. split; [reflexivity|]. vm_compute. reflexivity.
Qed.

Lemma forwardHHObjptr_moves_single_object_chunk_witness :
  exists s' args',
    @forwardHHObjptr runtime64 (heap_with a_stack) fresh_args 8264 =
      Ok (s', args', 8264) /\
    objectsMoved args' = 1 /\ objectsCopied args' = 0 /\
    bytesCopied args' = 0 /\
    exists tgt lt pre trailing,
      toSpace args' !! 2 = Some tgt /\
      chunkLists s' !! tgt = Some lt /\
      chunkIds lt = pre ++ [8192; trailing].
Proof.
  destruct (@forwardHHObjptr_moves_single_object_chunk runtime64
              (heap_with a_stack) fresh_args 8264 a_stack STACK_TAG 0 0
              {| frontier := 8396; limit := 12288;
                 mightContainMultipleObjects := false;
                 levelHead := Some 100 |}
              100
              {| chunkIds := [8192]; level := 2; isInToSpace := false;
                 containingHH := 1 |})
    as (s' & args' & s1 & objectBytes & copyBytes & metaDataBytes &
        tgt & lt & pre & trailing & lsrc & c' & ct & o' &
        Hfwd & _ & _ & _ & HtoSpace & Hlt & _ & Hids & _ & _ & _ & _ & _ &
        _ & _ & _ & _ & Hom & _ & Hoc & Hbc).
  - reflexivity.
  - reflexivity.
  - reflexivity.
  - reflexivity.
  - reflexivity.
  - discriminate.
  - reflexivity.
  - reflexivity.
  - reflexivity.
  - reflexivity.
  - reflexivity.
  - simpl. lia.
  - unfold target_ready. simpl.
    exists 16384, 0%N, 20480, 0%N, []. split; [reflexivity|].
    split; discriminate.
  - exists s', args'. split; [exact Hfwd|]. split; [exact Hom|].
    split; [exact Hoc|]. split; [exact Hbc|].
    exists tgt, lt, pre, trailing. split; [exact HtoSpace|].
    split; [exact Hlt|exact Hids].
Defined.

Lemma forwardHHObjptr_entanglement_witness :
  @forwardHHObjptr runtime64 (heap_with a_stack) shallow_args 8264 =
    Die DieEntanglement /\
  @forwardHHObjptr runtime64 (heap_with a_stack) fresh_args 8264 <>
    Die DieEntanglement.
Proof.
  split.
  - apply (proj1 (@forwardHHObjptr_entanglement runtime64
                    (heap_with a_stack) shallow_args 8264 2
                    eq_refl eq_refl eq_refl)).
    simpl. lia.
  - apply (proj2 (@forwardHHObjptr_entanglement runtime64
                    (heap_with a_stack) fresh_args 8264 2
                    eq_refl eq_refl eq_refl)).
    simpl. lia.
Defined.

Lemma computeObjectCopyParameters_stack_shrinks_witness :
  exists s' o',
    @computeObjectCopyParameters runtime64 (heap_with a_stack) 8264 =
      Ok (s', (STACK_TAG, 82, 72, 8)) /\
    objects s' !! 8264 = Some o' /\
    reserved (stack o') = 50 /\ used (stack o') = 40.
Proof.
  destruct (@computeObjectCopyParameters_stack_shrinks runtime64
              (heap_with a_stack) 8264 a_stack 0 0)
    as (s' & o' & objectSize & copySize &
        Heq & Ho' & _ & Hres & Hused & Hos & Hcs).
  - reflexivity.
  - reflexivity.
  - unfold stack_sizes_nonneg. simpl. lia.
  - unfold stack_fits, U64_MODULUS. simpl. lia.
  - exists s', o'. rewrite Hos, Hcs, Hres, Hused in Heq.
    split; [exact Heq|]. split; [exact Ho'|].
    split; [exact Hres|exact Hused].
Defined.



End Instances.

Section WeakInstances.
Import Cheney Example.

Lemma updateWeaksForCheneyCopy_spec_witness :
  exists s',
    @updateWeaksForCheneyCopy objectModel64 two_weaks = Ok s' /\
    weaks s' = NULL /\
    (exists wk', weakStructs s' !! 1000 = Some wk' /\ w_objptr wk' = 7000) /\
    (exists wk', weakStructs s' !! 2000 = Some wk' /\ w_objptr wk' = 1 /\
                 headers s' !! 1992 = Some 7).
Proof.
  destruct (@updateWeaksForCheneyCopy_spec objectModel64 two_weaks
              [1000; 2000])
    as (s' & Hrun & Hweaks & Hfixed).
  - discriminate.
  - apply (weak_chain_cons two_weaks 1000
             {| w_objptr := 5000; w_link := 2000 |} [2000]);
      [discriminate|reflexivity|].
    apply (weak_chain_cons two_weaks 2000
             {| w_objptr := 6000; w_link := 0 |} []);
      [discriminate|reflexivity|].
    apply weak_chain_nil.
  - intros w wk Hin Hwk.
    apply elem_of_cons in Hin as [->|Hin];
      [|apply elem_of_cons in Hin as [->|Hin];
        [|by apply elem_of_nil in Hin]];
      vm_compute in Hwk; injection Hwk as <-.
    + exists (2 ^ 64 - 1). split; [reflexivity|]. intros _. by exists 7000.
    + exists 21. split; [reflexivity|]. discriminate.
  - intros w Hin.
    apply elem_of_cons in Hin as [->|Hin];
      [|apply elem_of_cons in Hin as [->|Hin];
        [|by apply elem_of_nil in Hin]];
      vm_compute; discriminate.
  - exists s'. split; [exact Hrun|]. split; [exact Hweaks|]. split.
    + destruct (Hfixed 1000 {| w_objptr := 5000; w_link := 2000 |})
        as (wk' & Hwk' & Hfw & _); [by left|reflexivity|].
      exists wk'. split; [exact Hwk'|].
      specialize (Hfw eq_refl). vm_compute in Hfw. by injection Hfw.
    + destruct (Hfixed 2000 {| w_objptr := 6000; w_link := 0 |})
        as (wk' & Hwk' & _ & Hnfw); [by right; left|reflexivity|].
      exists wk'. split; [exact Hwk'|].
      apply Hnfw. vm_compute. discriminate.
Defined.

End WeakInstances.

(** ** The mutator's entry point *)

Section EnsureAssurances.
Import LocalHeap.
Context `{Collaborators}.

(** C8, the calls: [HM_ensureHierarchicalHeapAssurances] calls the local
    collector exactly when it has not aborted on [limitPlusSlop <
    frontier] and [forceGC || desiredScope <= hh->level] holds; the call
    it makes is [HM_HHC_collectLocal (desiredScope)], with one argument:
    [forceGC] is not passed on. *)
Theorem ensure_calls_collectLocal_without_force
    (s : GC_state world) (forceGC : bool) (bytesRequested : Z)
    (ensureCurrentLevel : bool) :
  fst (HM_ensureHierarchicalHeapAssurances s forceGC bytesRequested
         ensureCurrentLevel) =
    let s0 := HM_HH_updateValues s (frontier s) in
    if limitPlusSlop s0 <? frontier s0 then []
    else if forceGC ||
            (HM_HH_desiredCollectionScope s0 <=? level (hh s0))
    then [Call_HM_HHC_collectLocal (HM_HH_desiredCollectionScope s0) None]
    else [].
Proof.
  unfold HM_ensureHierarchicalHeapAssurances.
  destruct (negb (invariantForMutatorStack s)); cbv zeta;
    destruct (_ <? _); try done; destruct (_ || _); done.
Qed.

(** What the collection branch leaves behind, up to the final
    [setGCStateCurrentThreadAndStack]: [bytesAllocatedSinceLastCollection]
    is 0 and the frontier and limits are those of [hh->lastAllocatedChunk],
    or [NULL] when there is no such chunk. *)
Lemma collect_resets_and_republishes (s s1 : GC_state world) (d : Z) :
  HM_HHC_collectLocal d None s = Ok s1 ->
  exists s2,
    collect s d = Ok (setGCStateCurrentThreadAndStack s2) /\
    bytesAllocatedSinceLastCollection (hh s2) = 0 /\
    lastAllocatedChunk (hh s2) = lastAllocatedChunk (hh s1) /\
    rest s2 = rest s1 /\
    (lastAllocatedChunk (hh s1) = NULL ->
       frontier s2 = NULL /\ limitPlusSlop s2 = NULL /\ limit s2 = NULL) /\
    (lastAllocatedChunk (hh s1) <> NULL ->
       limit s2 = limitPlusSlop s2 - GC_HEAP_LIMIT_SLOP).
Proof.
  intros Hcollect. unfold collect. rewrite Hcollect. rsimpl.
  eexists. split; [reflexivity|].
  cbn [hh set_hh lastAllocatedChunk].
  case_bool_decide as Hnull.
  - repeat split; try done; intros; congruence.
  - repeat split; try done; intros; congruence.
Qed.

End EnsureAssurances.

(** * Further properties *)

(** ** The deque holds a sequence *)

Section DequeAsSequence.
Import ChaseLev DequeContents.

Lemma slots_distinct (i j : Z) :
  0 < j - i < CAP -> Z.to_nat (i mod CAP) <> Z.to_nat (j mod CAP).
Proof.
  unfold CAP. intros Hij Heq.
  pose proof (Z.mod_pos_bound i 64 ltac:(lia)).
  pose proof (Z.mod_pos_bound j 64 ltac:(lia)).
  pose proof (Z.div_mod i 64 ltac:(lia)).
  pose proof (Z.div_mod j 64 ltac:(lia)).
  assert (i mod 64 = j mod 64) by lia. lia.
Qed.

(** The contents only depend on the slots between [top] and [bot]. *)
Lemma contents_agree (d d' : deque) :
  top d' = top d -> bot d' = bot d ->
  (forall i, top d <= i < bot d ->
     load_data d' (i mod CAP) = load_data d (i mod CAP)) ->
  contents d' = contents d.
Proof.
  intros Htop Hbot Hslots. unfold contents. rewrite Htop, Hbot.
  apply Forall_fmap_ext, Forall_seqZ. intros i Hi. apply Hslots. lia.
Qed.

Lemma contents_empty (d : deque) : bot d <= top d -> contents d = [].
Proof. intros Hle. unfold contents. by rewrite seqZ_nil by lia. Qed.

Lemma contents_top (d : deque) :
  top d < bot d ->
  contents d =
    load_data d (top d mod CAP) ::
    contents {| top := top d + 1; bot := bot d; data := data d |}.
Proof.
  intros Hlt. unfold contents. cbn [top bot].
  rewrite seqZ_cons by lia. rewrite fmap_cons. f_equal.
  replace (Z.succ (top d)) with (top d + 1) by lia.
  replace (Z.pred (bot d - top d)) with (bot d - (top d + 1)) by lia.
  done.
Qed.

Lemma contents_bot (d : deque) :
  top d < bot d ->
  contents d =
    contents {| top := top d; bot := bot d - 1; data := data d |} ++
    [load_data d ((bot d - 1) mod CAP)].
Proof.
  intros Hlt. unfold contents. cbn [top bot].
  replace (bot d - top d) with ((bot d - 1 - top d) + 1) at 1 by lia.
  rewrite seqZ_app by lia. rewrite fmap_app. f_equal.
  replace (top d + (bot d - 1 - top d)) with (bot d - 1) by lia.
  done.
Qed.

(** X1: on a deque that satisfies the invariant and is not full,
    [ChaseLev_pushBot] succeeds.  When [bot < 2^64 - 1] it appends the
    element at the bottom of the sequence the deque holds: no element that
    is still in the deque is overwritten, and the deque invariant is kept.
    When [bot = 2^64 - 1] the increment wraps [bot] around to 0 and the
    invariant is lost. *)
Theorem pushBot_contents (d : deque) (v : objptr) :
  deque_inv d ->
  bot d - top d < CAP ->
  fst (ChaseLev_pushBot d v) = true /\
  (bot d + 1 < U64_MODULUS ->
     contents (snd (ChaseLev_pushBot d v)) = contents d ++ [v] /\
     deque_inv (snd (ChaseLev_pushBot d v))) /\
  (bot d + 1 = U64_MODULUS ->
     bot (snd (ChaseLev_pushBot d v)) = 0 /\
     ~ deque_inv (snd (ChaseLev_pushBot d v))).
Proof.
  intros (Htop & Hle & Hbot & Hcap & Hlen) Hroom.
  rewrite (pushBot_room d v Hlen) by (rewrite sub64_exact by lia; lia).
  cbn [fst snd]. split; [done|]. split.
  - intros Hnext.
    assert (add64 (bot d) 1 = bot d + 1) as ->.
    { apply wrap64_small. unfold is_u64. lia. }
    split.
    + rewrite (contents_bot
                 {| top := top d; bot := bot d + 1;
                    data := <[Z.to_nat (bot d mod CAP):=v]> (data d) |})
        by (cbn [top bot]; lia).
      cbn [top bot data]. replace (bot d + 1 - 1) with (bot d) by lia.
      f_equal.
      * apply contents_agree; [done|done|].
        intros i Hi. unfold load_data. cbn [data].
        rewrite list_lookup_insert_ne; [done|].
        intros Heq. apply (slots_distinct i (bot d)); [lia|done].
      * unfold load_data. cbn [data].
        rewrite list_lookup_insert_eq; [done|]. by apply slot_in_range.
    + unfold deque_inv, getSequenceLength in *. cbn [top bot data].
      rewrite length_insert. lia.
  - intros Hwrap.
    assert (add64 (bot d) 1 = 0) as ->.
    { unfold add64, wrap64. rewrite Hwrap. apply Z.mod_same.
      unfold U64_MODULUS. lia. }
    cbn [bot]. split; [done|].
    unfold deque_inv. cbn [top bot]. unfold CAP, U64_MODULUS in *. lia.
Qed.

Lemma pushBot_contents_witness :
  fst (ChaseLev_pushBot (mkDeque 3 5 (replicate 64 0)) 9) = true /\
  (5 + 1 < U64_MODULUS ->
     contents (snd (ChaseLev_pushBot (mkDeque 3 5 (replicate 64 0)) 9)) =
       contents (mkDeque 3 5 (replicate 64 0)) ++ [9] /\
     deque_inv (snd (ChaseLev_pushBot (mkDeque 3 5 (replicate 64 0)) 9))) /\
  (5 + 1 = U64_MODULUS ->
     bot (snd (ChaseLev_pushBot (mkDeque 3 5 (replicate 64 0)) 9)) = 0 /\
     ~ deque_inv (snd (ChaseLev_pushBot (mkDeque 3 5 (replicate 64 0)) 9))).
Proof.
  apply (pushBot_contents (mkDeque 3 5 (replicate 64 0)) 9).
  - unfold deque_inv, getSequenceLength, CAP, U64_MODULUS. simpl. lia.
  - unfold CAP. simpl. lia.
Defined.

(** X2: on a deque that is not empty, a thief's [ChaseLev_tryPopTop] that
    nothing interferes with returns the first element of the sequence and
    leaves the others; only [top] changes, and the invariant is kept. *)
Theorem tryPopTop_contents (d : deque) (fail_value : objptr) :
  deque_inv d ->
  top d < bot d ->
  contents d =
    fst (ChaseLev_tryPopTop d fail_value) ::
    contents (snd (ChaseLev_tryPopTop d fail_value)) /\
  snd (ChaseLev_tryPopTop d fail_value) =
    {| top := top d + 1; bot := bot d; data := data d |} /\
  deque_inv (snd (ChaseLev_tryPopTop d fail_value)).
Proof.
  intros (Htop & Hle & Hbot & Hcap & Hlen) Hlt.
  unfold ChaseLev_tryPopTop, cas_top, store_top.
  destruct (Z.ltb_spec (top d) (bot d)); [|lia].
  rewrite Z.eqb_refl.
  assert (add64 (top d) 1 = top d + 1) as ->.
  { apply wrap64_small. unfold is_u64. lia. }
  cbn [fst snd]. split; [by apply contents_top|]. split; [done|].
  unfold deque_inv, getSequenceLength in *. cbn [top bot data]. lia.
Qed.

Lemma tryPopTop_contents_witness :
  contents (mkDeque 3 5 (replicate 64 7)) =
    fst (ChaseLev_tryPopTop (mkDeque 3 5 (replicate 64 7)) 1) ::
    contents (snd (ChaseLev_tryPopTop (mkDeque 3 5 (replicate 64 7)) 1)).
Proof.
  apply (tryPopTop_contents (mkDeque 3 5 (replicate 64 7)) 1).
  - unfold deque_inv, getSequenceLength, CAP, U64_MODULUS. simpl. lia.
  - simpl. lia.
Defined.

(** X3: on a deque that is not empty, the owner's [ChaseLev_tryPopBot]
    that nothing interferes with returns the last element of the sequence
    and leaves the others; the invariant is kept.  With two elements or
    more only [bot] changes, to [bot - 1]; with one element [bot] is what it
    was and [top] has moved up to it. *)
Theorem tryPopBot_contents (d : deque) (fail_value : objptr) :
  deque_inv d ->
  top d < bot d ->
  contents d =
    contents (snd (ChaseLev_tryPopBot d fail_value)) ++
    [fst (ChaseLev_tryPopBot d fail_value)] /\
  snd (ChaseLev_tryPopBot d fail_value) =
    (if top d =? bot d - 1
     then {| top := bot d; bot := bot d; data := data d |}
     else {| top := top d; bot := bot d - 1; data := data d |}) /\
  deque_inv (snd (ChaseLev_tryPopBot d fail_value)).
Proof.
  intros (Htop & Hle & Hbot & Hcap & Hlen) Hlt.
  unfold ChaseLev_tryPopBot, cas_top, store_top, store_bot. cbn [top bot data].
  rewrite (sub64_exact (bot d) 1) by lia.
  destruct (Z.leb_spec (top d) (bot d - 1)); [|lia].
  assert (forall t b, load_data {| top := t; bot := b; data := data d |}
                        ((bot d - 1) mod CAP) =
                      load_data d ((bot d - 1) mod CAP)) as Hload by done.
  rewrite Hload.
  destruct (Z.eqb_spec (top d) (bot d - 1)) as [Heq|Hne].
  - rewrite Z.eqb_refl. cbn [fst snd top bot data].
    assert (add64 (top d) 1 = bot d) as ->.
    { unfold add64. rewrite wrap64_small; unfold is_u64; lia. }
    assert (add64 (bot d - 1) 1 = bot d) as ->.
    { unfold add64. rewrite wrap64_small; unfold is_u64; lia. }
    split.
    + rewrite (contents_bot d) by lia.
      rewrite !contents_empty by (cbn [top bot]; lia). done.
    + split; [done|].
      unfold deque_inv, getSequenceLength in *. cbn [top bot data]. lia.
  - cbn [fst snd]. split; [by apply contents_bot|]. split; [done|].
    unfold deque_inv, getSequenceLength in *. cbn [top bot data]. lia.
Qed.

Lemma tryPopBot_contents_witness :
  contents (mkDeque 3 5 (replicate 64 7)) =
    contents (snd (ChaseLev_tryPopBot (mkDeque 3 5 (replicate 64 7)) 1)) ++
    [fst (ChaseLev_tryPopBot (mkDeque 3 5 (replicate 64 7)) 1)].
Proof.
  apply (tryPopBot_contents (mkDeque 3 5 (replicate 64 7)) 1).
  - unfold deque_inv, getSequenceLength, CAP, U64_MODULUS. simpl. lia.
  - simpl. lia.
Defined.

End DequeAsSequence.

Section DequeComposition.
Import ChaseLev DequeContents LocalScope.

(** X4: on a deque that satisfies the invariant and is not full, a
    push followed by the owner's pop gives the indices back when the deque
    held something before; on an empty deque at [k] the two end at
    [top = bot = k + 1] as [uint64_t] (0 for [k = 2^64 - 1]): the empty
    deque has moved one index up.  The pushed element stays in its slot. *)
Theorem pushBot_tryPopBot_indices (d : deque) (v fail_value : objptr) :
  deque_inv d ->
  bot d - top d < CAP ->
  snd (ChaseLev_tryPopBot (snd (ChaseLev_pushBot d v)) fail_value) =
    (if top d =? bot d
     then {| top := add64 (bot d) 1; bot := add64 (bot d) 1;
             data := <[Z.to_nat (bot d mod CAP) := v]> (data d) |}
     else {| top := top d; bot := bot d;
             data := <[Z.to_nat (bot d mod CAP) := v]> (data d) |}).
Proof.
  intros (Htop & Hle & Hbot & Hcap & Hlen) Hroom.
  rewrite (pushBot_room d v Hlen) by (rewrite sub64_exact by lia; lia).
  cbn [snd]. unfold ChaseLev_tryPopBot, cas_top, store_top, store_bot.
  cbn [top bot data].
  rewrite sub64_add64_one by (unfold is_u64; lia).
  destruct (Z.leb_spec (top d) (bot d)); [|lia].
  destruct (Z.eqb_spec (top d) (bot d)) as [Heq|Hne].
  - rewrite Z.eqb_refl. cbn [snd top bot data]. by rewrite Heq.
  - done.
Qed.

Lemma pushBot_tryPopBot_indices_witness :
  snd (ChaseLev_tryPopBot
         (snd (ChaseLev_pushBot (mkDeque 5 5 (replicate 64 0)) 9)) 1) =
    mkDeque 6 6 (<[5%nat := 9]> (replicate 64 0)).
Proof.
  apply (pushBot_tryPopBot_indices (mkDeque 5 5 (replicate 64 0)) 9 1).
  - unfold deque_inv, getSequenceLength, CAP, U64_MODULUS. simpl. lia.
  - unfold CAP. simpl. lia.
Defined.

(** X5: on an empty deque ([top = bot]) with [CAP] slots,
    [ChaseLev_setDepth] to a [uint64_t] value [x] leaves a deque that
    satisfies the invariant and holds nothing, whose local scope polls as
    [x], and on which the next push succeeds, keeps [top = x] and moves
    [bot] to [x + 1] as [uint64_t].  When [x < 2^64 - 1] that is [x + 1]
    and the deque holds the pushed element only; when [x = 2^64 - 1] it
    is 0. *)
Theorem setDepth_then_pushBot (d : deque) (x v : Z) :
  top d = bot d ->
  getSequenceLength d = CAP ->
  0 <= x < U64_MODULUS ->
  exists d',
    ChaseLev_setDepth d x = Ok d' /\
    deque_inv d' /\
    contents d' = [] /\
    pollCurrentLocalScope d' = x /\
    fst (ChaseLev_pushBot d' v) = true /\
    top (snd (ChaseLev_pushBot d' v)) = x /\
    bot (snd (ChaseLev_pushBot d' v)) = add64 x 1 /\
    (x + 1 < U64_MODULUS ->
       bot (snd (ChaseLev_pushBot d' v)) = x + 1 /\
       contents (snd (ChaseLev_pushBot d' v)) = [v]) /\
    (x + 1 = U64_MODULUS -> bot (snd (ChaseLev_pushBot d' v)) = 0).
Proof.
  intros Hempty Hlen Hx.
  assert (ChaseLev_setDepth d x = Ok (mkDeque x x (data d))) as Hset.
  { unfold ChaseLev_setDepth, ChaseLev_setDepth_stores.
    rewrite Hempty, Z.eqb_refl. cbn [negb].
    destruct (Z.eqb_spec x (bot d)) as [->|Hne].
    - simpl. destruct d; simpl in *; by subst.
    - by destruct (Z.ltb_spec x (bot d)). }
  exists (mkDeque x x (data d)). split; [done|].
  assert (deque_inv (mkDeque x x (data d))) as Hinv.
  { unfold deque_inv, getSequenceLength in *. cbn [top bot data].
    unfold CAP in *. lia. }
  split; [done|]. split; [by apply contents_empty|]. split; [done|].
  rewrite (pushBot_room (mkDeque x x (data d)) v)
    by (try done; cbn [top bot]; rewrite sub64_exact by lia; unfold CAP; lia).
  cbn [fst snd top bot]. do 3 (split; [done|]). split.
  - intros Hnext.
    assert (add64 x 1 = x + 1) as ->.
    { apply wrap64_small. unfold is_u64. lia. }
    split; [done|].
    unfold contents. cbn [top bot data].
    replace (x + 1 - x) with 1 by lia. rewrite seqZ_cons, seqZ_nil by lia.
    simpl. unfold load_data. cbn [data].
    rewrite list_lookup_insert_eq; [done|].
    apply (slot_in_range (mkDeque x x (data d))). done.
  - intros Hwrap. unfold add64, wrap64. rewrite Hwrap. apply Z.mod_same.
    unfold U64_MODULUS. lia.
Qed.

Lemma setDepth_then_pushBot_witness :
  exists d',
    ChaseLev_setDepth (mkDeque 5 5 (replicate 64 0)) 2 = Ok d' /\
    pollCurrentLocalScope d' = 2 /\
    bot (snd (ChaseLev_pushBot d' 9)) = 3.
Proof.
  destruct (setDepth_then_pushBot (mkDeque 5 5 (replicate 64 0)) 2 9)
    as (d' & Hset & _ & _ & Hpoll & _ & _ & Hbot & _).
  - reflexivity.
  - reflexivity.
  - unfold U64_MODULUS. lia.
  - exists d'. split; [exact Hset|]. split; [exact Hpoll|exact Hbot].
Defined.

(** X6: on a deque that satisfies the invariant, with [bot > 0],
    [tryClaimLocalScope] answers true exactly when the deque is not empty
    and its bottom element is not [BOGUS_OBJPTR].  The local scope polls
    one lower afterwards when the deque held two elements or more, also
    when the answer is false; it polls the same when the deque held one
    element, also when the answer is true. *)
Theorem tryClaimLocalScope_spec (BOGUS_OBJPTR : objptr) (d : deque) :
  deque_inv d ->
  0 < bot d ->
  (fst (tryClaimLocalScope BOGUS_OBJPTR d) = true <->
     top d < bot d /\ load_data d ((bot d - 1) mod CAP) <> BOGUS_OBJPTR) /\
  pollCurrentLocalScope (snd (tryClaimLocalScope BOGUS_OBJPTR d)) =
    (if top d <? bot d - 1 then bot d - 1 else bot d) /\
  top (snd (tryClaimLocalScope BOGUS_OBJPTR d)) =
    (if top d =? bot d - 1 then bot d else top d) /\
  data (snd (tryClaimLocalScope BOGUS_OBJPTR d)) = data d.
Proof.
  intros (Htop & Hle & Hbot & Hcap & Hlen) Hpos.
  unfold tryClaimLocalScope, pollCurrentLocalScope.
  unfold ChaseLev_tryPopBot, cas_top, store_top, store_bot.
  cbn [top bot data].
  rewrite (sub64_exact (bot d) 1) by lia.
  assert (add64 (bot d - 1) 1 = bot d) as Hrestore.
  { unfold add64. rewrite wrap64_small; unfold is_u64; lia. }
  assert (forall t b, load_data {| top := t; bot := b; data := data d |}
                        ((bot d - 1) mod CAP) =
                      load_data d ((bot d - 1) mod CAP)) as Hload by done.
  destruct (Z.leb_spec (top d) (bot d - 1)) as [Hne|Hempty].
  - rewrite Hload.
    destruct (Z.eqb_spec (top d) (bot d - 1)) as [Hone|Hmore].
    + rewrite Z.eqb_refl, Hrestore. cbn [fst snd top bot data].
      destruct (Z.ltb_spec (top d) (bot d - 1)); [lia|].
      split; [|repeat split; try done; rewrite Hone; exact Hrestore].
      split.
      * intros Hq. split; [lia|]. intros Heq.
        rewrite Heq, Z.eqb_refl in Hq. done.
      * intros [_ Hq]. apply negb_true_iff, Z.eqb_neq. done.
    + cbn [fst snd top bot data].
      destruct (Z.ltb_spec (top d) (bot d - 1)); [|lia].
      split; [|by repeat split].
      split.
      * intros Hq. split; [lia|]. intros Heq.
        rewrite Heq, Z.eqb_refl in Hq. done.
      * intros [_ Hq]. apply negb_true_iff, Z.eqb_neq. done.
  - rewrite Hrestore. cbn [fst snd top bot data]. rewrite Z.eqb_refl.
    destruct (Z.ltb_spec (top d) (bot d - 1)); [lia|].
    destruct (Z.eqb_spec (top d) (bot d - 1)); [lia|].
    split; [|by repeat split].
    split; [done|]. intros [Hlt _]. lia.
Qed.

Lemma tryClaimLocalScope_spec_witness :
  fst (tryClaimLocalScope 1 (mkDeque 3 5 (replicate 64 7))) = true /\
  pollCurrentLocalScope
    (snd (tryClaimLocalScope 1 (mkDeque 3 5 (replicate 64 7)))) = 4.
Proof.
  destruct (tryClaimLocalScope_spec 1 (mkDeque 3 5 (replicate 64 7)))
    as (Hiff & Hpoll & _).
  - unfold deque_inv, getSequenceLength, CAP, U64_MODULUS. simpl. lia.
  - simpl. lia.
  - split; [|exact Hpoll]. apply Hiff. split; [simpl; lia|].
    vm_compute. discriminate.
Defined.

End DequeComposition.

(** ** The frame of the local collection *)

Section CollectLocalFrame.
Import ChaseLev LocalScope CollectLocal.

Lemma wrap32_small z : 0 <= z < U32_MODULUS -> wrap32 z = z.
Proof. intros Hz. unfold wrap32. by apply Z.mod_small. Qed.

Lemma wrap32_range z : 0 <= wrap32 z < U32_MODULUS.
Proof. unfold wrap32, U32_MODULUS. apply Z.mod_pos_bound. lia. Qed.

(** The claim loop ends, between the level it starts at and the larger of
    [desiredScope] and [minLocalLevel]. *)
Lemma claimLevels_bounds (BOGUS_OBJPTR : objptr) (desiredScope minLocal : Z) :
  0 <= desiredScope ->
  forall fuel minLevel q,
    0 <= minLevel < U32_MODULUS ->
    (Z.to_nat minLevel <= fuel)%nat ->
    exists minLevel' q',
      claimLevels BOGUS_OBJPTR fuel minLevel desiredScope minLocal q =
        Ok (minLevel', q') /\
      0 <= minLevel' <= minLevel /\
      (Z.max desiredScope minLocal < minLevel ->
         Z.max desiredScope minLocal <= minLevel') /\
      (minLevel <= Z.max desiredScope minLocal ->
         minLevel' = minLevel /\ q' = q).
Proof.
  intros Hds. induction fuel as [|fuel IH]; intros m q Hm Hfuel.
  - assert (m = 0) as -> by lia. simpl.
    destruct (Z.ltb_spec desiredScope 0); [lia|]. simpl.
    exists 0, q. repeat split; lia.
  - cbn [claimLevels].
    destruct (Z.ltb_spec desiredScope m) as [Hgt1|Hle1];
      [destruct (Z.ltb_spec minLocal m) as [Hgt2|Hle2]|]; cbn [andb].
    + destruct (tryClaimLocalScope BOGUS_OBJPTR q) as [[|] q1].
      * rewrite wrap32_small by lia.
        destruct (IH (m - 1) q1) as (m' & q' & Heq & Hrange & Hlow & Hstay);
          [lia|lia|].
        exists m', q'. split; [exact Heq|]. split; [lia|]. split; [|lia].
        intros _. destruct (Z_lt_le_dec (Z.max desiredScope minLocal) (m - 1)).
        -- by apply Hlow.
        -- destruct Hstay as [-> _]; lia.
      * exists m, q1. repeat split; lia.
    + exists m, q. repeat split; lia.
    + exists m, q. repeat split; lia.
Qed.

(** X7: when [HM_HHC_collectLocal] runs the collection proper, it does so
    once, on a range of levels [minLevel..maxLevel] with
    [1 <= minLevel <= maxLevel = thread->currentDepth]: never on level 0,
    never on an empty range.  Collection is then enabled, and was forced
    or the worker is deeper than level 1.  With SUPERLOCAL the range is the
    current depth alone; otherwise [minLevel] is not above the local scope
    and, when that was above both, not below the larger of [desiredScope]
    and [minLocalLevel]. *)
Theorem collectLocal_ranges {world}
    (collection : Z -> Z -> GC_state world -> result (GC_state world))
    (BOGUS_OBJPTR : objptr) (s : GC_state world)
    (desiredScope : Z) (force : bool) (lo hi : Z) :
  0 <= desiredScope ->
  (lo, hi) ∈ fst (HM_HHC_collectLocal collection BOGUS_OBJPTR s
                    desiredScope force) ->
  fst (HM_HHC_collectLocal collection BOGUS_OBJPTR s desiredScope force)
    = [(lo, hi)] /\
  1 <= lo /\ lo <= hi /\ hi = currentDepth s /\
  hhCollectionLevel s <> NONE /\
  (force = false -> 1 < currentDepth s) /\
  (hhCollectionLevel s = SUPERLOCAL -> lo = hi) /\
  (hhCollectionLevel s <> SUPERLOCAL ->
     lo <= wrap32 (pollCurrentLocalScope (wsQueue s)) /\
     (Z.max desiredScope (minLocalLevel s)
        < wrap32 (pollCurrentLocalScope (wsQueue s)) ->
      Z.max desiredScope (minLocalLevel s) <= lo)).
Proof.
  intros Hds. unfold HM_HHC_collectLocal.
  case_bool_decide as Hnone; [intros Hin; by apply elem_of_nil in Hin|].
  destruct (_ || _); [intros Hin; by apply elem_of_nil in Hin|].
  destruct (negb force && (currentDepth s <=? 1)) eqn:Hseq;
    [intros Hin; by apply elem_of_nil in Hin|].
  pose proof (wrap32_range (pollCurrentLocalScope (wsQueue s))) as Horig.
  destruct (claimLevels_bounds BOGUS_OBJPTR desiredScope (minLocalLevel s)
              Hds (Z.to_nat (wrap32 (pollCurrentLocalScope (wsQueue s))))
              (wrap32 (pollCurrentLocalScope (wsQueue s))) (wsQueue s)
              Horig ltac:(lia))
    as (m' & q' & -> & Hrange & Hlow & _).
  cbn [set_wsQueue currentDepth hhCollectionLevel].
  destruct (Z.eqb_spec m' 0); [intros Hin; by apply elem_of_nil in Hin|].
  destruct (Z.ltb_spec (currentDepth s) m');
    [intros Hin; by apply elem_of_nil in Hin|].
  cbn [fst]. intros Hin. apply list_elem_of_singleton in Hin.
  injection Hin as -> ->. split; [done|].
  assert (force = false -> 1 < currentDepth s) as Hdeep.
  { intros ->. cbn [negb andb] in Hseq.
    destruct (Z.leb_spec (currentDepth s) 1); [done|lia]. }
  case_bool_decide as Hsuper.
  - repeat split; try done; try lia; intros; congruence.
  - repeat split; try done; try lia; intros; congruence.
Qed.

Lemma collectLocal_ranges_witness :
  fst (HM_HHC_collectLocal ExampleScope.no_collection 1
         (ExampleScope.worker LOCAL) 1 true) = [(1, 3)].
Proof.
  apply (collectLocal_ranges ExampleScope.no_collection 1
           (ExampleScope.worker LOCAL) 1 true 1 3).
  - lia.
  - vm_compute. apply list_elem_of_singleton. reflexivity.
Defined.

(** X8: on every normal return of [HM_HHC_collectLocal], whichever way it
    went, the local scope polls as it did before the call, as long as it
    fitted 32 bits (it is kept in a [uint32_t] meanwhile); in general it
    polls as the low 32 bits of what it was once the three initial tests
    are passed. *)
Theorem collectLocal_restores_scope {world}
    (collection : Z -> Z -> GC_state world -> result (GC_state world))
    (BOGUS_OBJPTR : objptr) (s s' : GC_state world)
    (desiredScope : Z) (force : bool) :
  snd (HM_HHC_collectLocal collection BOGUS_OBJPTR s desiredScope force)
    = Ok s' ->
  (pollCurrentLocalScope (wsQueue s') = pollCurrentLocalScope (wsQueue s) \/
   pollCurrentLocalScope (wsQueue s') =
     wrap32 (pollCurrentLocalScope (wsQueue s))) /\
  (0 <= pollCurrentLocalScope (wsQueue s) < U32_MODULUS ->
   pollCurrentLocalScope (wsQueue s') = pollCurrentLocalScope (wsQueue s)).
Proof.
  unfold HM_HHC_collectLocal.
  assert (forall t : GC_state world,
            pollCurrentLocalScope
              (wsQueue (set_wsQueue t
                 (releaseLocalScope (wsQueue t)
                    (wrap32 (pollCurrentLocalScope (wsQueue s)))))) =
            wrap32 (pollCurrentLocalScope (wsQueue s))) as Hrelease by done.
  assert (forall t : GC_state world,
            pollCurrentLocalScope (wsQueue t) =
              wrap32 (pollCurrentLocalScope (wsQueue s)) ->
            (pollCurrentLocalScope (wsQueue t) =
               pollCurrentLocalScope (wsQueue s) \/
             pollCurrentLocalScope (wsQueue t) =
               wrap32 (pollCurrentLocalScope (wsQueue s))) /\
            (0 <= pollCurrentLocalScope (wsQueue s) < U32_MODULUS ->
             pollCurrentLocalScope (wsQueue t) =
               pollCurrentLocalScope (wsQueue s))) as Hdone.
  { intros t Ht. split; [by right|]. intros Hfit.
    by rewrite Ht, wrap32_small. }
  assert (forall r : result (GC_state world), r = Ok s ->
            r = Ok s' ->
            (pollCurrentLocalScope (wsQueue s') =
               pollCurrentLocalScope (wsQueue s) \/
             pollCurrentLocalScope (wsQueue s') =
               wrap32 (pollCurrentLocalScope (wsQueue s))) /\
            (0 <= pollCurrentLocalScope (wsQueue s) < U32_MODULUS ->
             pollCurrentLocalScope (wsQueue s') =
               pollCurrentLocalScope (wsQueue s))) as Hskip.
  { intros r -> Heq. injection Heq as <-. split; [by left|done]. }
  case_bool_decide as Hnone; [by apply Hskip|].
  destruct (_ || _); [by apply Hskip|].
  destruct (negb force && _); [by apply Hskip|].
  destruct (claimLevels _ _ _ _ _ _) as [[m' q']| | |]; try discriminate.
  destruct (m' =? 0).
  { cbn [snd]. intros Heq. injection Heq as <-. by apply Hdone. }
  destruct (_ <? m').
  { cbn [snd]. intros Heq. injection Heq as <-. by apply Hdone. }
  cbn [snd]. destruct (collection _ _ _) as [t| | |]; try discriminate.
  rsimpl. intros Heq. injection Heq as <-. by apply Hdone.
Qed.

Lemma collectLocal_restores_scope_witness :
  exists s',
    snd (HM_HHC_collectLocal ExampleScope.no_collection 1
           (ExampleScope.worker LOCAL) 1 true) = Ok s' /\
    pollCurrentLocalScope (wsQueue s') = 3.
Proof.
  exists (set_wsQueue (ExampleScope.worker LOCAL)
            (mkDeque 2 3 (replicate 64 7))).
  assert (snd (HM_HHC_collectLocal ExampleScope.no_collection 1
                 (ExampleScope.worker LOCAL) 1 true) =
          Ok (set_wsQueue (ExampleScope.worker LOCAL)
                (mkDeque 2 3 (replicate 64 7)))) as Hrun
    by (vm_compute; reflexivity).
  split; [exact Hrun|].
  apply (proj2 (collectLocal_restores_scope ExampleScope.no_collection 1
                  (ExampleScope.worker LOCAL) _ 1 true Hrun)).
  unfold U32_MODULUS. simpl. lia.
Defined.

(** [tryClaimLocalScope], case by case. *)
Lemma tryClaimLocalScope_eq (BOGUS_OBJPTR : objptr) (q : deque) :
  deque_inv q ->
  0 < bot q ->
  tryClaimLocalScope BOGUS_OBJPTR q =
    if top q <? bot q - 1 then
      (negb (load_data q ((bot q - 1) mod CAP) =? BOGUS_OBJPTR),
       {| top := top q; bot := bot q - 1; data := data q |})
    else if top q =? bot q - 1 then
      (negb (load_data q ((bot q - 1) mod CAP) =? BOGUS_OBJPTR),
       {| top := bot q; bot := bot q; data := data q |})
    else (false, q).
Proof.
  intros (Htop & Hle & Hbot & Hcap & Hlen) Hpos.
  unfold tryClaimLocalScope, ChaseLev_tryPopBot, cas_top, store_top,
    store_bot.
  cbn [top bot data].
  rewrite (sub64_exact (bot q) 1) by lia.
  assert (add64 (bot q - 1) 1 = bot q) as Hrestore.
  { unfold add64. rewrite wrap64_small; unfold is_u64; lia. }
  assert (forall t b, load_data {| top := t; bot := b; data := data q |}
                        ((bot q - 1) mod CAP) =
                      load_data q ((bot q - 1) mod CAP)) as Hload by done.
  destruct (Z.leb_spec (top q) (bot q - 1)) as [Hne|Hempty].
  - rewrite Hload.
    destruct (Z.eqb_spec (top q) (bot q - 1)) as [Hone|Hmore].
    + rewrite Z.eqb_refl, Hrestore.
      destruct (Z.ltb_spec (top q) (bot q - 1)); [lia|].
      assert (add64 (top q) 1 = bot q) as -> by (by rewrite Hone).
      done.
    + destruct (Z.ltb_spec (top q) (bot q - 1)); [done|lia].
  - rewrite Hrestore, Z.eqb_refl.
    destruct (Z.ltb_spec (top q) (bot q - 1)); [lia|].
    destruct (Z.eqb_spec (top q) (bot q - 1)); [lia|].
    by destruct q.
Qed.

(** On an empty deque the claim loop claims nothing. *)
Lemma claimLevels_empty (BOGUS_OBJPTR : objptr) (desiredScope minLocal : Z)
    (fuel : nat) (m : Z) (q : deque) :
  0 <= desiredScope ->
  deque_inv q -> top q = bot q -> 0 < bot q ->
  (Z.to_nat m <= fuel)%nat ->
  claimLevels BOGUS_OBJPTR fuel m desiredScope minLocal q = Ok (m, q).
Proof.
  intros Hds Hinv Hempty Hpos Hfuel.
  destruct fuel as [|fuel]; cbn [claimLevels].
  - destruct (Z.ltb_spec desiredScope m); [lia|done].
  - destruct (_ && _); [|done].
    rewrite tryClaimLocalScope_eq by done.
    destruct (Z.ltb_spec (top q) (bot q - 1)); [lia|].
    destruct (Z.eqb_spec (top q) (bot q - 1)); [lia|done].
Qed.

(** The claim loop on a deque that holds something, started at its
    [bot]. *)
Lemma claimLevels_nonempty (BOGUS_OBJPTR : objptr)
    (desiredScope minLocal : Z) :
  0 <= desiredScope ->
  forall fuel q,
    deque_inv q -> top q < bot q -> bot q < U32_MODULUS ->
    (Z.to_nat (bot q) <= fuel)%nat ->
    exists m' q',
      claimLevels BOGUS_OBJPTR fuel (bot q) desiredScope minLocal q =
        Ok (m', q') /\
      data q' = data q /\ bot q' <= bot q /\
      (top q' = top q \/
       (top q' = top q + 1 /\ Z.max desiredScope minLocal <= top q)).
Proof.
  intros Hds. induction fuel as [|fuel IH]; intros q Hinv Hlt H32 Hfuel.
  { destruct Hinv as (? & ? & ? & ? & ?). lia. }
  cbn [claimLevels].
  destruct (Z.ltb_spec desiredScope (bot q)) as [Hgt1|Hle1];
    [destruct (Z.ltb_spec minLocal (bot q)) as [Hgt2|Hle2]|]; cbn [andb];
    [|exists (bot q), q; repeat split; (done || lia || by left)..].
  pose proof Hinv as (Htop & Hle & Hbot & Hcap & Hlen).
  rewrite tryClaimLocalScope_eq by (done || lia).
  destruct (Z.ltb_spec (top q) (bot q - 1)) as [Hmore|Hone].
  - destruct (negb _).
    + rewrite wrap32_small by lia.
      destruct (IH {| top := top q; bot := bot q - 1; data := data q |})
        as (m' & q' & Heq & Hdata & Hbot' & Htop').
      * unfold deque_inv, getSequenceLength in *. cbn [top bot data]. lia.
      * cbn [top bot]. lia.
      * cbn [bot]. lia.
      * cbn [bot]. lia.
      * cbn [top bot data] in *. exists m', q'.
        split; [exact Heq|]. split; [done|]. split; [lia|done].
    + eexists _, _. split; [reflexivity|]. cbn [top bot data].
      split; [done|]. split; [lia|by left].
  - destruct (Z.eqb_spec (top q) (bot q - 1)) as [Heq|Hne]; [|lia].
    destruct (negb _).
    + rewrite wrap32_small by lia.
      assert (deque_inv {| top := bot q; bot := bot q; data := data q |})
        as Hinv1.
      { unfold deque_inv, getSequenceLength in *. cbn [top bot data]. lia. }
      rewrite (claimLevels_empty BOGUS_OBJPTR desiredScope minLocal fuel
                 (bot q - 1) _ Hds Hinv1)
        by (cbn [top bot]; lia).
      eexists _, _. split; [reflexivity|]. cbn [top bot data].
      split; [done|]. split; [lia|]. right. lia.
    + eexists _, _. split; [reflexivity|]. cbn [top bot data].
      split; [done|]. split; [lia|]. right. lia.
Qed.

(** The claim loop started at [bot], followed by the release to
    [bot], on a deque whose [bot] fits 32 bits. *)
Lemma claimLevels_release (BOGUS_OBJPTR : objptr)
    (desiredScope minLocal : Z) (q : deque) :
  0 <= desiredScope ->
  deque_inv q ->
  bot q < U32_MODULUS ->
  exists m' q',
    claimLevels BOGUS_OBJPTR (Z.to_nat (bot q)) (bot q) desiredScope
                minLocal q = Ok (m', q') /\
    (releaseLocalScope q' (bot q) = q \/
     (top q < bot q /\
      releaseLocalScope q' (bot q) =
        {| top := top q + 1; bot := bot q; data := data q |})) /\
    (top q < Z.max desiredScope minLocal ->
     releaseLocalScope q' (bot q) = q).
Proof.
  intros Hds Hinv H32. pose proof Hinv as (Htop & Hle & Hbot & Hcap & Hlen).
  destruct (Z_lt_le_dec (top q) (bot q)) as [Hlt|Hge].
  - destruct (claimLevels_nonempty BOGUS_OBJPTR desiredScope minLocal Hds
                (Z.to_nat (bot q)) q Hinv Hlt H32 ltac:(lia))
      as (m' & q' & Heq & Hdata & Hbot' & Htop').
    exists m', q'. split; [exact Heq|].
    unfold releaseLocalScope, store_bot.
    destruct Htop' as [Hsame|[Hup Hmax]].
    + rewrite Hsame, Hdata. split; [left; by destruct q|].
      intros _. by destruct q.
    + rewrite Hup, Hdata. split; [by right|]. intros Habs. lia.
  - assert (top q = bot q) as Hempty by lia.
    destruct (Z.eq_dec (bot q) 0) as [Hzero|Hpos].
    + exists (bot q), q. rewrite Hzero. simpl.
      destruct (Z.ltb_spec desiredScope 0); [lia|]. simpl.
      split; [done|].
      assert (releaseLocalScope q 0 = q) as ->.
      { unfold releaseLocalScope, store_bot. rewrite <- Hzero. by destruct q. }
      split; [by left|done].
    + exists (bot q), q.
      rewrite claimLevels_empty by (done || lia).
      split; [done|].
      assert (releaseLocalScope q (bot q) = q) as ->.
      { unfold releaseLocalScope, store_bot. by destruct q. }
      split; [by left|done].
Qed.

(** X9: what [HM_HHC_collectLocal] does to the deque of a worker, when
    the deque satisfies the invariant, its [bot] fits 32 bits,
    [desiredScope] is not negative and the collection proper leaves [top]
    and [bot] alone.  On every normal return [bot] is what it was, and
    [top] is what it was or one more: claiming local scope takes the last
    element of the deque by moving [top] past it
    ([ChaseLev_tryPopBot]), and [releaseLocalScope] only puts [bot] back, so
    that the top element of a deque that held something can be gone.
    [top] is what it was whenever it is below [desiredScope] or
    below [minLocalLevel]. *)
Theorem collectLocal_deque_after {world}
    (collection : Z -> Z -> GC_state world -> result (GC_state world))
    (BOGUS_OBJPTR : objptr) (s s' : GC_state world)
    (desiredScope : Z) (force : bool) :
  0 <= desiredScope ->
  deque_inv (wsQueue s) ->
  bot (wsQueue s) < U32_MODULUS ->
  (forall lo hi t t', collection lo hi t = Ok t' ->
     top (wsQueue t') = top (wsQueue t) /\
     bot (wsQueue t') = bot (wsQueue t)) ->
  snd (HM_HHC_collectLocal collection BOGUS_OBJPTR s desiredScope force)
    = Ok s' ->
  bot (wsQueue s') = bot (wsQueue s) /\
  (top (wsQueue s') = top (wsQueue s) \/
   (top (wsQueue s) < bot (wsQueue s) /\
    top (wsQueue s') = top (wsQueue s) + 1)) /\
  (top (wsQueue s) < Z.max desiredScope (minLocalLevel s) ->
   top (wsQueue s') = top (wsQueue s)).
Proof.
  intros Hds Hinv H32 Hcoll. unfold HM_HHC_collectLocal.
  assert (forall r : result (GC_state world), r = Ok s -> r = Ok s' ->
            bot (wsQueue s') = bot (wsQueue s) /\
            (top (wsQueue s') = top (wsQueue s) \/
             (top (wsQueue s) < bot (wsQueue s) /\
              top (wsQueue s') = top (wsQueue s) + 1)) /\
            (top (wsQueue s) < Z.max desiredScope (minLocalLevel s) ->
             top (wsQueue s') = top (wsQueue s))) as Hskip.
  { intros r -> Heq. injection Heq as <-. split; [done|].
    split; [by left|done]. }
  case_bool_decide as Hnone; [by apply Hskip|].
  destruct (_ || _); [by apply Hskip|].
  destruct (negb force && _); [by apply Hskip|].
  pose proof Hinv as (Htop & Hle & _).
  unfold pollCurrentLocalScope.
  rewrite (wrap32_small (bot (wsQueue s))) by lia.
  destruct (claimLevels_release BOGUS_OBJPTR desiredScope (minLocalLevel s)
              (wsQueue s) Hds Hinv H32)
    as (m' & q' & -> & Hcases & Hlow).
  assert (forall t : GC_state world,
            top (wsQueue t) = top q' ->
            let r := set_wsQueue t
                       (releaseLocalScope (wsQueue t) (bot (wsQueue s))) in
            bot (wsQueue r) = bot (wsQueue s) /\
            (top (wsQueue r) = top (wsQueue s) \/
             (top (wsQueue s) < bot (wsQueue s) /\
              top (wsQueue r) = top (wsQueue s) + 1)) /\
            (top (wsQueue s) < Z.max desiredScope (minLocalLevel s) ->
             top (wsQueue r) = top (wsQueue s))) as Hdone.
  { intros t Ht. cbn [wsQueue set_wsQueue].
    unfold releaseLocalScope, store_bot in *. cbn [top bot] in *.
    rewrite Ht. split; [done|]. split.
    - destruct Hcases as [Hsame | [Hlt Hup]].
      + left. by rewrite <- Hsame.
      + right. split; [done|]. by injection Hup as ->.
    - intros Hbelow. by rewrite <- (Hlow Hbelow). }
  destruct (m' =? 0).
  { cbn [snd]. intros Heq. injection Heq as <-. by apply Hdone. }
  cbn [currentDepth set_wsQueue].
  destruct (_ <? m').
  { cbn [snd]. intros Heq. injection Heq as <-. by apply Hdone. }
  cbn [snd]. destruct (collection _ _ _) as [t| | |] eqn:Hrun;
    try discriminate.
  rsimpl. intros Heq. injection Heq as <-. apply Hdone.
  by destruct (Hcoll _ _ _ _ Hrun) as [-> _].
Qed.

Lemma collectLocal_deque_after_witness :
  bot (mkDeque 2 3 (replicate 64 7)) = 3 /\
  (top (mkDeque 2 3 (replicate 64 7)) = 1 \/
   (1 < 3 /\ top (mkDeque 2 3 (replicate 64 7)) = 1 + 1)) /\
  (1 < Z.max 1 1 -> top (mkDeque 2 3 (replicate 64 7)) = 1).
Proof.
  apply (collectLocal_deque_after ExampleScope.no_collection 1
           (ExampleScope.worker LOCAL)
           (set_wsQueue (ExampleScope.worker LOCAL)
              (mkDeque 2 3 (replicate 64 7)))
           1 true).
  - lia.
  - unfold deque_inv, getSequenceLength, CAP, U64_MODULUS. simpl. lia.
  - unfold U32_MODULUS. simpl. lia.
  - intros lo hi t t' Hrun. injection Hrun as <-. done.
  - vm_compute. reflexivity.
Defined.

End CollectLocalFrame.

(** ** More on the forwarding engine *)

Section ForwardingPaths.
Import HHC.
Context `{Runtime}.

(** X10: [forwardHHObjptr] leaves the heap, the arguments and the slot
    alone when the slot does not hold an object pointer, or holds a pointer
    into the root heap, or holds a pointer to an object below
    [args->minLevel] (also when that object has a forwarding pointer). *)
Theorem forwardHHObjptr_out_of_scope s args op :
  isObjptr op = false \/
  isObjptrInRootHeap op = true \/
  (exists lvl, HM_getObjptrLevel s op = Ok lvl /\
               lvl <= maxLevel args /\ lvl < minLevel args) ->
  forwardHHObjptr s args op = Ok (s, args, op).
Proof.
  intros [Hnp | [Hroot | (lvl & Hlvl & Hmax & Hmin)]]; unfold forwardHHObjptr.
  - by rewrite Hnp.
  - rewrite Hroot. by rewrite orb_true_r.
  - destruct (negb (isObjptr op) || isObjptrInRootHeap op); [done|].
    rewrite Hlvl. rsimpl.
    destruct (Z.ltb_spec (maxLevel args) lvl); [lia|].
    destruct (Z.ltb_spec lvl (minLevel args)); [done|lia].
Qed.

(** An object in the collected range that is in the to-space and has no
    forwarding pointer is not forwarded again. *)
Lemma forwardHHObjptr_in_to_space s args op o c tgt lt :
  isObjptr op = true ->
  isObjptrInRootHeap op = false ->
  objects s !! op = Some o -> fwdPtr o = None ->
  chunks s !! HM_getChunkOf op = Some c ->
  levelHead c = Some tgt ->
  chunkLists s !! tgt = Some lt ->
  level lt <= maxLevel args ->
  isInToSpace lt = true ->
  forwardHHObjptr s args op = Ok (s, args, op).
Proof.
  intros Hptr Hroot Ho Hfwd Hc Hlh Hlt Hmax Hto.
  pose proof (getLevelHead_eq s op c tgt lt Hc Hlh Hlt) as Hhead.
  unfold forwardHHObjptr. rewrite Hptr, Hroot. cbn [negb orb].
  unfold HM_getObjptrLevel, HM_isObjptrInToSpace. rewrite Hhead. rsimpl.
  destruct (Z.ltb_spec (maxLevel args) (level lt)); [lia|]. cbn [orb].
  destruct (Z.ltb_spec (level lt) (minLevel args)); [done|].
  rewrite (chaseFwdPtr_not_forwarded _ s op o Ho Hfwd). rsimpl.
  rewrite Hhead. rsimpl.
  destruct (Z.ltb_spec (level lt) (minLevel args)); [lia|].
  by rewrite Hto.
Qed.

(** X11: when the slot holds a pointer to an object of the collected
    range whose forwarding pointer leads to an object without one, and that
    object is in the to-space or below [args->minLevel], [forwardHHObjptr]
    stores the forwarding pointer in the slot and changes neither the heap
    nor the counters: nothing is copied twice. *)
Theorem forwardHHObjptr_already_forwarded
    s args op o c src l q oq cq tq lq :
  isObjptr op = true ->
  isObjptrInRootHeap op = false ->
  chunks s !! HM_getChunkOf op = Some c ->
  levelHead c = Some src ->
  chunkLists s !! src = Some l ->
  minLevel args <= level l <= maxLevel args ->
  objects s !! op = Some o ->
  fwdPtr o = Some q ->
  objects s !! q = Some oq ->
  fwdPtr oq = None ->
  chunks s !! HM_getChunkOf q = Some cq ->
  levelHead cq = Some tq ->
  chunkLists s !! tq = Some lq ->
  level lq < minLevel args \/ isInToSpace lq = true ->
  forwardHHObjptr s args op = Ok (s, args, q).
Proof.
  intros Hptr Hroot Hc Hlh Hl Hrange Ho Hfwd Hoq Hfq Hcq Hlhq Hlq Hcase.
  pose proof (getLevelHead_eq s op c src l Hc Hlh Hl) as Hhead.
  pose proof (getLevelHead_eq s q cq tq lq Hcq Hlhq Hlq) as Hheadq.
  unfold forwardHHObjptr. rewrite Hptr, Hroot. cbn [negb orb].
  unfold HM_getObjptrLevel, HM_isObjptrInToSpace. rewrite Hhead. rsimpl.
  destruct (Z.ltb_spec (maxLevel args) (level l)); [lia|]. cbn [orb].
  destruct (Z.ltb_spec (level l) (minLevel args)); [lia|].
  assert (chaseFwdPtr (size (objects s)) s op = Ok q) as ->.
  { destruct (size (objects s)) as [|n] eqn:Hsize.
    - apply map_size_empty_iff in Hsize. rewrite Hsize in Ho.
      by rewrite lookup_empty in Ho.
    - cbn [chaseFwdPtr]. rewrite Ho. rsimpl. rewrite Hfwd.
      by apply (chaseFwdPtr_not_forwarded n s q oq). }
  rsimpl. rewrite Hheadq. rsimpl.
  destruct (Z.ltb_spec (level lq) (minLevel args)); [done|].
  destruct Hcase as [?|Hto]; [lia|]. by rewrite Hto.
Qed.

(** The tag that [computeObjectCopyParameters] returns is the tag of the
    header, and it is never that of a weak. *)
Lemma computeObjectCopyParameters_tag s p o tag bnp np s1 t a b m :
  objects s !! p = Some o ->
  splitHeader (header o) = (tag, bnp, np) ->
  computeObjectCopyParameters s p = Ok (s1, (t, a, b, m)) ->
  t = tag /\ tag <> WEAK_TAG.
Proof.
  intros Ho Hsplit Hrun. destruct tag.
  - rewrite (computeObjectCopyParameters_normal_eq s p o bnp np Ho Hsplit)
      in Hrun. by inversion Hrun.
  - rewrite (computeObjectCopyParameters_sequence_eq s p o bnp np Ho Hsplit)
      in Hrun. by inversion Hrun.
  - rewrite (computeObjectCopyParameters_stack_eq s p o bnp np Ho Hsplit)
      in Hrun. by inversion Hrun.
  - by rewrite (computeObjectCopyParameters_weak_eq s p o bnp np Ho Hsplit)
      in Hrun.
Qed.

(** X12: [relocateObject] is the forwarding step of [forwardHHObjptr].
    For an object of the collected range that is not yet in the to-space,
    has no forwarding pointer and whose level has a to-space list,
    [forwardHHObjptr] does what [relocateObject] does with that list, after
    counting the object in [stacksCopied] if it is a stack (which
    [relocateObject] itself does not do). *)
Theorem forwardHHObjptr_relocateObject
    s args op o tag bnp np c src l tgt :
  isObjptr op = true ->
  isObjptrInRootHeap op = false ->
  objects s !! op = Some o ->
  fwdPtr o = None ->
  splitHeader (header o) = (tag, bnp, np) ->
  chunks s !! HM_getChunkOf op = Some c ->
  levelHead c = Some src ->
  chunkLists s !! src = Some l ->
  isInToSpace l = false ->
  minLevel args <= level l <= maxLevel args ->
  toSpace args !! level l = Some tgt ->
  forwardHHObjptr s args op =
    relocateObject s op tgt
      (match tag with
       | STACK_TAG => incr_stacksCopied args
       | _ => args
       end).
Proof.
  intros Hptr Hroot Ho Hfwd Hsplit Hc Hlh Hl Hfrom Hrange Htgt.
  pose proof (getLevelHead_eq s op c src l Hc Hlh Hl) as Hhead.
  unfold forwardHHObjptr, relocateObject. rewrite Hptr, Hroot. cbn [negb orb].
  unfold HM_getObjptrLevel, HM_isObjptrInToSpace. rewrite Hhead. rsimpl.
  destruct (Z.ltb_spec (maxLevel args) (level l)); [lia|]. cbn [orb].
  destruct (Z.ltb_spec (level l) (minLevel args)); [lia|].
  rewrite (chaseFwdPtr_not_forwarded _ s op o Ho Hfwd). rsimpl.
  rewrite Hhead. rsimpl.
  destruct (Z.ltb_spec (level l) (minLevel args)); [lia|].
  rewrite Hfrom.
  destruct (computeObjectCopyParameters s op)
    as [[s1 [[[t ob] cb] mb]]| | |] eqn:Hrun; rsimpl; try done.
  destruct (computeObjectCopyParameters_tag _ _ _ _ _ _ _ _ _ _ _
              Ho Hsplit Hrun) as [-> Hweak].
  destruct tag; [| | |done]; rsimpl;
    cbn [incr_stacksCopied toSpace]; rewrite Htgt; rsimpl; reflexivity.
Qed.

End ForwardingPaths.

Section ForwardingPathInstances.
Import HHC Example ExampleForward.

Lemma forwardHHObjptr_out_of_scope_witness :
  forwardHHObjptr (H := runtime64) evacuating collecting_args 3 =
    Ok (evacuating, collecting_args, 3).
Proof.
  apply (@forwardHHObjptr_out_of_scope runtime64). left. reflexivity.
Defined.

Lemma forwardHHObjptr_already_forwarded_witness :
  forwardHHObjptr (H := runtime64) evacuating collecting_args 8264 =
    Ok (evacuating, collecting_args, 12360).
Proof.
  eapply (@forwardHHObjptr_already_forwarded runtime64 evacuating
            collecting_args 8264 (forwarded_to 12360) _ 100 _ 12360
            a_normal _ 200 _);
    try reflexivity.
  - cbn. lia.
  - right. reflexivity.
Defined.

Lemma forwardHHObjptr_relocateObject_witness :
  forwardHHObjptr (H := runtime64) evacuating collecting_args 8400 =
    relocateObject (H := runtime64) evacuating 8400 200 collecting_args.
Proof.
  eapply (@forwardHHObjptr_relocateObject runtime64 evacuating
            collecting_args 8400 a_normal NORMAL_TAG 16 0 _ 100 _ 200);
    try reflexivity.
  cbn. lia.
Defined.

End ForwardingPathInstances.

(** ** copyObject *)

Section CopyObject.
Import HHC.
Context `{Runtime}.

(** X13: [copyObject] into a list whose last chunk is well formed, when
    the allocator has two chunks left.  The function returns.  If
    [objectSize] bytes fit between the frontier and the limit of the last
    chunk and that frontier is inside the first block of the chunk, the
    object goes to that frontier; otherwise the first free chunk is
    appended to the list and the object goes to its start.  [copySize]
    bytes are copied there and the frontier of the chunk advances by
    [objectSize] (not [copySize]), within the limit of the chunk.  If the
    new frontier is not inside the first block of the chunk, one more free
    chunk is appended.  No other chunk is allocated, the chunks the list had
    stay in front, and on return the frontier of the last chunk of the
    list is inside the first block of that chunk. *)
Theorem copyObject_places_object
    s p objectSize copySize tgt l chunk c a0 e0 a1 e1 rest :
  chunkLists s !! tgt = Some l ->
  last (chunkIds l) = Some chunk ->
  chunks s !! chunk = Some c ->
  frontier c <= limit c < frontier c + U64_MODULUS ->
  0 <= objectSize ->
  0 < sizeof_HM_chunk < HM_BLOCK_SIZE ->
  freeChunks s = (a0, e0) :: (a1, e1) :: rest ->
  a0 <> chunk -> a1 <> a0 ->
  exists s' ptr chunk' c' l' chunkLast cl,
    copyObject s p objectSize copySize tgt = Ok (s', ptr) /\
    (ptr, chunk') =
      (if (limit c - frontier c <? objectSize) ||
          (chunk + HM_BLOCK_SIZE <=? frontier c)
       then (a0 + sizeof_HM_chunk, a0)
       else (frontier c, chunk)) /\
    objects s' = GC_memcpy (objects s) p ptr copySize /\
    chunkLists s' !! tgt = Some l' /\
    chunkIds l' =
      chunkIds l ++
      take (Nat.add
              (if (limit c - frontier c <? objectSize) ||
                  (chunk + HM_BLOCK_SIZE <=? frontier c)
               then 1%nat else 0%nat)
              (if chunk' + HM_BLOCK_SIZE <=? ptr + objectSize
               then 1%nat else 0%nat))
           [a0; a1] /\
    freeChunks s' =
      drop (Nat.add
              (if (limit c - frontier c <? objectSize) ||
                  (chunk + HM_BLOCK_SIZE <=? frontier c)
               then 1%nat else 0%nat)
              (if chunk' + HM_BLOCK_SIZE <=? ptr + objectSize
               then 1%nat else 0%nat))
           (freeChunks s) /\
    chunks s' !! chunk' = Some c' /\
    frontier c' = ptr + objectSize /\
    ptr + objectSize <= limit c' /\
    last (chunkIds l') = Some chunkLast /\
    chunks s' !! chunkLast = Some cl /\
    frontier cl < chunkLast + HM_BLOCK_SIZE.
Proof.
  intros Hl Hlast Hc Hwf Hsize Hblock Hfree Ha0 Ha1.
  unfold copyObject. rewrite Hl. rsimpl. rewrite Hlast. rsimpl.
  unfold pointer in *.
  rewrite Hc. rsimpl.
  rewrite (wrap64_small (limit c - frontier c)) by (unfold is_u64; lia).
  rewrite Hfree.
  destruct ((limit c - frontier c <? objectSize) ||
            (chunk + HM_BLOCK_SIZE <=? frontier c)) eqn:Hext.
  - (* a fresh chunk takes the object *)
    rewrite (allocateChunk_eq s tgt objectSize a0 e0 _ l Hfree Hl). rsimpl.
    cbn [chunks set_freeChunks set_chunks set_chunkLists].
    rewrite lookup_insert_eq. rsimpl. cbn [frontier].
    unfold HM_updateChunkValues.
    cbn [chunks objects set_objects set_freeChunks set_chunks set_chunkLists].
    rewrite lookup_insert_eq. rsimpl. rewrite insert_insert_eq.
    destruct (Z.leb_spec (a0 + HM_BLOCK_SIZE)
                (a0 + sizeof_HM_chunk + objectSize)) as [Hfull|Hroom].
    + erewrite (allocateChunk_eq _ tgt GC_HEAP_LIMIT_SLOP a1 e1 rest);
        [|reflexivity|apply lookup_insert_eq].
      rsimpl. do 7 eexists. split; [reflexivity|].
      split; [reflexivity|].
      rewrite (proj2 (Z.leb_le _ _) Hfull).
      cbn [objects chunks chunkLists freeChunks set_objects set_freeChunks
           set_chunks set_chunkLists chunkIds set_chunkIds Nat.add take
           drop].
      split; [reflexivity|].
      split; [apply lookup_insert_eq|]. cbn [chunkIds set_chunkIds].
      split; [by rewrite <- app_assoc|].
      split; [reflexivity|].
      split; [rewrite lookup_insert_ne by exact Ha1; apply lookup_insert_eq|].
      cbn [frontier limit set_frontier]. split; [reflexivity|]. split; [lia|].
      split; [apply last_snoc|]. split; [apply lookup_insert_eq|].
      cbn [frontier]. lia.
    + rsimpl. do 7 eexists. split; [reflexivity|].
      split; [reflexivity|].
      rewrite (proj2 (Z.leb_gt _ _) Hroom).
      cbn [objects chunks chunkLists freeChunks set_objects set_freeChunks
           set_chunks set_chunkLists chunkIds set_chunkIds Nat.add take
           drop].
      split; [reflexivity|].
      split; [apply lookup_insert_eq|]. cbn [chunkIds set_chunkIds].
      split; [reflexivity|].
      split; [reflexivity|].
      split; [apply lookup_insert_eq|].
      cbn [frontier limit set_frontier]. split; [reflexivity|]. split; [lia|].
      split; [apply last_snoc|]. split; [apply lookup_insert_eq|].
      cbn [frontier set_frontier]. lia.
  - (* the object fits in the last chunk *)
    apply orb_false_iff in Hext as [Hfits Hin].
    apply Z.ltb_ge in Hfits. apply Z.leb_gt in Hin.
    rsimpl. unfold HM_updateChunkValues.
    cbn [chunks objects set_objects]. unfold pointer in *.
    rewrite Hc. rsimpl.
    destruct (Z.leb_spec (chunk + HM_BLOCK_SIZE)
                (frontier c + objectSize)) as [Hfull|Hroom].
    + erewrite (allocateChunk_eq _ tgt GC_HEAP_LIMIT_SLOP a0 e0 _ l);
        [|exact Hfree|exact Hl].
      rsimpl. do 7 eexists. split; [reflexivity|].
      split; [reflexivity|].
      rewrite (proj2 (Z.leb_le _ _) Hfull).
      cbn [objects chunks chunkLists freeChunks set_objects set_freeChunks
           set_chunks set_chunkLists chunkIds set_chunkIds Nat.add take
           drop].
      split; [reflexivity|].
      split; [apply lookup_insert_eq|]. cbn [chunkIds set_chunkIds].
      split; [reflexivity|].
      split; [reflexivity|].
      split; [rewrite lookup_insert_ne by exact Ha0; apply lookup_insert_eq|].
      cbn [frontier limit set_frontier]. split; [reflexivity|]. split; [lia|].
      split; [apply last_snoc|]. split; [apply lookup_insert_eq|].
      cbn [frontier]. lia.
    + rsimpl. do 7 eexists. split; [reflexivity|].
      split; [reflexivity|].
      rewrite (proj2 (Z.leb_gt _ _) Hroom).
      cbn [objects chunks chunkLists freeChunks set_objects set_freeChunks
           set_chunks set_chunkLists chunkIds set_chunkIds Nat.add take
           drop].
      split; [reflexivity|].
      split; [exact Hl|].
      split; [by rewrite app_nil_r|].
      split; [exact Hfree|].
      split; [apply lookup_insert_eq|].
      cbn [frontier limit set_frontier]. split; [reflexivity|]. split; [lia|].
      split; [exact Hlast|]. split; [apply lookup_insert_eq|].
      cbn [frontier set_frontier]. lia.
Qed.

End CopyObject.

Section CopyPath.
Import HHC.
Context `{Runtime}.

(** X14: the copying path of [forwardHHObjptr].  For an object of the
    collected range that is not in the to-space, has no forwarding pointer,
    is not a weak, lives in a chunk that may hold several objects and whose
    level has a to-space list: the object is handed to [copyObject] with the
    sizes [computeObjectCopyParameters] gives, from [metaDataBytes] before
    it; if the object is still readable after the copy, the only further
    change to the heap is its forwarding pointer, which is the copy's
    address plus [metaDataBytes] and is also what the slot holds on return;
    [bytesCopied] grows by [copyBytes] and [objectsCopied] by one,
    [stacksCopied] by one for a stack, and the moved counters stay. *)
Theorem forwardHHObjptr_copies
    s args op o tag bnp np c src l tgt s1 ob cb mb s2 ptr o2 :
  isObjptr op = true ->
  isObjptrInRootHeap op = false ->
  objects s !! op = Some o ->
  fwdPtr o = None ->
  splitHeader (header o) = (tag, bnp, np) ->
  chunks s !! HM_getChunkOf op = Some c ->
  mightContainMultipleObjects c = true ->
  levelHead c = Some src ->
  chunkLists s !! src = Some l ->
  isInToSpace l = false ->
  minLevel args <= level l <= maxLevel args ->
  toSpace args !! level l = Some tgt ->
  computeObjectCopyParameters s op = Ok (s1, (tag, ob, cb, mb)) ->
  copyObject s1 (op - mb) ob cb tgt = Ok (s2, ptr) ->
  objects s2 !! op = Some o2 ->
  exists s' args',
    forwardHHObjptr s args op = Ok (s', args', ptr + mb) /\
    objects s' = <[op := set_fwdPtr o2 (ptr + mb)]> (objects s2) /\
    chunks s' = chunks s2 /\ chunkLists s' = chunkLists s2 /\
    freeChunks s' = freeChunks s2 /\
    bytesCopied args' = add64 (bytesCopied args) cb /\
    objectsCopied args' = add64 (objectsCopied args) 1 /\
    stacksCopied args' =
      (if bool_decide (tag = STACK_TAG) then add64 (stacksCopied args) 1
       else stacksCopied args) /\
    bytesMoved args' = bytesMoved args /\
    objectsMoved args' = objectsMoved args /\
    toSpace args' = toSpace args.
Proof.
  intros Hptr Hroot Ho Hfwd Hsplit Hc Hmulti Hlh Hl Hfrom Hrange Htgt
         Hrun Hcopy Ho2.
  pose proof (getLevelHead_eq s op c src l Hc Hlh Hl) as Hhead.
  destruct (computeObjectCopyParameters_tag _ _ _ _ _ _ _ _ _ _ _
              Ho Hsplit Hrun) as [_ Hweak].
  destruct (computeObjectCopyParameters_frame s op o tag bnp np
              Ho Hsplit Hweak)
    as (s1' & ? & ? & ? & o1 & Hrun' & Hchunks & _).
  rewrite Hrun in Hrun'. inversion Hrun'; subst; clear Hrun'.
  unfold forwardHHObjptr. rewrite Hptr, Hroot. cbn [negb orb].
  unfold HM_getObjptrLevel, HM_isObjptrInToSpace. rewrite Hhead. rsimpl.
  destruct (Z.ltb_spec (maxLevel args) (level l)); [lia|]. cbn [orb].
  destruct (Z.ltb_spec (level l) (minLevel args)); [lia|].
  rewrite (chaseFwdPtr_not_forwarded _ s op o Ho Hfwd). rsimpl.
  rewrite Hhead. rsimpl.
  destruct (Z.ltb_spec (level l) (minLevel args)); [lia|].
  rewrite Hfrom, Hrun. rsimpl.
  destruct tag; [| | |done]; rsimpl;
    cbn [incr_stacksCopied toSpace]; rewrite Htgt; rsimpl;
    rewrite Hchunks, Hc; rsimpl; rewrite Hmulti; cbn [negb];
    rewrite Hcopy; rsimpl; unfold pointer, objptr in *; rewrite Ho2; rsimpl;
    cbn [objects set_objects]; rewrite lookup_insert_eq;
    cbn [mbind option_bind fwdPtr set_fwdPtr deref];
    do 2 eexists; (split; [reflexivity|]); repeat split.
Qed.

End CopyPath.

Section CopyInstances.
Import HHC Example ExampleForward.

Lemma copyObject_places_object_witness :
  exists s' ptr chunk' c' l' chunkLast cl,
    copyObject (H := runtime64) evacuating 8392 24 24 200 = Ok (s', ptr) /\
    (ptr, chunk') = (12376, 12288) /\
    objects s' = @GC_memcpy runtime64 (objects evacuating) 8392 ptr 24 /\
    chunkLists s' !! 200 = Some l' /\
    chunkIds l' =
      [12288] ++
      take (Nat.add 0%nat
              (if chunk' + 4096 <=? ptr + 24 then 1%nat else 0%nat))
           [16384; 20480] /\
    freeChunks s' =
      drop (Nat.add 0%nat
              (if chunk' + 4096 <=? ptr + 24 then 1%nat else 0%nat))
           [(16384, 0%N); (20480, 0%N)] /\
    chunks s' !! chunk' = Some c' /\
    frontier c' = ptr + 24 /\
    ptr + 24 <= limit c' /\
    last (chunkIds l') = Some chunkLast /\
    chunks s' !! chunkLast = Some cl /\
    frontier cl < chunkLast + 4096.
Proof.
  apply (@copyObject_places_object runtime64 evacuating 8392 24 24 200
           to_space_list 12288 to_space_chunk 16384 0%N 20480 0%N []);
    try reflexivity; try (cbn; lia); done.
Defined.

Lemma forwardHHObjptr_copies_witness :
  exists s' args',
    forwardHHObjptr (H := runtime64) evacuating collecting_args 8400 =
      Ok (s', args', 12376 + 8) /\
    objects s' =
      <[8400 := set_fwdPtr a_normal (12376 + 8)]> (objects after_copy) /\
    chunks s' = chunks after_copy /\
    chunkLists s' = chunkLists after_copy /\
    freeChunks s' = freeChunks after_copy /\
    bytesCopied args' = add64 (bytesCopied collecting_args) 24 /\
    objectsCopied args' = add64 (objectsCopied collecting_args) 1 /\
    stacksCopied args' =
      (if bool_decide (NORMAL_TAG = STACK_TAG)
       then add64 (stacksCopied collecting_args) 1
       else stacksCopied collecting_args) /\
    bytesMoved args' = bytesMoved collecting_args /\
    objectsMoved args' = objectsMoved collecting_args /\
    toSpace args' = toSpace collecting_args.
Proof.
  apply (@forwardHHObjptr_copies runtime64 evacuating collecting_args 8400
           a_normal NORMAL_TAG 16 0
           {| frontier := 8416; limit := 12288;
              mightContainMultipleObjects := true; levelHead := Some 100 |}
           100
           {| chunkIds := [8192]; level := 2; isInToSpace := false;
              containingHH := 1 |}
           200 evacuating 24 24 8 after_copy 12376 a_normal);
    try reflexivity.
  cbn. lia.
Defined.

End CopyInstances.

(** ** What the weak fixup leaves alone *)

Section WeakFixupFrame.
Import Cheney WeakFrame.
Context `{ObjectModel}.

Lemma only_weaks_touched_refl t : only_weaks_touched t t.
Proof. repeat split; eauto. Qed.

Lemma only_weaks_touched_trans t t1 t' :
  only_weaks_touched t t1 -> only_weaks_touched t1 t' ->
  only_weaks_touched t t'.
Proof.
  intros (Hw1 & Hs1 & Hl1 & Hn1 & Hh1) (Hw2 & Hs2 & Hl2 & Hn2 & Hh2).
  split; [congruence|]. split; [congruence|]. split; [|split].
  - intros w wk Hwk. destruct (Hl1 w wk Hwk) as (wk1 & Hwk1 & Hlink1).
    destruct (Hl2 w wk1 Hwk1) as (wk2 & Hwk2 & Hlink2).
    exists wk2. split; [done|congruence].
  - intros w Hw. apply Hn2. by apply Hn1.
  - intros q. destruct (Hh2 q) as [Heq | (Hgone & w & Hsome & ->)].
    + rewrite Heq. apply Hh1.
    + right. split; [done|]. exists w. split; [|done].
      destruct (weakStructs t !! w) eqn:Hw; [eauto|].
      pose proof (Hn1 w Hw) as Hnone. destruct Hsome as [wk Hwk].
      unfold pointer in *. congruence.
Qed.

(** [w->objptr = o] on a weak of the heap. *)
Lemma store_w_objptr_frame t w o t1 :
  store_w_objptr t w o = Ok t1 ->
  headers t1 = headers t /\ only_weaks_touched t t1.
Proof.
  unfold store_w_objptr. destruct (weakStructs t !! w) as [wk|] eqn:Hwk;
    rsimpl; [|done].
  intros [= <-]. split; [done|]. split; [done|]. split; [done|].
  cbn [weakStructs set_weakStructs headers]. split; [|split].
  - intros w' wk' Hwk'. destruct (decide (w' = w)) as [->|Hne].
    + rewrite lookup_insert_eq. eexists. split; [done|].
      cbn [w_link]. congruence.
    + rewrite lookup_insert_ne by done. eauto.
  - intros w' Hw'. rewrite lookup_insert_ne; [done|]. congruence.
  - by left.
Qed.

Lemma updateWeaks_loop_frame fuel : forall t w t',
  updateWeaks_loop fuel t w = Ok t' -> only_weaks_touched t t'.
Proof.
  induction fuel as [|fuel IH]; intros t w t'; cbn [updateWeaks_loop];
    case_bool_decide as Hnull;
    try (intros [= <-]; apply only_weaks_touched_refl).
  destruct (weakStructs t !! w) as [wk|] eqn:Hwk; rsimpl; [|done].
  destruct (headers t !! objptrToPointer (w_objptr wk) (heap_start t))
    as [hdr|]; rsimpl; [|done].
  assert (forall t1 : GC_state,
    only_weaks_touched t t1 ->
    (w_link <$> deref (weakStructs t1 !! w)) ≫=
      (λ next, updateWeaks_loop fuel t1 next) = Ok t' ->
    only_weaks_touched t t') as Hcont.
  { intros t1 Hstep. destruct (weakStructs t1 !! w); rsimpl; [|done].
    intros Hloop. eapply only_weaks_touched_trans; [exact Hstep|].
    by eapply IH. }
  case_bool_decide.
  - destruct (words t !! objptrToPointer (w_objptr wk) (heap_start t));
      rsimpl; [|done].
    destruct (store_w_objptr t w o) as [t1| | |] eqn:Hstore; rsimpl;
      try done.
    apply Hcont. by apply (store_w_objptr_frame t w o).
  - destruct (store_w_objptr _ w BOGUS_OBJPTR) as [t1| | |] eqn:Hstore;
      rsimpl; try done.
    apply Hcont.
    destruct (store_w_objptr_frame _ _ _ _ Hstore)
      as (Hhdr & Hw & Hs & Hl & Hn & _).
    repeat split; try done. intros q. rewrite Hhdr. cbn [headers set_headers].
    destruct (decide (q = w - offsetofWeak)) as [->|Hne].
    + right. rewrite lookup_insert_eq. split; [done|]. exists w. eauto.
    + left. by rewrite lookup_insert_ne.
Qed.

(** X15: whenever [updateWeaksForCheneyCopy] returns, it has written
    nothing but the [objptr] field of weaks and headers of weak objects.
    No body word of the heap has changed; the heap has the weaks it had, each
    with the [link] it had; and a header that has changed is the header of
    a weak object and is now [GC_WEAK_GONE_HEADER]. *)
Theorem updateWeaksForCheneyCopy_frame s s' :
  updateWeaksForCheneyCopy s = Ok s' ->
  words s' = words s /\
  heap_start s' = heap_start s /\
  (forall w wk, weakStructs s !! w = Some wk ->
     exists wk', weakStructs s' !! w = Some wk' /\ w_link wk' = w_link wk) /\
  (forall w, weakStructs s !! w = None -> weakStructs s' !! w = None) /\
  (forall q, headers s' !! q = headers s !! q \/
             headers s' !! q = Some GC_WEAK_GONE_HEADER /\
             exists w, is_Some (weakStructs s !! w) /\ q = w - offsetofWeak).
Proof.
  unfold updateWeaksForCheneyCopy.
  destruct (updateWeaks_loop (size (weakStructs s)) s (weaks s))
    as [t| | |] eqn:Hloop; rsimpl; try done.
  intros [= <-]. exact (updateWeaks_loop_frame _ _ _ _ Hloop).
Qed.

End WeakFixupFrame.

Section WeakFrameInstances.
Import Cheney Example WeakFrame.

Lemma updateWeaksForCheneyCopy_frame_witness :
  words two_weaks_fixed = words two_weaks /\
  heap_start two_weaks_fixed = heap_start two_weaks /\
  (forall w wk, weakStructs two_weaks !! w = Some wk ->
     exists wk', weakStructs two_weaks_fixed !! w = Some wk' /\
                 w_link wk' = w_link wk) /\
  (forall w, weakStructs two_weaks !! w = None ->
             weakStructs two_weaks_fixed !! w = None) /\
  (forall q, headers two_weaks_fixed !! q = headers two_weaks !! q \/
             headers two_weaks_fixed !! q =
               Some (@GC_WEAK_GONE_HEADER objectModel64) /\
             exists w, is_Some (weakStructs two_weaks !! w) /\
                       q = w - @offsetofWeak objectModel64).
Proof.
  apply (@updateWeaksForCheneyCopy_frame objectModel64 two_weaks
           two_weaks_fixed).
  vm_compute. reflexivity.
Defined.

End WeakFrameInstances.

(** ** What HM_ensureHierarchicalHeapAssurances assures *)

Section EnsureRoom.
Import LocalHeap.
Context `{Collaborators}.

Lemma grow_and_extend_room s growStack stackBytes bytesRequested
    ensureCurrentLevel s' :
  grow_and_extend s growStack stackBytes bytesRequested ensureCurrentLevel
    = Ok s' ->
  mustExtend s' ensureCurrentLevel bytesRequested = false \/
  exists s0 sx,
    HM_HH_extend s0 bytesRequested = (sx, true) /\
    s' = publish sx (HM_HH_getFrontier sx) (HM_HH_getLimit sx).
Proof.
  unfold grow_and_extend.
  destruct (if growStack then _ else _) as [s1| | |]; rsimpl; try done.
  destruct (mustExtend s1 ensureCurrentLevel bytesRequested) eqn:Hext.
  - unfold extend_and_publish.
    destruct (HM_HH_extend s1 bytesRequested) as [sx ok] eqn:Hsx.
    destruct ok; cbn [negb]; [|done].
    intros [= <-]. right. by exists s1, sx.
  - intros [= <-]. by left.
Qed.

(** X16: when [HM_ensureHierarchicalHeapAssurances] returns, either the
    heap has just been extended for [bytesRequested] bytes and the frontier
    and limits are those of the extended heap, or the mutator can allocate
    where it is: there is a last allocated chunk, of the level of the heap
    if [ensureCurrentLevel] asks for that, its frontier is inside its first
    block, and there are at least [bytesRequested] bytes between
    [s->frontier] and [s->limitPlusSlop]. *)
Theorem ensure_leaves_room
    (s : GC_state world) forceGC bytesRequested ensureCurrentLevel calls s' :
  HM_ensureHierarchicalHeapAssurances s forceGC bytesRequested
    ensureCurrentLevel = (calls, Ok s') ->
  (lastAllocatedChunk (hh s') <> NULL /\
   (ensureCurrentLevel = true ->
      levelOfChunk s' (lastAllocatedChunk (hh s')) = level (hh s')) /\
   HM_getChunkFrontier s' (lastAllocatedChunk (hh s')) <
     lastAllocatedChunk (hh s') + HM_BLOCK_SIZE /\
   bytesRequested <= sub64 (limitPlusSlop s') (frontier s')) \/
  exists s0 sx,
    HM_HH_extend s0 bytesRequested = (sx, true) /\
    s' = publish sx (HM_HH_getFrontier sx) (HM_HH_getLimit sx) /\
    limit s' = limitPlusSlop s' - GC_HEAP_LIMIT_SLOP.
Proof.
  intros Hrun.
  assert (exists s1 growStack stackBytes,
    grow_and_extend s1 growStack stackBytes bytesRequested
      ensureCurrentLevel = Ok s') as (s1 & g & sb & Hgrow).
  { revert Hrun. unfold HM_ensureHierarchicalHeapAssurances.
    destruct (negb (invariantForMutatorStack s)); cbv zeta;
      (destruct (_ <? _); [done|]);
      (destruct (_ || _); intros [= _ Hrun]; [|eauto]);
      (destruct (collect _ _) as [s1| | |]; rsimpl in Hrun; [eauto|done..]). }
  destruct (grow_and_extend_room _ _ _ _ _ _ Hgrow)
    as [Hroom | (s0 & sx & Hext & ->)].
  - left. unfold mustExtend in Hroom.
    apply orb_false_iff in Hroom as [Hroom Hbytes].
    apply orb_false_iff in Hroom as [Hroom Hblock].
    apply orb_false_iff in Hroom as [Hnull Hlevel].
    apply bool_decide_eq_false in Hnull.
    apply Z.leb_gt in Hblock. apply Z.ltb_ge in Hbytes.
    repeat split; try done; try congruence.
    intros ->. cbn [andb] in Hlevel. apply negb_false_iff in Hlevel.
    by apply Z.eqb_eq in Hlevel.
  - right. by exists s0, sx.
Qed.

End EnsureRoom.

Section EnsureRoomInstances.
Import LocalHeap ExampleLocalHeap.

Lemma ensure_leaves_room_witness :
  (lastAllocatedChunk (hh mutator) <> NULL /\
   (false = true ->
      @levelOfChunk quiet_collaborators mutator
        (lastAllocatedChunk (hh mutator)) = level (hh mutator)) /\
   @HM_getChunkFrontier quiet_collaborators mutator
       (lastAllocatedChunk (hh mutator)) <
     lastAllocatedChunk (hh mutator) + @HM_BLOCK_SIZE quiet_collaborators /\
   800 <= sub64 (limitPlusSlop mutator) (frontier mutator)) \/
  exists s0 sx,
    @HM_HH_extend quiet_collaborators s0 800 = (sx, true) /\
    mutator = @publish quiet_collaborators sx
                (@HM_HH_getFrontier quiet_collaborators sx)
                (@HM_HH_getLimit quiet_collaborators sx) /\
    limit mutator =
      limitPlusSlop mutator - @GC_HEAP_LIMIT_SLOP quiet_collaborators.
Proof.
  apply (@ensure_leaves_room quiet_collaborators mutator false 800 false []).
  reflexivity.
Defined.

End EnsureRoomInstances.

(** ** Forwarding the same slot twice *)

Section MoveOnce.
Import HHC.
Context `{Runtime}.

(** X17: a single-object chunk is moved once.  After [forwardHHObjptr]
    has moved the chunk of an object into the to-space list of its level, a
    second [forwardHHObjptr] on the same slot finds the object in the
    to-space and changes neither the heap nor the slot nor the counters: no
    second chunk is allocated behind it and [objectsMoved] counts the
    object once. *)
Theorem forwardHHObjptr_moves_once
    s args op o tag bnp np c src l tgt lt a e rest :
  isObjptr op = true ->
  isObjptrInRootHeap op = false ->
  objects s !! op = Some o ->
  fwdPtr o = None ->
  splitHeader (header o) = (tag, bnp, np) ->
  tag <> WEAK_TAG ->
  chunks s !! HM_getChunkOf op = Some c ->
  mightContainMultipleObjects c = false ->
  levelHead c = Some src ->
  chunkLists s !! src = Some l ->
  isInToSpace l = false ->
  minLevel args <= level l <= maxLevel args ->
  toSpace args !! level l = Some tgt ->
  chunkLists s !! tgt = Some lt ->
  isInToSpace lt = true ->
  level lt = level l ->
  freeChunks s = (a, e) :: rest ->
  a <> HM_getChunkOf op ->
  exists s' args',
    forwardHHObjptr s args op = Ok (s', args', op) /\
    objectsMoved args' = add64 (objectsMoved args) 1 /\
    forwardHHObjptr s' args' op = Ok (s', args', op).
Proof.
  intros Hptr Hroot Ho Hfwd Hsplit Hweak Hc Hsingle Hlh Hsrc Hfrom
         [Hmin Hmax] Htgt Hlt Hto Hlevel Hfree Ha.
  destruct (computeObjectCopyParameters_frame s op o tag bnp np
              Ho Hsplit Hweak)
    as (s1 & objectBytes & copyBytes & metaDataBytes & o1 &
        Hcompute & Hchunks1 & Hlists1 & Hfree1 & Ho1 & Hfwd1 & Hhdr1).
  assert (tgt <> src) as Hne by (intros ->; congruence).
  destruct (move_chunk_and_trail s1 (HM_getChunkOf op) c src l tgt lt
              a e rest GC_HEAP_LIMIT_SLOP)
    as (s' & lsrc & c' & ct & Hmove & Hobjs & Hlt' & Hlsrc & Hgone &
        Hc' & Hlh' & Hflag' & Hct & Hlhct & Hslop);
    try congruence.
  assert (exists args1,
            match tag with
            | STACK_TAG => Ok (incr_stacksCopied args)
            | WEAK_TAG => Die DieWeakTag
            | _ => Ok args
            end = Ok args1 /\
            toSpace args1 = toSpace args /\
            maxLevel args1 = maxLevel args /\
            objectsMoved args1 = objectsMoved args)
    as (args1 & Hargs1 & HtoSpace1 & Hmax1 & Hom1).
  { destruct tag; [by eexists|by eexists|by eexists|done]. }
  exists s', (account_moved args1 copyBytes).
  split; [|split].
  - unfold forwardHHObjptr.
    rewrite Hptr, Hroot. cbn [negb orb].
    unfold HM_getObjptrLevel, HM_isObjptrInToSpace.
    rewrite (getLevelHead_eq s op c src l Hc Hlh Hsrc). rsimpl.
    destruct (Z.ltb_spec (maxLevel args) (level l)); [lia|].
    destruct (Z.ltb_spec (level l) (minLevel args)); [lia|]. rsimpl.
    rewrite (chaseFwdPtr_not_forwarded _ s op o Ho Hfwd). rsimpl.
    rewrite (getLevelHead_eq s op c src l Hc Hlh Hsrc). rsimpl.
    destruct (Z.ltb_spec (level l) (minLevel args)); [lia|].
    rewrite Hfrom. rewrite Hcompute. rsimpl. rewrite Hargs1. rsimpl.
    rewrite HtoSpace1, Htgt. rsimpl.
    rewrite Hchunks1, Hc. rsimpl. rewrite Hsingle. rsimpl.
    destruct (HM_unlinkChunk s1 (HM_getChunkOf op)) as [s3| | |];
      rsimpl in Hmove; try discriminate; rsimpl.
    destruct (HM_appendChunk s3 tgt (HM_getChunkOf op)) as [s4| | |];
      rsimpl in Hmove; try discriminate; rsimpl.
    rewrite Hmove. rsimpl. reflexivity.
  - cbn [objectsMoved account_moved]. by rewrite Hom1.
  - apply (forwardHHObjptr_in_to_space s' _ op o1 c' tgt
             (set_chunkIds lt (chunkIds lt ++ [HM_getChunkOf op; a])));
      try done.
    + by rewrite Hobjs.
    + congruence.
    + cbn [level set_chunkIds maxLevel account_moved]. lia.
Qed.

End MoveOnce.

Section MoveOnceInstances.
Import HHC Example ExampleForward.

Lemma forwardHHObjptr_moves_once_witness :
  exists s' args',
    forwardHHObjptr (H := runtime64) evacuating_stack collecting_args 8264 =
      Ok (s', args', 8264) /\
    objectsMoved args' = add64 (objectsMoved collecting_args) 1 /\
    forwardHHObjptr (H := runtime64) s' args' 8264 = Ok (s', args', 8264).
Proof.
  apply (@forwardHHObjptr_moves_once runtime64 evacuating_stack
           collecting_args 8264 a_stack STACK_TAG 0 0 lone_chunk 100
           from_space_list 200 to_space_list 16384 0%N []);
    try reflexivity; done.
Defined.

End MoveOnceInstances.

(** ** The scan of the to-space *)

Section ScanToSpace.
Import CollectLocal CollectScan.
Context {world : Type}.
Context (toSpace : world -> Z -> option pointer).
Context (firstChunk : world -> pointer -> option pointer).
Context (forwardIn : pointer -> world -> result world).

Lemma scanLoop_visits (minLevel : Z) (n : nat) : forall fuel w,
  0 <= minLevel ->
  minLevel + Z.of_nat n < U32_MODULUS ->
  (n <= fuel)%nat ->
  scanLoop toSpace firstChunk forwardIn fuel (minLevel + Z.of_nat n)
           minLevel w =
    visitLevels toSpace firstChunk forwardIn
                (reverse (seqZ minLevel (Z.of_nat n))) w.
Proof.
  induction n as [|n IH]; intros fuel w Hmin Hmax Hfuel.
  - destruct fuel; cbn [scanLoop];
      (destruct (Z.ltb_spec minLevel (minLevel + Z.of_nat 0)); [lia|done]).
  - destruct fuel as [|fuel]; [lia|]. cbn [scanLoop].
    destruct (Z.ltb_spec minLevel (minLevel + Z.of_nat (S n))); [|lia].
    replace (minLevel + Z.of_nat (S n) - 1) with (minLevel + Z.of_nat n)
      by lia.
    rewrite wrap32_small by lia.
    replace (Z.of_nat (S n)) with (Z.of_nat n + 1) by lia.
    rewrite seqZ_app by lia. rewrite reverse_app.
    change (seqZ (minLevel + Z.of_nat n) 1) with
      [minLevel + Z.of_nat n].
    cbn [reverse rev_append app visitLevels].
    destruct (scanLevel toSpace firstChunk forwardIn
                (minLevel + Z.of_nat n) w) as [w1| | |]; rsimpl; try done.
    apply IH; lia.
Qed.

(** X18: the scan of the to-space in [HM_HHC_collectLocal] visits the
    levels [currentDepth], [currentDepth - 1], ..., [minLevel], each once
    and in this order, as far as no scan aborts; it ends also for
    [minLevel = 0], and visits nothing when [minLevel > currentDepth].  At a
    level it scans the to-space list from its first chunk on if the list
    exists and has a chunk just then.  If [currentDepth] were [2^32 - 1],
    [currentDepth+1] would be 0 and nothing would be scanned. *)
Theorem scanToSpace_visits (currentDepth minLevel : Z) (w : world) :
  0 <= minLevel ->
  0 <= currentDepth < U32_MODULUS ->
  (currentDepth + 1 < U32_MODULUS ->
   scanToSpace toSpace firstChunk forwardIn currentDepth minLevel w =
     visitLevels toSpace firstChunk forwardIn
       (reverse (seqZ minLevel (currentDepth + 1 - minLevel))) w) /\
  (currentDepth = U32_MODULUS - 1 ->
   scanToSpace toSpace firstChunk forwardIn currentDepth minLevel w = Ok w).
Proof.
  intros Hmin Hdepth. unfold scanToSpace. split.
  - intros Hmax. rewrite wrap32_small by lia.
    destruct (Z_le_gt_dec (currentDepth + 1) minLevel) as [Hnone|Hsome].
    + rewrite seqZ_nil by lia.
      destruct (Z.to_nat (currentDepth + 1)); cbn [scanLoop];
        (destruct (Z.ltb_spec minLevel (currentDepth + 1)); [lia|done]).
    + pose proof (scanLoop_visits minLevel
                    (Z.to_nat (currentDepth + 1 - minLevel))
                    (Z.to_nat (currentDepth + 1)) w) as Hloop.
      rewrite Z2Nat.id in Hloop by lia.
      replace (minLevel + (currentDepth + 1 - minLevel))
        with (currentDepth + 1) in Hloop by lia.
      apply Hloop; lia.
  - intros ->. change (wrap32 (U32_MODULUS - 1 + 1)) with 0.
    change (Z.to_nat 0) with 0%nat. unfold scanLoop.
    destruct (Z.ltb_spec minLevel 0); [lia|done].
Qed.

End ScanToSpace.

Section ScanInstances.
Import CollectLocal CollectScan.

Lemma scanToSpace_visits_witness :
  (3 + 1 < U32_MODULUS ->
   scanToSpace ExampleScan.toSpace ExampleScan.firstChunk ExampleScan.scan
     3 1 [] =
     visitLevels ExampleScan.toSpace ExampleScan.firstChunk ExampleScan.scan
       (reverse (seqZ 1 (3 + 1 - 1))) []) /\
  (3 = U32_MODULUS - 1 ->
   scanToSpace ExampleScan.toSpace ExampleScan.firstChunk ExampleScan.scan
     3 1 [] = Ok []).
Proof.
  apply (scanToSpace_visits ExampleScan.toSpace ExampleScan.firstChunk
           ExampleScan.scan 3 1 []); unfold U32_MODULUS; lia.
Defined.

End ScanInstances.

(** ** init-world.c: the initial vectors *)

Section InitVectors.
Import InitWorld.
Context `{Collaborators}.

Local Ltac osimpl := cbn [mbind outcome_bind mret outcome_ret].

(** The sizes of a vector that [fit] accepts, without wrap-around. *)
Lemma objectSize_exact (v : GC_vectorInit) (a : Z) :
  0 <= GC_SEQUENCE_METADATA_SIZE ->
  (elementSize v = 1 \/ elementSize v = 2 \/ elementSize v = 4 \/
   elementSize v = 8) ->
  0 <= length v ->
  GC_SEQUENCE_METADATA_SIZE + elementSize v * length v < U64_MODULUS ->
  wrap64 (elementSize v * length v) = elementSize v * length v /\
  align (add64 GC_SEQUENCE_METADATA_SIZE
           (wrap64 (elementSize v * length v))) a =
    align (GC_SEQUENCE_METADATA_SIZE + elementSize v * length v) a.
Proof.
  intros Hmeta Hsize Hlen Hfits.
  assert (0 <= elementSize v * length v) by nia.
  assert (wrap64 (elementSize v * length v) = elementSize v * length v)
    as -> by (apply wrap64_small; unfold is_u64; lia).
  split; [done|]. unfold add64.
  by rewrite wrap64_small by (unfold is_u64; lia).
Qed.

(** One vector that fits: the loop body makes the four stores of
    [vectorStores], stores the address of the data in the global and moves
    the frontier by the size of the object. *)
Lemma initVector_fits (v : GC_vectorInit) (s : GC_state world) (l : locals) :
  GC_SEQUENCE_COUNTER_SIZE + GC_SEQUENCE_LENGTH_SIZE + GC_HEADER_SIZE =
    GC_SEQUENCE_METADATA_SIZE ->
  0 <= GC_SEQUENCE_METADATA_SIZE ->
  l_limit l - l_frontier l < U64_MODULUS ->
  fit (alignment s) (l_currentChunk l) (l_limit l) [v]
      (List.length (globals s)) (l_frontier l) ->
  initVector v s l =
    Returns
      ({| frontier := frontier s; limitPlusSlop := limitPlusSlop s;
          limit := limit s; alignment := alignment s;
          globals :=
            <[Z.to_nat (globalIndex v) :=
                pointerToObjptr (l_frontier l + GC_SEQUENCE_METADATA_SIZE)
                                NULL]> (globals s);
          vectorInits := vectorInits s;
          stores := stores s ++ vectorStores v (l_frontier l);
          rest := rest s |},
       {| l_frontier :=
            l_frontier l +
            align (GC_SEQUENCE_METADATA_SIZE + elementSize v * length v)
                  (alignment s);
          l_limit := l_limit l; l_currentChunk := l_currentChunk l |}).
Proof.
  intros Hlayout Hmeta Hroom
         (Hsize & Hlen & Hfits & Hobj & Hidx & Hlim & Hblock & _).
  destruct (objectSize_exact v (alignment s) Hmeta Hsize Hlen Hfits)
    as [Hdata Halign].
  unfold initVector. rewrite Halign, Hdata.
  set (objectSize :=
         align (GC_SEQUENCE_METADATA_SIZE + elementSize v * length v)
               (alignment s)) in *.
  rewrite wrap64_small by (unfold is_u64; lia).
  destruct (Z.ltb_spec (l_limit l - l_frontier l) objectSize); [lia|].
  rewrite Hblock. cbn [negb orb]. osimpl.
  assert (exists typeIndex,
    (if elementSize v =? 1 then Returns WORD8_VECTOR_TYPE_INDEX
     else if elementSize v =? 2 then Returns WORD16_VECTOR_TYPE_INDEX
     else if elementSize v =? 4 then Returns WORD32_VECTOR_TYPE_INDEX
     else if elementSize v =? 8 then Returns WORD64_VECTOR_TYPE_INDEX
     else Aborts (UnknownElementSize (elementSize v))) = Returns typeIndex /\
    typeIndex =
      (if elementSize v =? 1 then WORD8_VECTOR_TYPE_INDEX
       else if elementSize v =? 2 then WORD16_VECTOR_TYPE_INDEX
       else if elementSize v =? 4 then WORD32_VECTOR_TYPE_INDEX
       else WORD64_VECTOR_TYPE_INDEX)) as (typeIndex & -> & ->).
  { destruct Hsize as [-> | [-> | [-> | ->]]]; by eexists. }
  osimpl. unfold store_global. cbn [globals store].
  destruct (Z.leb_spec 0 (globalIndex v)); [|lia].
  destruct (Z.ltb_spec (globalIndex v) (Z.of_nat (List.length (globals s))));
    [|lia].
  cbn [andb]. osimpl. unfold store, set_globals, vectorStores.
  cbn [frontier limitPlusSlop limit alignment globals vectorInits stores
       rest].
  rewrite (sub64_exact objectSize GC_SEQUENCE_METADATA_SIZE) by lia.
  rewrite <- !app_assoc. cbn [app].
  replace (l_frontier l + GC_SEQUENCE_COUNTER_SIZE +
           GC_SEQUENCE_LENGTH_SIZE + GC_HEADER_SIZE)
    with (l_frontier l + GC_SEQUENCE_METADATA_SIZE) by lia.
  replace (l_frontier l + GC_SEQUENCE_METADATA_SIZE +
           (objectSize - GC_SEQUENCE_METADATA_SIZE))
    with (l_frontier l + objectSize) by lia.
  reflexivity.
Qed.

Lemma fit_bytesOf a chunk lim inits n : forall f,
  0 <= GC_SEQUENCE_METADATA_SIZE ->
  fit a chunk lim inits n f ->
  0 <= bytesOf a inits /\ (f <= lim -> f + bytesOf a inits <= lim).
Proof.
  induction inits as [|v inits IH]; intros f Hmeta Hfit; cbn [bytesOf foldr].
  - lia.
  - destruct Hfit as (_ & _ & _ & Hobj & _ & Hlim & _ & Hrest).
    destruct (IH _ Hmeta Hrest) as [Hpos Hle]. fold (bytesOf a inits).
    split; [lia|]. intros _. rewrite Z.add_assoc. apply Hle. lia.
Qed.

(** [sizeofInitialBytesLive] adds up the sizes of the vectors, as long
    as the sum is a [size_t]. *)
Lemma foldl_sizes a chunk lim n inits : forall f total,
  0 <= GC_SEQUENCE_METADATA_SIZE ->
  fit a chunk lim inits n f ->
  0 <= total ->
  total + bytesOf a inits < U64_MODULUS ->
  foldl (λ total v,
           let dataBytes := wrap64 (elementSize v * length v) in
           add64 total
                 (align (add64 GC_SEQUENCE_METADATA_SIZE dataBytes) a))
        total inits = total + bytesOf a inits.
Proof.
  induction inits as [|v inits IH]; intros f total Hmeta Hfit Htotal Hsum;
    cbn [foldl bytesOf foldr] in *; [lia|].
  fold (bytesOf a inits) in *.
  destruct Hfit as (Hsize & Hlen & Hfits & Hobj & _ & _ & _ & Hrest).
  destruct (objectSize_exact v a Hmeta Hsize Hlen Hfits) as [Hdata Halign].
  cbv zeta. rewrite Halign.
  destruct (fit_bytesOf _ _ _ _ _ _ Hmeta Hrest) as [Hpos _].
  assert (add64 total
            (align (GC_SEQUENCE_METADATA_SIZE + elementSize v * length v) a)
          = total +
            align (GC_SEQUENCE_METADATA_SIZE + elementSize v * length v) a)
    as -> by (unfold add64; apply wrap64_small; unfold is_u64; lia).
  rewrite (IH _ _ Hmeta Hrest) by lia. lia.
Qed.

Lemma sizeofInitialBytesLive_exact (s : GC_state world) chunk lim n f :
  0 <= GC_SEQUENCE_METADATA_SIZE ->
  fit (alignment s) chunk lim (vectorInits s) n f ->
  bytesOf (alignment s) (vectorInits s) < U64_MODULUS ->
  sizeofInitialBytesLive s = bytesOf (alignment s) (vectorInits s).
Proof.
  intros Hmeta Hfit Hsum. unfold sizeofInitialBytesLive.
  etrans; [apply (foldl_sizes _ _ _ _ _ _ 0 Hmeta Hfit); lia|lia].
Qed.

(** The loop on vectors that fit. *)
Lemma initVectors_loop_fits inits : forall (s : GC_state world) (l : locals),
  GC_SEQUENCE_COUNTER_SIZE + GC_SEQUENCE_LENGTH_SIZE + GC_HEADER_SIZE =
    GC_SEQUENCE_METADATA_SIZE ->
  0 <= GC_SEQUENCE_METADATA_SIZE ->
  l_limit l - l_frontier l < U64_MODULUS ->
  fit (alignment s) (l_currentChunk l) (l_limit l) inits
      (List.length (globals s)) (l_frontier l) ->
  initVectors_loop inits s l =
    Returns
      ({| frontier := frontier s; limitPlusSlop := limitPlusSlop s;
          limit := limit s; alignment := alignment s;
          globals :=
            globalsSet (alignment s) inits (l_frontier l) (globals s);
          vectorInits := vectorInits s;
          stores := stores s ++ laidOut (alignment s) inits (l_frontier l);
          rest := rest s |},
       {| l_frontier := l_frontier l + bytesOf (alignment s) inits;
          l_limit := l_limit l; l_currentChunk := l_currentChunk l |}).
Proof.
  induction inits as [|v inits IH]; intros s l Hlayout Hmeta Hroom Hfit.
  - cbn [initVectors_loop globalsSet laidOut bytesOf foldr].
    rewrite app_nil_r, Z.add_0_r. by destruct s, l.
  - cbn [initVectors_loop].
    pose proof Hfit as (Hsize & Hlen & Hfits & Hobj & Hidx & Hlim & Hblock &
                        Hrest).
    rewrite (initVector_fits v s l Hlayout Hmeta Hroom)
      by (cbn [fit]; done).
    osimpl. rewrite IH; try done.
    + cbn [frontier limitPlusSlop limit alignment globals vectorInits stores
           rest l_frontier l_limit l_currentChunk globalsSet laidOut bytesOf
           foldr].
      fold (bytesOf (alignment s) inits).
      rewrite <- app_assoc, Z.add_assoc. reflexivity.
    + cbn [l_frontier l_limit]. lia.
    + cbn [alignment globals l_frontier l_limit l_currentChunk].
      by rewrite length_insert.
Qed.

(** [initVectors] on vectors that fit. *)
Lemma initVectors_fits (s : GC_state world) :
  GC_SEQUENCE_COUNTER_SIZE + GC_SEQUENCE_LENGTH_SIZE + GC_HEADER_SIZE =
    GC_SEQUENCE_METADATA_SIZE ->
  0 <= GC_SEQUENCE_METADATA_SIZE ->
  frontier s <= limitPlusSlop s < frontier s + U64_MODULUS ->
  fit (alignment s) (HM_getChunkOf (frontier s)) (limitPlusSlop s)
      (vectorInits s) (List.length (globals s)) (frontier s) ->
  inFirstBlockOfChunk (HM_getChunkOf (frontier s))
    (frontier s + bytesOf (alignment s) (vectorInits s)) = true ->
  exists s',
    initVectors s = Returns s' /\
    frontier s' = frontier s + sizeofInitialBytesLive s /\
    frontier s' <= limitPlusSlop s' /\
    limitPlusSlop s' = limitPlusSlop s /\
    limit s' = limit s /\
    rest s' = rest s /\
    stores s' =
      stores s ++ laidOut (alignment s) (vectorInits s) (frontier s) /\
    globals s' =
      globalsSet (alignment s) (vectorInits s) (frontier s) (globals s).
Proof.
  intros Hlayout Hmeta Hroom Hfit Hblock.
  destruct (fit_bytesOf _ _ _ _ _ _ Hmeta Hfit) as [Hpos Hle].
  unfold initVectors.
  rewrite initVectors_loop_fits; try done; [|cbn [l_limit l_frontier]; lia].
  osimpl. cbn [l_frontier l_currentChunk]. rewrite Hblock. cbn [negb].
  eexists. split; [reflexivity|].
  cbn [set_frontier frontier limitPlusSlop limit rest stores globals].
  rewrite (sizeofInitialBytesLive_exact s _ _ _ _ Hmeta Hfit) by lia.
  repeat split; try done; lia.
Qed.

Lemma bytesOf_cons a v inits :
  bytesOf a (v :: inits) =
    align (GC_SEQUENCE_METADATA_SIZE + elementSize v * length v) a +
    bytesOf a inits.
Proof. reflexivity. Qed.

(** Where the stores of the vector number [i] are. *)
Lemma laidOut_at a inits : forall (i : nat) v f,
  inits !! i = Some v ->
  exists before after,
    laidOut a inits f =
      before ++ vectorStores v (f + bytesOf a (take i inits)) ++ after.
Proof.
  induction inits as [|v0 inits IH]; intros i v f Hi; [done|].
  destruct i as [|i]; cbn [laidOut].
  - injection Hi as ->. exists [], (laidOut a inits
      (f + align (GC_SEQUENCE_METADATA_SIZE + elementSize v * length v) a)).
    cbn [take]. change (bytesOf a []) with 0. by rewrite Z.add_0_r.
  - destruct (IH i v
                (f + align (GC_SEQUENCE_METADATA_SIZE +
                            elementSize v0 * length v0) a) Hi)
      as (before & after & ->).
    exists (vectorStores v0 f ++ before), after.
    cbn [take]. rewrite bytesOf_cons, Z.add_assoc.
    by rewrite <- app_assoc.
Qed.

Lemma globalsSet_length a inits : forall f g,
  List.length (globalsSet a inits f g) = List.length g.
Proof.
  induction inits as [|v inits IH]; intros f g; cbn [globalsSet]; [done|].
  by rewrite IH, length_insert.
Qed.

(** A global that no vector names keeps its value. *)
Lemma globalsSet_other a inits : forall f g (k : nat),
  (forall v, v ∈ inits -> Z.to_nat (globalIndex v) <> k) ->
  globalsSet a inits f g !! k = g !! k.
Proof.
  induction inits as [|v inits IH]; intros f g k Hk; cbn [globalsSet];
    [done|].
  rewrite IH by (intros v' Hin; apply Hk; by right).
  apply list_lookup_insert_ne. apply Hk. by left.
Qed.

(** The global of the vector number [i] when no later vector names it. *)
Lemma globalsSet_at a inits : forall (i : nat) v f g,
  inits !! i = Some v ->
  (Z.to_nat (globalIndex v) < List.length g)%nat ->
  (forall (j : nat) v', (i < j)%nat -> inits !! j = Some v' ->
     Z.to_nat (globalIndex v') <> Z.to_nat (globalIndex v)) ->
  globalsSet a inits f g !! Z.to_nat (globalIndex v) =
    Some (pointerToObjptr
            (f + bytesOf a (take i inits) + GC_SEQUENCE_METADATA_SIZE) NULL).
Proof.
  induction inits as [|v0 inits IH]; intros i v f g Hi Hlen Hlast; [done|].
  destruct i as [|i]; cbn [globalsSet take].
  - injection Hi as ->. change (bytesOf a []) with 0. rewrite Z.add_0_r.
    rewrite globalsSet_other.
    + by apply list_lookup_insert_eq.
    + intros v' Hin. apply list_elem_of_lookup in Hin as [j Hj].
      apply (Hlast (S j)); [lia|done].
  - rewrite bytesOf_cons, Z.add_assoc. apply IH; [done| |].
    + by rewrite length_insert.
    + intros j v' Hij Hj. apply (Hlast (S j)); [lia|done].
Qed.

Lemma fit_global_in_range a chunk lim n inits : forall f v,
  fit a chunk lim inits n f -> v ∈ inits ->
  0 <= globalIndex v < Z.of_nat n.
Proof.
  induction inits as [|v0 inits IH]; intros f v Hfit Hin.
  - by apply elem_of_nil in Hin.
  - destruct Hfit as (_ & _ & _ & _ & Hidx & _ & _ & Hrest).
    apply elem_of_cons in Hin as [->|Hin]; [done|]. by eapply IH.
Qed.

(** X19: [initVectors] when the vectors fit behind the frontier, in the
    first block of its chunk ([fit]), with the sequence metadata being the
    counter, the length and the header.  The function returns without
    extending the heap: the limits and the hierarchical heap are untouched,
    and the frontier has advanced by exactly [sizeofInitialBytesLive],
    staying within the limit.  The vectors lie back to back from the old
    frontier on: the vector number [i] starts behind the [i] vectors before
    it, as counter 0, length, header of its element size and data; its
    global holds the address of its data unless a later vector names the
    same global; a global that no vector names keeps its value. *)
Theorem initVectors_lays_out (s : GC_state world) :
  GC_SEQUENCE_COUNTER_SIZE + GC_SEQUENCE_LENGTH_SIZE + GC_HEADER_SIZE =
    GC_SEQUENCE_METADATA_SIZE ->
  0 <= GC_SEQUENCE_METADATA_SIZE ->
  frontier s <= limitPlusSlop s < frontier s + U64_MODULUS ->
  fit (alignment s) (HM_getChunkOf (frontier s)) (limitPlusSlop s)
      (vectorInits s) (List.length (globals s)) (frontier s) ->
  inFirstBlockOfChunk (HM_getChunkOf (frontier s))
    (frontier s + bytesOf (alignment s) (vectorInits s)) = true ->
  exists s',
    initVectors s = Returns s' /\
    frontier s' = frontier s + sizeofInitialBytesLive s /\
    frontier s' <= limitPlusSlop s' /\
    limitPlusSlop s' = limitPlusSlop s /\
    limit s' = limit s /\
    rest s' = rest s /\
    (forall (i : nat) v, vectorInits s !! i = Some v ->
       let start :=
         frontier s + bytesOf (alignment s) (take i (vectorInits s)) in
       (exists before after,
          stores s' = stores s ++ before ++ vectorStores v start ++ after) /\
       ((forall (j : nat) v', (i < j)%nat -> vectorInits s !! j = Some v' ->
           globalIndex v' <> globalIndex v) ->
        globals s' !! Z.to_nat (globalIndex v) =
          Some (pointerToObjptr (start + GC_SEQUENCE_METADATA_SIZE) NULL))) /\
    (forall k : nat,
       (forall v, v ∈ vectorInits s -> globalIndex v <> Z.of_nat k) ->
       globals s' !! k = globals s !! k).
Proof.
  intros Hlayout Hmeta Hroom Hfit Hblock.
  destruct (initVectors_fits s Hlayout Hmeta Hroom Hfit Hblock)
    as (s' & Hrun & Hfrontier & Hle & Hlps & Hlimit & Hrest & Hstores &
        Hglobals).
  assert (forall v, v ∈ vectorInits s ->
            0 <= globalIndex v < Z.of_nat (List.length (globals s)))
    as Hrange by (intros v Hin; by eapply fit_global_in_range).
  exists s'. do 6 (split; [done|]). split.
  - intros i v Hi start. split.
    + destruct (laidOut_at (alignment s) _ i v (frontier s) Hi)
        as (before & after & Hlaid).
      exists before, after. by rewrite Hstores, Hlaid.
    + intros Hlast. rewrite Hglobals. apply globalsSet_at; [done| |].
      * pose proof (Hrange v (list_elem_of_lookup_2 _ _ _ Hi)). lia.
      * intros j v' Hij Hj Heq.
        pose proof (Hrange v (list_elem_of_lookup_2 _ _ _ Hi)).
        pose proof (Hrange v' (list_elem_of_lookup_2 _ _ _ Hj)).
        apply (Hlast j v' Hij Hj). lia.
  - intros k Hk. rewrite Hglobals. apply globalsSet_other.
    intros v Hin Heq. pose proof (Hrange v Hin). apply (Hk v Hin). lia.
Qed.

(** A vector with an unknown element size stops the loop body. *)
Lemma initVector_unknown_size v (s : GC_state world) l sl :
  elementSize v <> 1 -> elementSize v <> 2 -> elementSize v <> 4 ->
  elementSize v <> 8 ->
  initVector v s l <> Returns sl.
Proof.
  intros H1 H2 H4 H8. unfold initVector.
  destruct (if _ || _ then _ else _) as [[s1 l1]| |]; osimpl; try done.
  destruct (Z.eqb_spec (elementSize v) 1); [done|].
  destruct (Z.eqb_spec (elementSize v) 2); [done|].
  destruct (Z.eqb_spec (elementSize v) 4); [done|].
  destruct (Z.eqb_spec (elementSize v) 8); [done|].
  by osimpl.
Qed.

Lemma initVectors_loop_unknown_size inits : forall (s : GC_state world) l sl v,
  v ∈ inits ->
  elementSize v <> 1 -> elementSize v <> 2 -> elementSize v <> 4 ->
  elementSize v <> 8 ->
  initVectors_loop inits s l <> Returns sl.
Proof.
  induction inits as [|v0 inits IH]; intros s l sl v Hin H1 H2 H4 H8.
  - by apply elem_of_nil in Hin.
  - cbn [initVectors_loop].
    destruct (initVector v0 s l) as [[s1 l1]| |] eqn:Hstep; osimpl;
      try done.
    apply elem_of_cons in Hin as [->|Hin].
    + by apply initVector_unknown_size in Hstep.
    + by eapply IH.
Qed.

(** X20: [initVectors] does not return when one of the vectors has an
    element size other than 1, 2, 4 or 8, wherever the vector is in the
    list: the process is aborted (on that vector, or before it for lack of
    space), or an earlier vector names a global that does not exist. *)
Theorem initVectors_unknown_element_size (s s' : GC_state world) v :
  v ∈ vectorInits s ->
  elementSize v <> 1 -> elementSize v <> 2 -> elementSize v <> 4 ->
  elementSize v <> 8 ->
  initVectors s <> Returns s'.
Proof.
  intros Hin H1 H2 H4 H8. unfold initVectors.
  destruct (initVectors_loop _ _ _) as [[s1 l1]| |] eqn:Hloop; osimpl;
    try done.
  by eapply initVectors_loop_unknown_size in Hloop.
Qed.

End InitVectors.

Section InitVectorsInstances.
Import InitWorld ExampleInit.
#[local] Existing Instance layout64.

Lemma initVectors_lays_out_witness :
  exists s',
    initVectors (fresh_world two_vectors) = Returns s' /\
    frontier s' = 8256 + sizeofInitialBytesLive (fresh_world two_vectors) /\
    frontier s' <= limitPlusSlop s' /\
    limitPlusSlop s' = 12288 /\
    limit s' = 11776 /\
    rest s' = () /\
    (forall (i : nat) v, two_vectors !! i = Some v ->
       let start := 8256 + bytesOf 8 (take i two_vectors) in
       (exists before after,
          stores s' = [] ++ before ++ vectorStores v start ++ after) /\
       ((forall (j : nat) v', (i < j)%nat -> two_vectors !! j = Some v' ->
           globalIndex v' <> globalIndex v) ->
        globals s' !! Z.to_nat (globalIndex v) =
          Some (pointerToObjptr (start + GC_SEQUENCE_METADATA_SIZE) NULL))) /\
    (forall k : nat,
       (forall v, v ∈ two_vectors -> globalIndex v <> Z.of_nat k) ->
       globals s' !! k = [1; 1; 1; 1] !! k).
Proof.
  apply (@initVectors_lays_out layout64 (fresh_world two_vectors)).
  - reflexivity.
  - vm_compute. discriminate.
  - vm_compute. split; [discriminate|reflexivity].
  - cbn. repeat split; try lia; try tauto; vm_compute; congruence.
  - reflexivity.
Defined.

Lemma initVectors_unknown_element_size_witness :
  initVectors (fresh_world (two_vectors ++ [odd_vector])) <>
    Returns (fresh_world []).
Proof.
  apply (@initVectors_unknown_element_size layout64
           (fresh_world (two_vectors ++ [odd_vector])) (fresh_world [])
           odd_vector).
  - cbn [vectorInits fresh_world]. apply elem_of_app. right.
    by apply list_elem_of_singleton.
  - cbn. lia.
  - cbn. lia.
  - cbn. lia.
  - cbn. lia.
Defined.

End InitVectorsInstances.

(** ** Running out of chunks *)

Section OutOfSpace.
Import HHC.
Context `{Runtime}.

Lemma allocateChunk_none s list n :
  freeChunks s = [] -> HM_allocateChunk s list n = Ok (s, None).
Proof. intros Hfree. unfold HM_allocateChunk. by rewrite Hfree. Qed.

(** Unlinking a chunk and appending it to another list takes no chunk
    from the allocator. *)
Lemma unlink_append_free s chunk c src l tgt lt :
  chunks s !! chunk = Some c ->
  levelHead c = Some src ->
  chunkLists s !! src = Some l ->
  chunkLists s !! tgt = Some lt ->
  tgt <> src ->
  exists s2,
    HM_unlinkChunk s chunk ≫= (λ s1, HM_appendChunk s1 tgt chunk) = Ok s2 /\
    freeChunks s2 = freeChunks s.
Proof.
  intros Hc Hlh Hsrc Htgt Hne.
  unfold HM_unlinkChunk. rewrite Hc. rsimpl. rewrite Hlh. rsimpl.
  rewrite Hsrc. rsimpl.
  unfold HM_appendChunk. cbn [chunkLists chunks set_chunks set_chunkLists].
  rewrite (lookup_insert_ne (chunkLists s) src tgt) by congruence.
  rewrite Htgt. rsimpl.
  rewrite (lookup_insert_eq (chunks s) chunk). rsimpl.
  eexists. split; reflexivity.
Qed.

(** X21: moving a single-object chunk needs a free chunk although
    nothing is copied.  For an object of the collected range that is not a
    weak, is not in the to-space, has no forwarding pointer and is alone in
    its chunk, [forwardHHObjptr] aborts with "Ran out of space for
    Hierarchical Heap!" when the allocator has no chunk left, whether the
    to-space list of the level exists already or not. *)
Theorem forwardHHObjptr_move_out_of_space
    s args op o tag bnp np c src l :
  isObjptr op = true ->
  isObjptrInRootHeap op = false ->
  objects s !! op = Some o ->
  fwdPtr o = None ->
  splitHeader (header o) = (tag, bnp, np) ->
  tag <> WEAK_TAG ->
  chunks s !! HM_getChunkOf op = Some c ->
  mightContainMultipleObjects c = false ->
  levelHead c = Some src ->
  chunkLists s !! src = Some l ->
  isInToSpace l = false ->
  minLevel args <= level l <= maxLevel args ->
  (forall tgt, toSpace args !! level l = Some tgt ->
     exists lt, chunkLists s !! tgt = Some lt /\ isInToSpace lt = true) ->
  freeChunks s = [] ->
  forwardHHObjptr s args op = Die DieOutOfSpace.
Proof.
  intros Hptr Hroot Ho Hfwd Hsplit Hweak Hc Hsingle Hlh Hsrc Hfrom
         [Hmin Hmax] Htarget Hfree.
  destruct (computeObjectCopyParameters_frame s op o tag bnp np
              Ho Hsplit Hweak)
    as (s1 & objectBytes & copyBytes & metaDataBytes & o1 &
        Hcompute & Hchunks1 & Hlists1 & Hfree1 & Ho1 & Hfwd1 & Hhdr1).
  unfold forwardHHObjptr.
  rewrite Hptr, Hroot. cbn [negb orb].
  unfold HM_getObjptrLevel, HM_isObjptrInToSpace.
  rewrite (getLevelHead_eq s op c src l Hc Hlh Hsrc). rsimpl.
  destruct (Z.ltb_spec (maxLevel args) (level l)); [lia|].
  destruct (Z.ltb_spec (level l) (minLevel args)); [lia|]. rsimpl.
  rewrite (chaseFwdPtr_not_forwarded _ s op o Ho Hfwd). rsimpl.
  rewrite (getLevelHead_eq s op c src l Hc Hlh Hsrc). rsimpl.
  destruct (Z.ltb_spec (level l) (minLevel args)); [lia|].
  rewrite Hfrom. rewrite Hcompute. rsimpl.
  assert (exists args1,
            match tag with
            | STACK_TAG => Ok (incr_stacksCopied args)
            | WEAK_TAG => Die DieWeakTag
            | _ => Ok args
            end = Ok args1 /\
            toSpace args1 = toSpace args)
    as (args1 & -> & HtoSpace1).
  { destruct tag; [by eexists|by eexists|by eexists|done]. }
  rsimpl. rewrite HtoSpace1.
  destruct (toSpace args !! level l) as [tgt|] eqn:Htgt.
  - destruct (Htarget tgt eq_refl) as (lt & Hlt & Hto).
    rsimpl. rewrite Hchunks1, Hc. rsimpl. rewrite Hsingle. rsimpl.
    assert (tgt <> src) as Hne by (intros ->; congruence).
    destruct (unlink_append_free s1 (HM_getChunkOf op) c src l tgt lt)
      as (s2 & Hmove & Hfree2); try congruence.
    destruct (HM_unlinkChunk s1 (HM_getChunkOf op)) as [s3| | |];
      rsimpl in Hmove; try discriminate; rsimpl.
    rewrite Hmove. rsimpl.
    rewrite allocateChunk_none by congruence. by rsimpl.
  - unfold HM_newChunkList. cbv beta iota.
    rewrite allocateChunk_none
      by (cbn [freeChunks set_chunkLists]; congruence).
    by rsimpl.
Qed.

End OutOfSpace.

Section OutOfSpaceInstances.
Import HHC Example ExampleForward.

Lemma forwardHHObjptr_move_out_of_space_witness :
  forwardHHObjptr (H := runtime64) exhausted fresh_args 8264 =
    Die DieOutOfSpace.
Proof.
  apply (@forwardHHObjptr_move_out_of_space runtime64 exhausted fresh_args
           8264 a_stack STACK_TAG 0 0
           {| frontier := 8396; limit := 12288;
              mightContainMultipleObjects := false;
              levelHead := Some 100 |}
           100
           {| chunkIds := [8192]; level := 2; isInToSpace := false;
              containingHH := 1 |});
    try reflexivity; done.
Defined.

End OutOfSpaceInstances.
